(** * AeroPy, [aeropy/morphing/camber_2D.py]: structurally consistent morphing

    A shallow embedding of the dependent shape-coefficient solver
    ([calculate_dependent_shape_coefficients]), of the shape-tracing fit
    ([calculate_shape_coefficients_tracing]) and of the strain evaluator
    ([calculate_strains]), and the properties of them that the specification
    states; then of the coordinates that [plot_airfoil] returns, and further
    properties that the code shows.

    Modelling choices, used throughout:
    - Python and numpy floats are idealised as real numbers ([R]): rounding
      is not modelled, and an equality proved here is exact.
    - An operation whose floating-point result is not a real number (a
      division by zero, the square root or the fractional power of a negative
      number) ends the run with an exceptional [outcome].  Python raises on
      some of them, numpy goes on with [inf] or [nan] and a warning; the model
      does not follow a run past such a value.
    - Lists, numpy vectors and numpy matrices are [list R] and
      [list (list R)]; an access out of range raises [IndexError].
    - The [while] loop of the solver is run with a number of allowed turns
      ([fuel]); [OutOfFuel] says that the loop is still running after that
      many turns.  The source has no such bound.
    - The functions imported from [aeropy.CST_2D.module],
      [aeropy.geometry.airfoil] and [numpy.linalg] are not among the sources;
      they are parameters, collected in the classes [CST_2D] and [Linalg].
    - The calls of [print] have no effect on the results and are left out. *)

From Stdlib Require Import String.
From Stdlib Require Import Reals Lra Lia List Arith Bool.
Import ListNotations.
Open Scope R_scope.
Set Warnings "-notation-for-abbreviation".

(** ** Outcomes of a run *)

Inductive exn : Type :=
| IndexError          (* sequence index out of range *)
| ZeroDivisionError   (* a division whose divisor is zero *)
| DomainError         (* a root or power outside the reals, the factorial of
                         a negative number *)
| LinAlgError         (* numpy.linalg.inv on a singular matrix *)
| UnboundLocalError.  (* a local variable read before assignment *)

Inductive outcome (A : Type) : Type :=
| Ok (a : A)
| Raise (e : exn)
| OutOfFuel.

Arguments Ok {A} a.
Arguments Raise {A} e.
Arguments OutOfFuel {A}.

Definition bind {A B : Type} (m : outcome A) (k : A -> outcome B) : outcome B :=
  match m with
  | Ok a => k a
  | Raise e => Raise e
  | OutOfFuel => OutOfFuel
  end.

Notation "x <- m ;; k" := (bind m (fun x => k))
  (at level 61, m at next level, right associativity).

Fixpoint mapM {A B : Type} (f : A -> outcome B) (l : list A) : outcome (list B) :=
  match l with
  | [] => Ok []
  | a :: l' => b <- f a ;; bs <- mapM f l' ;; Ok (b :: bs)
  end.

(** ** Arithmetic with its failures *)

(** [x / y] *)
Definition fdiv (x y : R) : outcome R :=
  if Req_dec_T y 0 then Raise ZeroDivisionError else Ok (x / y).

(** [np.sqrt(x)] and [x ** 0.5] *)
Definition fsqrt (x : R) : outcome R :=
  if Rlt_dec x 0 then Raise DomainError else Ok (sqrt x).

(** [x ** y] for a float exponent [y] *)
Definition is_integer (y : R) : option Z :=
  if Req_dec_T (IZR (Int_part y)) y then Some (Int_part y) else None.

Definition fpow (x y : R) : outcome R :=
  if Rlt_dec 0 x then Ok (Rpower x y)
  else match is_integer y with
       | Some z =>
           if Req_dec_T x 0
           then (if Z.ltb z 0 then Raise ZeroDivisionError
                 else Ok (powerRZ x z))
           else Ok (powerRZ x z)
       | None =>
           if Req_dec_T x 0
           then (if Rlt_dec y 0 then Raise ZeroDivisionError else Ok 0)
           else Raise DomainError
       end.

(** [l[i]] for [i >= 0] *)
Definition index {A : Type} (l : list A) (i : nat) : outcome A :=
  match nth_error l i with
  | Some a => Ok a
  | None => Raise IndexError
  end.

(** [l[i] = v] on a numpy vector *)
Fixpoint set_item (l : list R) (i : nat) (v : R) : outcome (list R) :=
  match l, i with
  | [], _ => Raise IndexError
  | _ :: l', O => Ok (v :: l')
  | a :: l', S i' => r <- set_item l' i' v ;; Ok (a :: r)
  end.

(** [np.zeros((n,1))] *)
Definition zeros (n : nat) : list R := repeat 0 n.

(** [np.dot(M, b)] for a matrix [M] and a column [b] *)
Fixpoint dot (u v : list R) : R :=
  match u, v with
  | a :: u', b :: v' => a * b + dot u' v'
  | _, _ => 0
  end.

Definition mat_vec (M : list (list R)) (b : list R) : list R :=
  map (fun row => dot row b) M.

(** [sum(l)] *)
Definition sum (l : list R) : R := fold_left Rplus l 0.

(** The inner function [K(r,n)] of both solvers:
    [math.factorial(n)/(math.factorial(r)*math.factorial(n-r))]. *)
Definition K (r n : nat) : outcome R :=
  if (n <? r)%nat then Raise DomainError
  else fdiv (INR (fact n)) (INR (fact r * fact (n - r))).

(** ** The imported functions *)

(** The dictionary returned by [CST]: keys ['u'] and ['l']. *)
Record surfaces : Type := { surf_u : list R; surf_l : list R }.

Class CST_2D : Type := {
  (* calculate_c_baseline(c_L, Au_C, Au_L, deltaz) *)
  calculate_c_baseline : R -> list R -> list R -> R -> R;
  (* calculate_spar_distance(psi_baseline, Au_baseline, Au_goal, Al_goal,
                             deltaz, c_goal) *)
  calculate_spar_distance : R -> list R -> list R -> list R -> R -> R -> R;
  (* calculate_psi_goal(psi_baseline, Au_baseline, Au_goal, deltaz,
                        c_baseline, c_goal) *)
  calculate_psi_goal : R -> list R -> list R -> R -> R -> R -> R;
  (* calculate_spar_direction(psi_baseline, Au_baseline, Au_goal, deltaz,
                              c_goal), the pair (s[0], s[1]) *)
  calculate_spar_direction : R -> list R -> list R -> R -> R -> R * R;
  (* calculate_arc_length(psi_initial, psi_final, A_j, deltaz, c_j) *)
  calculate_arc_length : R -> R -> list R -> R -> R -> R;
  (* CST(x, c, deltasz=[.,.], Al=., Au=.) *)
  CST : list R -> R -> R * R -> list R -> list R -> surfaces
}.

Class Linalg : Type := {
  (* numpy.linalg.inv; [None] is LinAlgError("Singular matrix") *)
  inv : list (list R) -> option (list (list R))
}.

(** The matrix loops of the three solves:
    [M[j][i] = K(r,n)*(psis[j]**r)*(1-psis[j])**(n-r)] with [r = i+1]. *)
Definition matrix_entry (n : nat) (psis : list R) (j i : nat) : outcome R :=
  let r := (i + 1)%nat in
  k <- K r n ;;
  p <- index psis j ;;
  Ok (k * (p ^ r) * (1 - p) ^ (n - r)).

Definition matrix_row (n : nat) (psis : list R) (j : nat) : outcome (list R) :=
  mapM (fun i => matrix_entry n psis j i) (seq 0 n).

Definition bernstein_matrix (n : nat) (psis : list R)
  : outcome (list (list R)) :=
  mapM (matrix_row n psis) (seq 0 n).

(** [for j in range(...)] over a state [S]. *)
Fixpoint for_each {S : Type} (body : S -> nat -> outcome S) (s : S)
  (js : list nat) : outcome S :=
  match js with
  | [] => Ok s
  | j :: js' => s' <- body s j ;; for_each body s' js'
  end.

Definition inv_or_raise `{Linalg} (M : list (list R)) : outcome (list (list R)) :=
  match inv M with
  | Some M' => Ok M'
  | None => Raise LinAlgError
  end.

(** ** [calculate_dependent_shape_coefficients] *)

Section Solver.
Context `{prim : CST_2D} `{la : Linalg}.

Variables (Au_C_1_to_n psi_spars Au_P Al_P : list R) (deltaz c_P : R).

(** The inner function [calculate_AC_u0]. *)
Definition calculate_AC_u0 (AC_u0 : R) : outcome R :=
  let Au_C := AC_u0 :: Au_C_1_to_n in
  let c_C := calculate_c_baseline c_P Au_C Au_P deltaz in
  q <- fdiv c_P c_C ;;
  s <- fsqrt q ;;
  a <- index Au_P 0 ;;
  Ok (s * a).

(** [while error > 1e-9: before = AC_u0; AC_u0 = calculate_AC_u0(AC_u0);
    error = abs(AC_u0 - before)] *)
Fixpoint fixed_point_loop (fuel : nat) (AC_u0 error : R) : outcome R :=
  if Rgt_dec error 1e-9 then
    match fuel with
    | O => OutOfFuel
    | S fuel' =>
        let before := AC_u0 in
        AC_u0' <- calculate_AC_u0 AC_u0 ;;
        fixed_point_loop fuel' AC_u0' (Rabs (AC_u0' - before))
    end
  else Ok AC_u0.

(** What is known when the branch on [morphing] is reached. *)
Record leading : Type := {
  st_AC_u0 : R;
  st_Au_C : list R;
  st_c_C : R;
  st_AC_l0 : R
}.

(** Lines 45 to 71, everything before the branch on [morphing]. *)
Definition leading_coefficients (fuel : nat) : outcome leading :=
  a0 <- index Au_P 0 ;;
  AC_u0 <- fixed_point_loop fuel a0 9999 ;;
  let Au_C := AC_u0 :: Au_C_1_to_n in
  let c_C := calculate_c_baseline c_P Au_C Au_P deltaz in
  q <- fdiv c_P c_C ;;
  s <- fsqrt q ;;
  l0 <- index Al_P 0 ;;
  Ok {| st_AC_u0 := AC_u0; st_Au_C := Au_C; st_c_C := c_C;
        st_AC_l0 := s * l0 |}.

(** [n = len(Au_C_1_to_n)] *)
Definition order : nat := length Au_C_1_to_n.

(** One turn of the loop of lines 75 to 82, on the pair
    [(spar_thicknesses, b_list)]. *)
Definition backwards_step (st : leading) (acc : list R * list R) (j : nat)
  : outcome (list R * list R) :=
  let '(spar_thicknesses, b_list) := acc in
  psi_j <- index psi_spars j ;;
  let t_j :=
    calculate_spar_distance psi_j (st_Au_C st) Au_P Al_P deltaz c_P in
  let spar_thicknesses := spar_thicknesses ++ [t_j] in
  x1 <- fdiv t_j (st_c_C st) ;;
  x2 <- fdiv (psi_j * deltaz) (st_c_C st) ;;
  h <- fsqrt psi_j ;;
  x3 <- fdiv (x1 - x2) (h * (1 - psi_j)) ;;
  let A0 := st_AC_u0 st + st_AC_l0 st in
  b_list <- set_item b_list j (x3 - A0 * (1 - psi_j) ^ order) ;;
  Ok (spar_thicknesses, b_list).

Definition backwards (st : leading)
  : outcome (list R * list R * R * list R) :=
  acc <- for_each (backwards_step st) ([], zeros order)
           (seq 0 (length psi_spars)) ;;
  let '(spar_thicknesses, b_list) := acc in
  B <- bernstein_matrix order psi_spars ;;
  B' <- inv_or_raise B ;;
  let A_bar := mat_vec B' b_list in
  rest <- mapM (fun i => a <- index A_bar i ;;
                         c <- index (st_Au_C st) (i + 1) ;;
                         Ok (a - c))
            (seq 0 (length A_bar)) ;;
  Ok (st_Au_C st, st_AC_l0 st :: rest, st_c_C st, spar_thicknesses).

(** One turn of the loop of lines 127 to 140, on the triple
    [(spar_thicknesses, psi_lower_children, f)]. *)
Definition forwards_step (st : leading) (c_C : R)
  (psi_upper_children xi_upper_children : list R)
  (acc : list R * list R * list R) (j : nat)
  : outcome (list R * list R * list R) :=
  let '(spar_thicknesses, psi_lower_children, f) := acc in
  h1 <- fdiv (deltaz / 2) c_P ;;
  let xi_parent := CST psi_spars 1 (h1, h1) Al_P Au_P in
  xu <- index (surf_u xi_parent) j ;;
  xl <- index (surf_l xi_parent) j ;;
  let delta_j_P := xu - xl in
  let t_j := c_P * delta_j_P in
  p <- index psi_spars j ;;
  let s_j := calculate_spar_direction p Au_P (st_Au_C st) deltaz c_C in
  pu <- index psi_upper_children j ;;
  d <- fdiv delta_j_P c_C ;;
  let psi_l_j := pu - d * fst s_j in
  xu' <- index xi_upper_children j ;;
  let xi_l_j := xu' - d * snd s_j in
  let spar_thicknesses := spar_thicknesses ++ [t_j] in
  let psi_lower_children := psi_lower_children ++ [psi_l_j] in
  x1 <- fdiv (psi_l_j * deltaz) c_C ;;
  h <- fsqrt psi_l_j ;;
  x2 <- fdiv (2 * xi_l_j + x1) (2 * h * (psi_l_j - 1)) ;;
  f <- set_item f j (x2 - st_AC_l0 st * (1 - psi_l_j) ^ order) ;;
  Ok (spar_thicknesses, psi_lower_children, f).

(** Lines 100 to 155.  The call of [CST] on [np.linspace(0,1)] (lines 120
    and 121) computes a value that is never read and is left out. *)
Definition forwards (st : leading)
  : outcome (list R * list R * R * list R) :=
  let c_C := calculate_c_baseline c_P (st_Au_C st) Au_P deltaz in
  psi_upper_children <-
    mapM (fun j => p <- index psi_spars j ;;
                   Ok (calculate_psi_goal p Au_P (st_Au_C st) deltaz c_P c_C))
      (seq 0 (length psi_spars)) ;;
  g <- fdiv (deltaz / 2) c_C ;;
  let xi_upper_children :=
    surf_u (CST psi_upper_children 1 (g, g) (st_Au_C st) (st_Au_C st)) in
  acc <- for_each (forwards_step st c_C psi_upper_children xi_upper_children)
           ([], [], zeros order) (seq 0 (length psi_spars)) ;;
  let '(spar_thicknesses, psi_lower_children, f) := acc in
  F <- bernstein_matrix order psi_lower_children ;;
  F' <- inv_or_raise F ;;
  let A_lower := mat_vec F' f in
  rest <- mapM (fun i => index A_lower i) (seq 0 (length A_lower)) ;;
  Ok (st_Au_C st, st_AC_l0 st :: rest, c_C, spar_thicknesses).

(** The argument [morphing] is a Python string; with any value other than
    the two below the [return] reads [Al_C] before it is assigned. *)
Definition calculate_dependent_shape_coefficients (fuel : nat)
  (morphing : string) : outcome (list R * list R * R * list R) :=
  st <- leading_coefficients fuel ;;
  if String.eqb morphing "backwards"%string then backwards st
  else if String.eqb morphing "forwards"%string then forwards st
  else Raise UnboundLocalError.

End Solver.

(** ** [calculate_shape_coefficients_tracing] *)

Section Tracing.
Context `{la : Linalg}.

Variables (A0 : R) (x y : list R) (N1 N2 chord EndThickness : R).

(** One turn of the outer loop of lines 179 to 185: row [jj] of [T] and
    entry [jj] of [t]. *)
Definition tracing_row (n : nat) (Psi Xi : list R) (EndThickness' : R)
  (jj : nat) : outcome (list R * R) :=
  row <- matrix_row n Psi jj ;;
  xi <- index Xi jj ;;
  psi <- index Psi jj ;;
  c1 <- fpow psi N1 ;;
  c2 <- fpow (1 - psi) N2 ;;
  q <- fdiv (xi - psi * EndThickness') (c1 * c2) ;;
  Ok (row, q - A0 * (1 - psi) ^ n).

Definition calculate_shape_coefficients_tracing : outcome (list R) :=
  let n := length x in
  Psi <- mapM (fun xi => fdiv xi chord) x ;;
  Xi <- mapM (fun yi => fdiv yi chord) y ;;
  EndThickness' <- fdiv EndThickness chord ;;
  rows <- mapM (tracing_row n Psi Xi EndThickness') (seq 0 n) ;;
  let T := map fst rows in
  let t := map snd rows in
  T' <- inv_or_raise T ;;
  let A := mat_vec T' t in
  Ok (A0 :: A).

End Tracing.

(** ** [calculate_strains] *)

Section Strains.
Context `{prim : CST_2D}.

Variables (Au_P Al_P : list R) (c_P : R) (Au_C Al_C : list R) (c_C : R)
  (deltaz : R) (psi_spars spar_thicknesses : list R).

Definition psi_flat (j : nat) : outcome R :=
  psi_parent_j <- index psi_spars j ;;
  let psi_children_j :=
    calculate_psi_goal psi_parent_j Au_P Au_C deltaz c_P c_C in
  let x_children_j := psi_children_j * c_C in
  p <- index psi_spars j ;;
  let s := calculate_spar_direction p Au_P Au_C deltaz c_C in
  t <- index spar_thicknesses j ;;
  Ok (x_children_j - t * fst s).

Definition initial_length (psi_list : list R) (i : nat) : outcome R :=
  a <- index psi_list i ;;
  b <- index psi_list (i + 1) ;;
  Ok (calculate_arc_length a b Al_P deltaz c_P).

Definition final_length (psi_list : list R) (i : nat) : outcome R :=
  a <- index psi_list i ;;
  a' <- fdiv (a * c_P) c_C ;;
  b <- index psi_list (i + 1) ;;
  b' <- fdiv (b * c_P) c_C ;;
  Ok (calculate_arc_length a' b' Al_C deltaz c_C).

Definition strain (initial_lengths final_lengths : list R) (i : nat)
  : outcome R :=
  f <- index final_lengths i ;;
  i0 <- index initial_lengths i ;;
  i1 <- index initial_lengths i ;;
  fdiv (f - i0) i1.

Definition calculate_strains : outcome (list R * R) :=
  psi_flats <- mapM psi_flat (seq 0 (length psi_spars)) ;;
  let psi_list := [0] ++ psi_spars ++ [c_P] in
  initial_lengths <-
    mapM (initial_length psi_list) (seq 0 (length psi_list - 1)) ;;
  let psi_list := [0] ++ psi_flats ++ [c_C] in
  final_lengths <-
    mapM (final_length psi_list) (seq 0 (length psi_list - 1)) ;;
  strains <-
    mapM (strain initial_lengths final_lengths)
      (seq 0 (length final_lengths)) ;;
  av_strain <- fdiv (sum final_lengths - sum initial_lengths)
                 (sum initial_lengths) ;;
  Ok (strains, av_strain).

End Strains.

(** ** The vocabulary of the specification *)

(** The binomial coefficient [C(n,r)], by Pascal's rule. *)
Fixpoint binomial (n r : nat) : nat :=
  match n, r with
  | _, O => 1
  | O, S _ => 0
  | S n', S r' => binomial n' r' + binomial n' r
  end.

(** The Bernstein basis value [C(n,r) * psi^r * (1-psi)^(n-r)]. *)
Definition bernstein (n r : nat) (psi : R) : R :=
  INR (binomial n r) * psi ^ r * (1 - psi) ^ (n - r).

(** The matrix of the specification: one row per station, column [i]
    holding the basis value of index [i+1]. *)
Definition spec_matrix (n : nat) (psis : list R) : list (list R) :=
  map (fun psi => map (fun i => bernstein n (i + 1) psi) (seq 0 n)) psis.

(** [B'] is the inverse of [B], as maps on columns of the size of [B]. *)
Definition inverse_of (B B' : list (list R)) : Prop :=
  length B' = length B /\
  (forall v, length v = length B -> mat_vec B (mat_vec B' v) = v) /\
  (forall v, length v = length B -> mat_vec B' (mat_vec B v) = v).

(** [B] has no inverse. *)
Definition singular (B : list (list R)) : Prop :=
  ~ exists B', inverse_of B B'.

(** [all j < len(psi_spars): 0 < psi_spars[j] < 1] *)
Definition interior (psi_spars : list R) : Prop :=
  Forall (fun psi => 0 < psi < 1) psi_spars.

(** Modelled from the spec: the CST evaluator, [aeropy.geometry.airfoil.CST],
    is not among the sources.  A surface is a class function,
    [psi^0.5 * (1-psi)], times a Bernstein shape function of the coefficient
    set, plus the trailing-edge term; this is the relation that line 82 of
    the solver inverts. *)
Definition shape_function (A : list R) (psi : R) : R :=
  let n := (length A - 1)%nat in
  fold_right Rplus 0
    (map (fun r => nth r A 0 * bernstein n r psi) (seq 0 (length A))).

(** Modelled from the spec: the class function of the CST evaluator, with
    the exponents 0.5 and 1 of its signature. *)
Definition class_function (psi : R) : R := sqrt psi * (1 - psi).

(** Modelled from the spec: the upper surface of the CST evaluator at the
    abscissa [x], for the chord [c] and the trailing-edge term [dz]. *)
Definition cst_upper (Au : list R) (dz c x : R) : R :=
  c * (class_function (x / c) * shape_function Au (x / c)) + x / c * dz.

(** Modelled from the spec: the lower surface of the CST evaluator, the
    mirror image of the upper one. *)
Definition cst_lower (Al : list R) (dz c x : R) : R :=
  - (c * (class_function (x / c) * shape_function Al (x / c))) - x / c * dz.

(** The vertical gap between the two surfaces of one configuration at the
    station [psi], in units of length. *)
Definition vertical_gap (Au Al : list R) (deltaz c psi : R) : R :=
  c * (cst_upper Au (deltaz / 2 / c) 1 psi - cst_lower Al (deltaz / 2 / c) 1 psi).

(** The distance [d] from the upper surface [yu] at [x0] to the lower
    surface [yl], along the direction orthogonal to the tangent of [yu] at
    [x0]: the point reached from [(x0, yu x0)] after [d] along the unit
    vector [(m, -1)/sqrt(1+m^2)], [m] the slope of [yu] at [x0], lies on
    [yl]. *)
Definition orthogonal_distance (yu yl : R -> R) (x0 d : R) : Prop :=
  exists m, derivable_pt_lim yu x0 m /\
    0 <= d /\
    yl (x0 + d * m / sqrt (1 + m * m)) = yu x0 - d / sqrt (1 + m * m).

(** ** Reference behaviours of the imported functions *)

(** What the imported functions do on two identical configurations: the
    baseline chord is the chord given, a station maps to itself, a spar stays
    vertical and its length is the vertical gap of the goal configuration.
    The arc length is that of a flat surface, and [CST] is the evaluator
    above. *)
Definition rigid : CST_2D := {|
  calculate_c_baseline := fun c_L _ _ _ => c_L;
  calculate_spar_distance := fun psi _ Au_goal Al_goal deltaz c_goal =>
    vertical_gap Au_goal Al_goal deltaz c_goal psi;
  calculate_psi_goal := fun psi _ _ _ _ _ => psi;
  calculate_spar_direction := fun _ _ _ _ _ => (0, 1);
  calculate_arc_length := fun a b _ _ c => c * (b - a);
  CST := fun x c dz Al Au =>
    {| surf_u := map (cst_upper Au (fst dz) c) x;
       surf_l := map (cst_lower Al (snd dz) c) x |}
|}.

(** A baseline chord that never settles: a quarter of the parent chord when
    the child's leading coefficient is 1, the parent chord otherwise.  It
    shows what the solver does when its iteration does not converge. *)
Definition restless : CST_2D := {|
  calculate_c_baseline := fun c_L Au_C _ _ =>
    if Req_dec_T (nth 0 Au_C 0) 1 then c_L / 4 else c_L;
  calculate_spar_distance := calculate_spar_distance (CST_2D := rigid);
  calculate_psi_goal := calculate_psi_goal (CST_2D := rigid);
  calculate_spar_direction := calculate_spar_direction (CST_2D := rigid);
  calculate_arc_length := calculate_arc_length (CST_2D := rigid);
  CST := CST (CST_2D := rigid)
|}.

(** A baseline chord that is always a quarter of the parent chord: the
    iteration settles on twice the parent's leading coefficient. *)
Definition quarter : CST_2D := {|
  calculate_c_baseline := fun c_L _ _ _ => c_L / 4;
  calculate_spar_distance := calculate_spar_distance (CST_2D := rigid);
  calculate_psi_goal := calculate_psi_goal (CST_2D := rigid);
  calculate_spar_direction := calculate_spar_direction (CST_2D := rigid);
  calculate_arc_length := calculate_arc_length (CST_2D := rigid);
  CST := CST (CST_2D := rigid)
|}.

(** An exact inverse by cofactors, standing for [numpy.linalg.inv]. *)
Fixpoint remove_at {A : Type} (k : nat) (l : list A) : list A :=
  match l, k with
  | [], _ => []
  | _ :: l', O => l'
  | a :: l', S k' => a :: remove_at k' l'
  end.

Fixpoint det_upto (n : nat) (M : list (list R)) : R :=
  match n, M with
  | S n', row :: rest =>
      fold_right Rplus 0
        (map (fun k => (-1) ^ k * nth k row 0
                       * det_upto n' (map (remove_at k) rest))
           (seq 0 (length row)))
  | _, _ => 1
  end.

Definition det (M : list (list R)) : R := det_upto (length M) M.

Definition minor (i j : nat) (M : list (list R)) : list (list R) :=
  map (remove_at j) (remove_at i M).

Definition cofactor_inv (M : list (list R)) : option (list (list R)) :=
  if Req_dec_T (det M) 0 then None
  else Some (map (fun i =>
               map (fun j => (-1) ^ (i + j) * det (minor j i M) / det M)
                 (seq 0 (length M)))
             (seq 0 (length M))).

Definition exact_linalg : Linalg := {| inv := cofactor_inv |}.

(** ** The solver, stage by stage, in the words of the specification *)

Section SolverVocabulary.
Context `{prim : CST_2D}.

Variables (Au_C_1_to_n psi_spars Au_P Al_P : list R) (deltaz c_P : R).

(** The [k]-th value of [AC_u0] in the fixed-point iteration started at
    [a]. *)
Fixpoint iterate (k : nat) (a : R) : outcome R :=
  match k with
  | O => Ok a
  | S k' =>
      a' <- calculate_AC_u0 Au_C_1_to_n Au_P deltaz c_P a ;; iterate k' a'
  end.

(** The values number [i] and [i+1] of the iteration exist and the absolute
    value of their difference satisfies [P]. *)
Definition successive (a : R) (i : nat) (P : R -> Prop) : Prop :=
  exists v v', iterate i a = Ok v /\ iterate (S i) a = Ok v' /\
               P (Rabs (v' - v)).

(** The thickness that the backwards branch records for a station. *)
Definition parent_spar_thickness (st : leading) (psi : R) : R :=
  calculate_spar_distance psi (st_Au_C st) Au_P Al_P deltaz c_P.

(** The right-hand side of the backwards system for a station. *)
Definition rhs_backwards (st : leading) (psi : R) : R :=
  (parent_spar_thickness st psi / st_c_C st - psi * deltaz / st_c_C st)
  / (sqrt psi * (1 - psi))
  - (st_AC_u0 st + st_AC_l0 st) * (1 - psi) ^ order Au_C_1_to_n.

(** The dictionary [xi_parent] of the forwards branch, and the thickness the
    branch records for spar [j]. *)
Definition xi_parent : surfaces :=
  CST psi_spars 1 (deltaz / 2 / c_P, deltaz / 2 / c_P) Al_P Au_P.

Definition forwards_spar_thickness (j : nat) : R :=
  c_P * (nth j (surf_u xi_parent) 0 - nth j (surf_l xi_parent) 0).

End SolverVocabulary.

(** The column of size [m] with 1 at index [i] and 0 elsewhere. *)
Definition unit_column (m i : nat) : list R :=
  map (fun k => if Nat.eqb k i then 1 else 0) (seq 0 m).

(** [a[i] - b[i]] for every [i]. *)
Definition pairwise_difference (a b : list R) : list R :=
  map (fun p => fst p - snd p) (combine a b).

(** [a[i] + b[i]] for every [i]. *)
Definition pairwise_sum (a b : list R) : list R :=
  map (fun p => fst p + snd p) (combine a b).

(** The sum of [X[i] * g i] over the indices of [X]. *)
Definition weighted (g : nat -> R) (X : list R) : R :=
  fold_right Rplus 0 (map (fun i => nth i X 0 * g i) (seq 0 (length X))).

(** The parent's upper and lower surfaces as curves, in units of length, as
    the forwards branch evaluates them. *)
Definition parent_upper `{prim : CST_2D} (Au_P Al_P : list R)
  (deltaz c_P : R) (x : R) : R :=
  c_P * nth 0 (surf_u (xi_parent [x / c_P] Au_P Al_P deltaz c_P)) 0.

Definition parent_lower `{prim : CST_2D} (Au_P Al_P : list R)
  (deltaz c_P : R) (x : R) : R :=
  c_P * nth 0 (surf_l (xi_parent [x / c_P] Au_P Al_P deltaz c_P)) 0.

(** ** The tracing fit in the words of the specification *)

(** The right-hand side of the tracing system for a target point. *)
Definition rhs_tracing (A0 N1 N2 chord EndThickness : R) (n : nat)
  (xi yi : R) : R :=
  (yi / chord - xi / chord * EndThickness / chord)
  / (Rpower (xi / chord) N1 * Rpower (1 - xi / chord) N2)
  - A0 * (1 - xi / chord) ^ n.

(** ** The spar feet of the forwards branch *)

(** The lists and the values of lines 103 to 140 of the solver, for the
    child upper coefficients [Au_C] and the child chord [c_C]:
    [psi_upper_children], [xi_upper_children], and for spar [j] the values
    [delta_j_P], [psi_l_j], [xi_l_j] and [f[j]]. *)
Section SparFeet.
Context `{prim : CST_2D}.
Variables (psi_spars Au_P Al_P : list R) (deltaz c_P : R)
  (Au_C : list R) (c_C : R).

Definition psi_upper_children : list R :=
  map (fun p => calculate_psi_goal p Au_P Au_C deltaz c_P c_C) psi_spars.

Definition xi_upper_children : list R :=
  surf_u (CST psi_upper_children 1 (deltaz / 2 / c_C, deltaz / 2 / c_C)
            Au_C Au_C).

Definition delta_P (j : nat) : R :=
  nth j (surf_u (xi_parent psi_spars Au_P Al_P deltaz c_P)) 0
  - nth j (surf_l (xi_parent psi_spars Au_P Al_P deltaz c_P)) 0.

Definition psi_l (j : nat) : R :=
  nth j psi_upper_children 0
  - delta_P j / c_C
    * fst (calculate_spar_direction (nth j psi_spars 0) Au_P Au_C deltaz c_C).

Definition xi_l (j : nat) : R :=
  nth j xi_upper_children 0
  - delta_P j / c_C
    * snd (calculate_spar_direction (nth j psi_spars 0) Au_P Au_C deltaz c_C).

Definition rhs_forwards (n : nat) (AC_l0 : R) (j : nat) : R :=
  (2 * xi_l j + psi_l j * deltaz / c_C)
  / (2 * sqrt (psi_l j) * (psi_l j - 1))
  - AC_l0 * (1 - psi_l j) ^ n.

End SparFeet.

(** ** [plot_airfoil] *)

(** [np.linspace(start, stop, num)]: [num] evenly spaced values, both ends
    included. *)
Definition linspace (start stop : R) (num : nat) : list R :=
  map (fun i => start + INR i * ((stop - start) / INR (num - 1))) (seq 0 num).

(** The module global of line 24. *)
Definition morphing_direction : string := "backwards".

(** The dictionary [children_coordinates]: keys ['x'] and ['y']. *)
Record coordinates : Type := { coord_x : list R; coord_y : list R }.

Section Plot.
Context `{prim : CST_2D} `{la : Linalg}.

(** Lines 227 to 299.  The calls of [matplotlib] draw on the figure and
    return nothing that is read afterwards; they are left out, with the
    arguments [image], [iteration] and [dir] that only they use and with the
    values that are computed for the drawing alone (the parent's surfaces,
    the goal stations, the spar directions).  What the loop over the spars
    reads from the two lists is kept.  A call that ends without [return]
    gives [None]. *)
Definition plot_airfoil (AC psi_spars : list R) (c_L deltaz : R)
  (Au_L Al_L : list R) (fuel : nat) (return_coordinates : bool)
  : outcome (option coordinates) :=
  r <- calculate_dependent_shape_coefficients AC psi_spars Au_L Al_L
         deltaz c_L fuel morphing_direction ;;
  let '(Au_C, Al_C, c_C, spar_thicknesses) := r in
  let x := linspace 0 c_C 1000 in
  let y := CST x c_C (deltaz / 2, deltaz / 2) Al_C Au_C in
  let x' := rev x ++ tl x in
  let y' := rev (surf_u y) ++ tl (surf_l y) in
  let children_coordinates := {| coord_x := x'; coord_y := y' |} in
  _ <- mapM (fun i => psi_i <- index psi_spars i ;;
                      t_i <- index spar_thicknesses i ;;
                      Ok (psi_i, t_i))
         (seq 0 (length psi_spars)) ;;
  Ok (if return_coordinates then Some children_coordinates else None).

End Plot.

(** * Properties *)

(** ** Outcomes and arithmetic *)

Lemma bind_Ok {A B} (m : outcome A) (k : A -> outcome B) b :
  (x <- m ;; k x) = Ok b -> exists a, m = Ok a /\ k a = Ok b.
Proof. destruct m; simpl; intros E; try discriminate. eauto. Qed.

Lemma fdiv_Ok x y : y <> 0 -> fdiv x y = Ok (x / y).
Proof. intros. unfold fdiv. destruct (Req_dec_T y 0); [contradiction|reflexivity]. Qed.

Lemma fdiv_inv x y r : fdiv x y = Ok r -> y <> 0 /\ r = x / y.
Proof. unfold fdiv. destruct (Req_dec_T y 0); intros E; inversion E; auto. Qed.

Lemma fsqrt_Ok x : 0 <= x -> fsqrt x = Ok (sqrt x).
Proof. intros. unfold fsqrt. destruct (Rlt_dec x 0); [lra|reflexivity]. Qed.

Lemma fsqrt_inv x r : fsqrt x = Ok r -> 0 <= x /\ r = sqrt x.
Proof. unfold fsqrt. destruct (Rlt_dec x 0); intros E; inversion E; split; auto; lra. Qed.

Lemma index_Ok {A} (l : list A) i a : nth_error l i = Some a -> index l i = Ok a.
Proof. unfold index. intros ->. reflexivity. Qed.

Lemma index_inv {A} (l : list A) i a : index l i = Ok a -> nth_error l i = Some a.
Proof. unfold index. destruct (nth_error l i); intros E; inversion E; auto. Qed.

Lemma set_item_out l : forall i v, (length l <= i)%nat -> set_item l i v = Raise IndexError.
Proof.
  induction l as [|a l IH]; intros i v Hi; simpl; auto.
  destruct i as [|i]; simpl in *; [lia|]. rewrite IH by lia. reflexivity.
Qed.

Lemma mapM_Ok_inv {A B} (f : A -> outcome B) : forall l bs,
  mapM f l = Ok bs -> Forall2 (fun a b => f a = Ok b) l bs.
Proof.
  induction l as [|a l IH]; simpl; intros bs E.
  - inversion E. constructor.
  - apply bind_Ok in E as (b & Eb & E). apply bind_Ok in E as (bs' & Ebs & E).
    inversion E; subst. constructor; auto.
Qed.

Lemma mapM_Ok {A B} (f : A -> outcome B) (g : A -> B) : forall l,
  (forall a, In a l -> f a = Ok (g a)) -> mapM f l = Ok (map g l).
Proof.
  induction l as [|a l IH]; simpl; intros Hf; auto.
  rewrite Hf by auto. simpl. rewrite IH by auto. reflexivity.
Qed.

Lemma mapM_length {A B} (f : A -> outcome B) l bs :
  mapM f l = Ok bs -> length bs = length l.
Proof. intros E. apply mapM_Ok_inv in E. symmetry. eapply Forall2_length; eauto. Qed.

(** ** The binomial coefficient and the matrix loops *)

Lemma binomial_gt n : forall r, (n < r)%nat -> binomial n r = 0%nat.
Proof.
  induction n as [|n IH]; intros [|r] H; simpl; try lia.
  rewrite !IH by lia. reflexivity.
Qed.

Lemma binomial_fact n : forall r, (r <= n)%nat ->
  (binomial n r * (fact r * fact (n - r)) = fact n)%nat.
Proof.
  induction n as [|n IH]; intros r Hr.
  - assert (r = 0)%nat by lia. subst. reflexivity.
  - destruct r as [|r].
    + change (binomial (S n) 0) with 1%nat. rewrite Nat.sub_0_r.
      change (fact 0) with 1%nat. rewrite !Nat.mul_1_l. reflexivity.
    + change (binomial (S n) (S r)) with (binomial n r + binomial n (S r))%nat.
      replace (S n - S r)%nat with (n - r)%nat by lia.
      assert (H1 := IH r ltac:(lia)).
      destruct (Nat.eq_dec r n) as [->|Hne].
      * rewrite (binomial_gt n (S n)) by lia. rewrite Nat.sub_diag in *.
        change (fact (S n)) with (S n * fact n)%nat.
        simpl (fact 0) in *. 
        set (a := binomial n n) in *. set (f := fact n) in *.
        rewrite Nat.add_0_r. rewrite Nat.mul_1_r in *.
        transitivity (S n * (a * f))%nat; [lia | rewrite H1; reflexivity].
      * assert (H2 := IH (S r) ltac:(lia)).
        replace (n - r)%nat with (S (n - S r)) in * by lia.
        change (fact (S n)) with (S n * fact n)%nat.
        change (fact (S r)) with (S r * fact r)%nat in *.
        change (fact (S (n - S r))) with (S (n - S r) * fact (n - S r))%nat in *.
        set (a := binomial n r) in *. set (b := binomial n (S r)) in *.
        set (fr := fact r) in *. set (fq := fact (n - S r)) in *.
        assert (E : S n = (S r + S (n - S r))%nat) by lia.
        set (q := S (n - S r)) in *. set (s := S r) in *.
        set (fn := fact n) in *.
        rewrite E.
        transitivity (s * (a * (fr * (q * fq))) + q * (b * (s * fr * fq)))%nat;
          [ring | rewrite H1, H2; ring].
Qed.

Lemma K_Ok r n : (r <= n)%nat -> K r n = Ok (INR (binomial n r)).
Proof.
  intros H. unfold K.
  destruct (n <? r)%nat eqn:E; [apply Nat.ltb_lt in E; lia|].
  assert (N : INR (fact r * fact (n - r)) <> 0).
  { apply not_0_INR. intros Z. apply Nat.eq_mul_0 in Z.
    destruct Z as [Z|Z]; revert Z; apply fact_neq_0. }
  rewrite fdiv_Ok by exact N. f_equal.
  assert (F : INR (fact n) = INR (binomial n r) * INR (fact r * fact (n - r))).
  { rewrite <- mult_INR. f_equal. symmetry. apply binomial_fact. exact H. }
  rewrite F. field. exact N.
Qed.

Lemma K_not_zero_division r n : K r n <> Raise ZeroDivisionError.
Proof.
  destruct (le_lt_dec r n) as [H|H].
  - rewrite K_Ok by exact H. discriminate.
  - unfold K. apply Nat.ltb_lt in H. rewrite H. discriminate.
Qed.

Lemma map_nth_seq {A B} (f : A -> B) (d : A) : forall l,
  map (fun j => f (nth j l d)) (seq 0 (length l)) = map f l.
Proof.
  induction l as [|a l IH]; simpl; auto.
  f_equal. rewrite <- seq_shift, map_map. exact IH.
Qed.

Lemma matrix_entry_Ok n psis j i p :
  (i < n)%nat -> nth_error psis j = Some p ->
  matrix_entry n psis j i = Ok (bernstein n (i + 1) p).
Proof.
  intros Hi Hp. unfold matrix_entry.
  rewrite K_Ok by lia. simpl. rewrite (index_Ok _ _ _ Hp). reflexivity.
Qed.

Lemma matrix_row_Ok n psis j p :
  nth_error psis j = Some p ->
  matrix_row n psis j = Ok (map (fun i => bernstein n (i + 1) p) (seq 0 n)).
Proof.
  intros Hp. unfold matrix_row. apply mapM_Ok.
  intros i Hi. apply in_seq in Hi. apply matrix_entry_Ok; [lia|exact Hp].
Qed.

Lemma bernstein_matrix_Ok n psis :
  length psis = n -> bernstein_matrix n psis = Ok (spec_matrix n psis).
Proof.
  intros L. unfold bernstein_matrix, spec_matrix. subst n.
  rewrite <- (map_nth_seq (fun psi => map (fun i => bernstein (length psis) (i + 1) psi)
                                      (seq 0 (length psis))) 0 psis).
  apply mapM_Ok. intros j Hj. apply in_seq in Hj.
  apply matrix_row_Ok. apply nth_error_nth'. lia.
Qed.

Lemma matrix_row_out n psis j :
  (0 < n)%nat -> (length psis <= j)%nat ->
  matrix_row n psis j = Raise IndexError.
Proof.
  intros Hn Hj. unfold matrix_row. destruct n as [|n]; [lia|].
  simpl. unfold matrix_entry at 1. rewrite K_Ok by lia. simpl.
  unfold index. apply nth_error_None in Hj. rewrite Hj. reflexivity.
Qed.

Lemma mapM_app {A B} (f : A -> outcome B) l1 l2 :
  mapM f (l1 ++ l2) =
  (bs1 <- mapM f l1 ;; bs2 <- mapM f l2 ;; Ok (bs1 ++ bs2)).
Proof.
  induction l1 as [|a l1 IH]; simpl.
  - destruct (mapM f l2); reflexivity.
  - destruct (f a); simpl; auto. rewrite IH.
    destruct (mapM f l1); simpl; auto. destruct (mapM f l2); reflexivity.
Qed.

Lemma bernstein_matrix_short n psis :
  (length psis < n)%nat -> bernstein_matrix n psis = Raise IndexError.
Proof.
  intros L. unfold bernstein_matrix.
  replace n with (length psis + (n - length psis))%nat at 2 by lia.
  rewrite seq_app, mapM_app.
  rewrite (mapM_Ok _ (fun j => map (fun i => bernstein n (i + 1) (nth j psis 0)) (seq 0 n))).
  2:{ intros j Hj. apply in_seq in Hj. apply matrix_row_Ok.
      apply nth_error_nth'. lia. }
  simpl. destruct (n - length psis)%nat as [|k] eqn:E; [lia|].
  simpl. rewrite matrix_row_out by lia. reflexivity.
Qed.

Lemma mapM_avoids {A B} (f : A -> outcome B) e l :
  (forall a, In a l -> f a <> Raise e) -> mapM f l <> Raise e.
Proof.
  induction l as [|a l IH]; simpl; intros H; [discriminate|].
  destruct (f a) eqn:E; simpl.
  - destruct (mapM f l) eqn:E'; simpl; try discriminate.
    intros X. apply IH; [auto|]. inversion X. reflexivity.
  - intros X. inversion X; subst. apply (H a); auto.
  - discriminate.
Qed.

Lemma for_each_avoids {S} (body : S -> nat -> outcome S) e js :
  (forall s j, In j js -> body s j <> Raise e) ->
  forall s, for_each body s js <> Raise e.
Proof.
  induction js as [|j js IH]; simpl; intros H s; [discriminate|].
  destruct (body s j) eqn:E; simpl.
  - apply IH. intros s' j' Hj'. apply H. right. exact Hj'.
  - intros X. inversion X; subst. apply (H s j); [left; reflexivity | exact E].
  - discriminate.
Qed.

(** ** Loops *)



Lemma for_each_app {S} (body : S -> nat -> outcome S) js1 js2 : forall s,
  for_each body s (js1 ++ js2) =
  (s' <- for_each body s js1 ;; for_each body s' js2).
Proof.
  induction js1 as [|j js1 IH]; simpl; intros s; auto.
  destruct (body s j); simpl; auto.
Qed.

Lemma set_item_app l1 a l2 v :
  set_item (l1 ++ a :: l2) (length l1) v = Ok (l1 ++ v :: l2).
Proof. induction l1 as [|b l1 IH]; simpl; auto. rewrite IH. reflexivity. Qed.

Lemma firstn_S_nth {A} (l : list A) k a :
  nth_error l k = Some a -> firstn (S k) l = firstn k l ++ [a].
Proof.
  revert k. induction l as [|b l IH]; intros [|k] H; simpl in *; try discriminate.
  - inversion H. reflexivity.
  - f_equal. apply IH. exact H.
Qed.

Lemma repeat_S_app {A} (a : A) n : repeat a (S n) = a :: repeat a n.
Proof. reflexivity. Qed.

Section SolverFacts.
Context `{prim : CST_2D} `{la : Linalg}.
Variables (Au_C_1_to_n psi_spars Au_P Al_P : list R) (deltaz c_P : R).

Local Notation n := (order Au_C_1_to_n).
Local Notation AC_u0_of := (calculate_AC_u0 Au_C_1_to_n Au_P deltaz c_P).
Local Notation loop := (fixed_point_loop Au_C_1_to_n Au_P deltaz c_P).
Local Notation iter := (iterate Au_C_1_to_n Au_P deltaz c_P).
Local Notation succ := (successive Au_C_1_to_n Au_P deltaz c_P).
Local Notation lead := (leading_coefficients Au_C_1_to_n Au_P Al_P deltaz c_P).
Local Notation bstep := (backwards_step Au_C_1_to_n psi_spars Au_P Al_P deltaz c_P).
Local Notation t_of := (parent_spar_thickness Au_P Al_P deltaz c_P).
Local Notation b_of := (rhs_backwards Au_C_1_to_n Au_P Al_P deltaz c_P).
Local Notation solve := (calculate_dependent_shape_coefficients
                           Au_C_1_to_n psi_spars Au_P Al_P deltaz c_P).

(** *** The fixed-point loop *)

Lemma loop_continue fuel a e :
  e > 1e-9 ->
  loop (S fuel) a e = (a' <- AC_u0_of a ;; loop fuel a' (Rabs (a' - a))).
Proof. intros H. simpl. destruct (Rgt_dec e 1e-9); [reflexivity|contradiction]. Qed.

Lemma loop_stop fuel a e : ~ e > 1e-9 -> loop fuel a e = Ok a.
Proof.
  intros H. destruct fuel; simpl; destruct (Rgt_dec e 1e-9); auto; contradiction.
Qed.

Lemma loop_starved a e : e > 1e-9 -> loop 0 a e = OutOfFuel.
Proof. intros H. simpl. destruct (Rgt_dec e 1e-9); [reflexivity|contradiction]. Qed.

Lemma successive_0 a P :
  succ a 0%nat P <-> exists a', AC_u0_of a = Ok a' /\ P (Rabs (a' - a)).
Proof.
  unfold successive. simpl. split.
  - intros (v & v' & E & E' & HP). inversion E; subst.
    destruct (AC_u0_of v) eqn:F; simpl in E'; try discriminate.
    inversion E'; subst. eauto.
  - intros (a' & E & HP). exists a, a'. rewrite E. simpl. auto.
Qed.

Lemma successive_S a a' i P :
  AC_u0_of a = Ok a' -> (succ a (S i) P <-> succ a' i P).
Proof.
  intros E. unfold successive.
  change (iter (S (S i)) a) with (x <- AC_u0_of a ;; iter (S i) x).
  change (iter (S i) a) with (x <- AC_u0_of a ;; iter i x).
  rewrite E. simpl bind. reflexivity.
Qed.

(** The loop stops after exactly [k+1] turns when the values number [k] and
    [k+1] are the first successive pair at most [1e-9] apart. *)
Lemma loop_first_close : forall k a e v,
  e > 1e-9 ->
  iter (S k) a = Ok v ->
  succ a k (fun d => d <= 1e-9) ->
  (forall i, (i < k)%nat -> succ a i (fun d => d > 1e-9)) ->
  (forall fuel, (k < fuel)%nat -> loop fuel a e = Ok v) /\
  (forall fuel, (fuel <= k)%nat -> loop fuel a e = OutOfFuel).
Proof.
  induction k as [|k IH]; intros a e v He Hv Hclose Hfar.
  - apply successive_0 in Hclose as (a' & E & Hd).
    simpl in Hv. rewrite E in Hv. simpl in Hv. inversion Hv; subst. split.
    + intros [|fuel] Hf; [lia|]. rewrite loop_continue by exact He.
      rewrite E. simpl bind. apply loop_stop. lra.
    + intros fuel Hf. assert (fuel = 0)%nat by lia. subst.
      apply loop_starved. exact He.
  - destruct (Hfar 0%nat ltac:(lia)) as (x & x' & E0 & E1 & Hd).
    simpl in E0. inversion E0; subst x. clear E0.
    assert (E : AC_u0_of a = Ok x').
    { simpl in E1. destruct (AC_u0_of a); simpl in E1; try discriminate.
      exact E1. }
    clear E1.
    change (iter (S (S k)) a) with (y <- AC_u0_of a ;; iter (S k) y) in Hv.
    rewrite E in Hv. simpl bind in Hv.
    apply (successive_S a x' k _ E) in Hclose.
    destruct (IH x' (Rabs (x' - a)) v Hd Hv Hclose) as [I1 I2].
    { intros i Hi. apply (successive_S a x' i _ E). apply Hfar. lia. }
    split.
    + intros [|fuel] Hf; [lia|]. rewrite loop_continue by exact He.
      rewrite E. simpl bind. apply I1. lia.
    + intros [|fuel] Hf; [apply loop_starved; exact He|].
      rewrite loop_continue by exact He. rewrite E. simpl bind. apply I2. lia.
Qed.

(** With every successive pair more than [1e-9] apart the loop never ends. *)
Lemma loop_never_close : forall fuel a e,
  e > 1e-9 ->
  (forall i, succ a i (fun d => d > 1e-9)) ->
  loop fuel a e = OutOfFuel.
Proof.
  induction fuel as [|fuel IH]; intros a e He Hfar.
  - apply loop_starved. exact He.
  - rewrite loop_continue by exact He.
    destruct (proj1 (successive_0 a _) (Hfar 0%nat)) as (a' & E & Hd).
    rewrite E. simpl bind. apply IH; [exact Hd|].
    intros i. apply (successive_S a a' i _ E). apply Hfar.
Qed.

(** Whatever the loop returns was reached by a close pair. *)
Lemma loop_Ok_inv : forall fuel a e v,
  e > 1e-9 -> loop fuel a e = Ok v ->
  exists k, (k < fuel)%nat /\ iter (S k) a = Ok v /\
    succ a k (fun d => d <= 1e-9) /\
    (forall i, (i < k)%nat -> succ a i (fun d => d > 1e-9)).
Proof.
  induction fuel as [|fuel IH]; intros a e v He H.
  - rewrite loop_starved in H by exact He. discriminate.
  - rewrite loop_continue in H by exact He.
    apply bind_Ok in H as (a' & E & H).
    destruct (Rgt_dec (Rabs (a' - a)) 1e-9) as [Hd|Hd].
    + destruct (IH a' _ v Hd H) as (k & Hk & Ek & Hc & Hf).
      exists (S k). split; [lia|]. split.
      { change (iter (S (S k)) a) with (y <- AC_u0_of a ;; iter (S k) y).
        rewrite E. exact Ek. }
      split; [apply (successive_S a a' k _ E); exact Hc|].
      intros [|i] Hi.
      * apply successive_0. eauto.
      * apply (successive_S a a' i _ E). apply Hf. lia.
    + rewrite loop_stop in H by exact Hd. inversion H; subst.
      exists 0%nat. split; [lia|]. split; [simpl; rewrite E; reflexivity|].
      split; [apply successive_0; exists v; split; [exact E|lra]|].
      intros i Hi. lia.
Qed.

End SolverFacts.

(** ** The leading stage and the assembly loop of the backwards branch *)

Lemma interior_divisor psi : 0 < psi < 1 -> sqrt psi * (1 - psi) <> 0.
Proof.
  intros [H0 H1]. assert (0 < sqrt psi) by (apply sqrt_lt_R0; exact H0).
  apply Rgt_not_eq. apply Rmult_lt_0_compat; lra.
Qed.

Lemma set_item_at l1 a l2 j v :
  length l1 = j -> set_item (l1 ++ a :: l2) j v = Ok (l1 ++ v :: l2).
Proof. intros <-. apply set_item_app. Qed.

Section BackwardsFacts.
Context `{prim : CST_2D} `{la : Linalg}.
Variables (Au_C_1_to_n psi_spars Au_P Al_P : list R) (deltaz c_P : R).

Local Notation n := (order Au_C_1_to_n).
Local Notation loop := (fixed_point_loop Au_C_1_to_n Au_P deltaz c_P).
Local Notation lead := (leading_coefficients Au_C_1_to_n Au_P Al_P deltaz c_P).
Local Notation bstep := (backwards_step Au_C_1_to_n psi_spars Au_P Al_P deltaz c_P).
Local Notation t_of := (parent_spar_thickness Au_P Al_P deltaz c_P).
Local Notation b_of := (rhs_backwards Au_C_1_to_n Au_P Al_P deltaz c_P).

Lemma leading_Ok_inv fuel st :
  lead fuel = Ok st ->
  exists a0 l0,
    nth_error Au_P 0 = Some a0 /\ nth_error Al_P 0 = Some l0 /\
    loop fuel a0 9999 = Ok (st_AC_u0 st) /\
    st_Au_C st = st_AC_u0 st :: Au_C_1_to_n /\
    st_c_C st = calculate_c_baseline c_P (st_Au_C st) Au_P deltaz /\
    st_c_C st <> 0 /\ 0 <= c_P / st_c_C st /\
    st_AC_l0 st = sqrt (c_P / st_c_C st) * l0.
Proof.
  unfold leading_coefficients. intros H.
  apply bind_Ok in H as (a0 & Ea & H). apply index_inv in Ea.
  apply bind_Ok in H as (v & Ev & H).
  apply bind_Ok in H as (q & Eq & H). apply fdiv_inv in Eq as [Hc ->].
  apply bind_Ok in H as (s & Es & H). apply fsqrt_inv in Es as [Hq ->].
  apply bind_Ok in H as (l0 & El & H). apply index_inv in El.
  inversion H; subst; simpl. exists a0, l0. repeat split; auto.
Qed.

Lemma bstep_eval st ts bl j psi :
  nth_error psi_spars j = Some psi ->
  st_c_C st <> 0 -> 0 <= psi -> sqrt psi * (1 - psi) <> 0 ->
  bstep st (ts, bl) j =
  (bl' <- set_item bl j (b_of st psi) ;; Ok (ts ++ [t_of st psi], bl')).
Proof.
  intros Hj Hc H0 Hd. unfold backwards_step.
  rewrite (index_Ok _ _ _ Hj). simpl bind.
  rewrite !fdiv_Ok by exact Hc. simpl bind.
  rewrite fsqrt_Ok by exact H0. simpl bind.
  rewrite fdiv_Ok by exact Hd. simpl bind. reflexivity.
Qed.

Lemma bstep_Ok_inv st ts bl j acc :
  bstep st (ts, bl) j = Ok acc ->
  exists psi, nth_error psi_spars j = Some psi /\
    st_c_C st <> 0 /\ 0 <= psi /\ sqrt psi * (1 - psi) <> 0.
Proof.
  unfold backwards_step. intros H.
  apply bind_Ok in H as (psi & Ep & H). apply index_inv in Ep.
  apply bind_Ok in H as (x1 & E1 & H). apply fdiv_inv in E1 as [Hc _].
  apply bind_Ok in H as (x2 & E2 & H).
  apply bind_Ok in H as (h & Eh & H). apply fsqrt_inv in Eh as [H0 ->].
  apply bind_Ok in H as (x3 & E3 & H). apply fdiv_inv in E3 as [Hd _].
  exists psi. auto.
Qed.

Lemma set_item_not_zd l0 i v : set_item l0 i v <> Raise ZeroDivisionError.
Proof.
  revert i. induction l0 as [|a l0 IH]; intros [|i]; simpl; try discriminate.
  specialize (IH i). destruct (set_item l0 i v); simpl; congruence.
Qed.

Lemma bstep_no_zero_division st acc j :
  st_c_C st <> 0 ->
  (forall psi, nth_error psi_spars j = Some psi -> 0 < psi < 1) ->
  bstep st acc j <> Raise ZeroDivisionError.
Proof.
  intros Hc Hin. destruct acc as [ts bl].
  destruct (nth_error psi_spars j) as [psi|] eqn:E.
  - rewrite (bstep_eval st ts bl j psi E Hc).
    + pose proof (set_item_not_zd bl j (b_of st psi)) as S.
      destruct (set_item bl j (b_of st psi)); simpl; congruence.
    + specialize (Hin psi eq_refl). lra.
    + apply interior_divisor. auto.
  - unfold backwards_step, index. rewrite E. simpl. discriminate.
Qed.

(** The assembly loop of the backwards branch after [k] turns. *)
Lemma backwards_loop_prefix st : forall k,
  (k <= length psi_spars)%nat -> (k <= n)%nat ->
  st_c_C st <> 0 ->
  Forall (fun psi => 0 <= psi /\ sqrt psi * (1 - psi) <> 0)
    (firstn k psi_spars) ->
  for_each (bstep st) ([], zeros n) (seq 0 k) =
  Ok (map (t_of st) (firstn k psi_spars),
      map (b_of st) (firstn k psi_spars) ++ zeros (n - k)).
Proof.
  induction k as [|k IH]; intros Hk Hn Hc Hg.
  - simpl. rewrite Nat.sub_0_r. reflexivity.
  - destruct (nth_error psi_spars k) as [psi|] eqn:E.
    2:{ apply nth_error_None in E. lia. }
    rewrite (firstn_S_nth _ _ _ E) in *.
    apply Forall_app in Hg as [Hg1 Hg2]. inversion Hg2 as [|? ? [H0 Hd] _]; subst.
    rewrite seq_S, for_each_app. simpl Nat.add.
    rewrite IH by (auto; lia). cbn [bind for_each].
    rewrite (bstep_eval st _ _ k psi E Hc H0 Hd).
    replace (n - k)%nat with (S (n - S k)) by lia.
    unfold zeros at 1. rewrite repeat_S_app.
    assert (L : length (map (b_of st) (firstn k psi_spars)) = k).
    { rewrite length_map, length_firstn. lia. }
    rewrite (set_item_at _ _ _ k _ L). cbn [bind].
    rewrite !map_app. simpl map. rewrite <- app_assoc. reflexivity.
Qed.

Lemma backwards_loop_prefix_inv st : forall k acc,
  (k <= length psi_spars)%nat ->
  for_each (bstep st) ([], zeros n) (seq 0 k) = Ok acc ->
  (k <= n)%nat /\ ((0 < k)%nat -> st_c_C st <> 0) /\
  Forall (fun psi => 0 <= psi /\ sqrt psi * (1 - psi) <> 0)
    (firstn k psi_spars) /\
  acc = (map (t_of st) (firstn k psi_spars),
         map (b_of st) (firstn k psi_spars) ++ zeros (n - k)).
Proof.
  induction k as [|k IH]; intros acc Hk H.
  - simpl in H. inversion H. rewrite Nat.sub_0_r. simpl.
    repeat split; auto; lia.
  - rewrite seq_S, for_each_app in H. simpl Nat.add in H.
    apply bind_Ok in H as (acc1 & E1 & H). cbn [for_each] in H.
    apply bind_Ok in H as (acc2 & H & E2). inversion E2; subst acc2; clear E2.
    destruct (IH acc1 ltac:(lia) E1) as (Hn & _ & Hg & ->).
    pose proof (bstep_Ok_inv _ _ _ _ _ H) as (psi & E & Hc & H0 & Hd).
    rewrite (bstep_eval st _ _ k psi E Hc H0 Hd) in H.
    apply bind_Ok in H as (bl' & Es & H).
    assert (k < n)%nat.
    { destruct (le_lt_dec n k) as [G|G]; [|exact G].
      rewrite set_item_out in Es; [discriminate|].
      rewrite length_app, length_map, length_firstn. unfold zeros.
      rewrite repeat_length. lia. }
    assert (Hg' : Forall (fun psi => 0 <= psi /\ sqrt psi * (1 - psi) <> 0)
                    (firstn (S k) psi_spars)).
    { rewrite (firstn_S_nth _ _ _ E). apply Forall_app. split; auto. }
    split; [lia|]. split; [auto|]. split; [exact Hg'|].
    assert (F : for_each (bstep st) ([], zeros n) (seq 0 (S k)) = Ok acc).
    { rewrite seq_S, for_each_app. simpl Nat.add. rewrite E1.
      cbn [bind for_each].
      rewrite (bstep_eval st _ _ k psi E Hc H0 Hd). rewrite Es.
      cbn [bind]. rewrite H. reflexivity. }
    rewrite (backwards_loop_prefix st (S k)) in F by (auto; lia).
    inversion F. reflexivity.
Qed.

End BackwardsFacts.

(** ** The backwards branch *)

Lemma pairwise_difference_nth : forall a b,
  (length a <= length b)%nat ->
  map (fun i => nth i a 0 - nth i b 0) (seq 0 (length a)) =
  pairwise_difference a b.
Proof.
  unfold pairwise_difference.
  induction a as [|x a IH]; intros [|y b] H; simpl in *; try lia; auto.
  f_equal. rewrite <- seq_shift, map_map. apply IH. lia.
Qed.

Lemma pairwise_difference_length a b :
  (length a <= length b)%nat -> length (pairwise_difference a b) = length a.
Proof.
  intros H. unfold pairwise_difference. rewrite length_map, length_combine. lia.
Qed.

Lemma subtract_upper_Ok (A_bar U : list R) (u0 : R) :
  (length A_bar <= length U)%nat ->
  mapM (fun i => a <- index A_bar i ;; c <- index (u0 :: U) (i + 1) ;;
                 Ok (a - c)) (seq 0 (length A_bar)) =
  Ok (pairwise_difference A_bar U).
Proof.
  intros H. rewrite <- pairwise_difference_nth by exact H.
  apply mapM_Ok. intros i Hi. apply in_seq in Hi.
  rewrite (index_Ok A_bar i (nth i A_bar 0)) by (apply nth_error_nth'; lia).
  cbn [bind]. replace (i + 1)%nat with (S i) by lia.
  rewrite (index_Ok (u0 :: U) (S i) (nth i U 0))
    by (simpl; apply nth_error_nth'; lia).
  reflexivity.
Qed.

Lemma Forall2_In_left {A B} (P : A -> B -> Prop) l bs a :
  Forall2 P l bs -> In a l -> exists b, P a b.
Proof.
  induction 1 as [|x y l bs Hxy _ IH]; intros Hin; [destruct Hin|].
  destruct Hin as [->|Hin]; eauto.
Qed.

Lemma subtract_upper_Ok_inv (A_bar U : list R) (u0 : R) rest :
  mapM (fun i => a <- index A_bar i ;; c <- index (u0 :: U) (i + 1) ;;
                 Ok (a - c)) (seq 0 (length A_bar)) = Ok rest ->
  (length A_bar <= length U)%nat.
Proof.
  intros H. destruct (length A_bar) as [|k] eqn:L; [lia|].
  apply mapM_Ok_inv in H.
  assert (In k (seq 0 (S k))) by (apply in_seq; lia).
  destruct (Forall2_In_left _ _ _ _ H H0) as (b & Hb). clear H. rename Hb into H.
  apply bind_Ok in H as (a & _ & H). apply bind_Ok in H as (c & Ec & _).
  apply index_inv in Ec. replace (k + 1)%nat with (S k) in Ec by lia.
  simpl in Ec. assert (k < length U)%nat; [|lia].
  apply nth_error_Some. congruence.
Qed.

Lemma spec_matrix_length n psis : length (spec_matrix n psis) = length psis.
Proof. unfold spec_matrix. apply length_map. Qed.

Lemma spec_matrix_entry n psis j i :
  (j < length psis)%nat -> (i < n)%nat ->
  nth i (nth j (spec_matrix n psis) []) 0 =
  INR (binomial n (i + 1)) * nth j psis 0 ^ (i + 1)
  * (1 - nth j psis 0) ^ (n - (i + 1)).
Proof.
  intros Hj Hi. unfold spec_matrix.
  rewrite (nth_indep _ [] (map (fun i0 => bernstein n (i0 + 1) 0) (seq 0 n)))
    by (rewrite length_map; exact Hj).
  rewrite (map_nth (fun psi => map (fun i0 => bernstein n (i0 + 1) psi) (seq 0 n)) psis 0 j).
  rewrite (nth_indep _ 0 (bernstein n (0 + 1) (nth j psis 0)))
    by (rewrite length_map, length_seq; exact Hi).
  rewrite (map_nth (fun i0 => bernstein n (i0 + 1) (nth j psis 0)) (seq 0 n) 0%nat i).
  rewrite seq_nth by exact Hi. reflexivity.
Qed.

Section BackwardsBranch.
Context `{prim : CST_2D} `{la : Linalg}.
Variables (Au_C_1_to_n psi_spars Au_P Al_P : list R) (deltaz c_P : R).

Local Notation n := (order Au_C_1_to_n).
Local Notation loop := (fixed_point_loop Au_C_1_to_n Au_P deltaz c_P).
Local Notation lead := (leading_coefficients Au_C_1_to_n Au_P Al_P deltaz c_P).
Local Notation bstep := (backwards_step Au_C_1_to_n psi_spars Au_P Al_P deltaz c_P).
Local Notation back := (backwards Au_C_1_to_n psi_spars Au_P Al_P deltaz c_P).
Local Notation t_of := (parent_spar_thickness Au_P Al_P deltaz c_P).
Local Notation b_of := (rhs_backwards Au_C_1_to_n Au_P Al_P deltaz c_P).
Local Notation solve := (calculate_dependent_shape_coefficients
                           Au_C_1_to_n psi_spars Au_P Al_P deltaz c_P).

Lemma solve_backwards fuel :
  solve fuel "backwards"%string = (st <- lead fuel ;; back st).
Proof. reflexivity. Qed.

Lemma backwards_Ok st B' :
  st_Au_C st = st_AC_u0 st :: Au_C_1_to_n ->
  length psi_spars = n -> st_c_C st <> 0 ->
  Forall (fun psi => 0 <= psi /\ sqrt psi * (1 - psi) <> 0) psi_spars ->
  inv (spec_matrix n psi_spars) = Some B' -> (length B' <= n)%nat ->
  back st =
  Ok (st_Au_C st,
      st_AC_l0 st
      :: pairwise_difference (mat_vec B' (map (b_of st) psi_spars)) Au_C_1_to_n,
      st_c_C st, map (t_of st) psi_spars).
Proof.
  intros HA HL Hc Hg Hinv HB. unfold backwards.
  rewrite (backwards_loop_prefix Au_C_1_to_n psi_spars Au_P Al_P deltaz c_P st
             (length psi_spars));
    [| lia | lia | exact Hc | rewrite firstn_all; exact Hg].
  cbn [bind]. rewrite firstn_all, HL, Nat.sub_diag. simpl zeros.
  rewrite app_nil_r. rewrite bernstein_matrix_Ok by exact HL. cbn [bind].
  unfold inv_or_raise. rewrite Hinv. cbn [bind].
  rewrite HA. rewrite subtract_upper_Ok.
  - reflexivity.
  - unfold mat_vec. rewrite length_map. exact HB.
Qed.

Lemma backwards_Ok_inv st r :
  st_Au_C st = st_AC_u0 st :: Au_C_1_to_n ->
  back st = Ok r ->
  length psi_spars = n /\ ((0 < n)%nat -> st_c_C st <> 0) /\
  Forall (fun psi => 0 <= psi /\ sqrt psi * (1 - psi) <> 0) psi_spars /\
  exists B', inv (spec_matrix n psi_spars) = Some B' /\
    (length B' <= n)%nat /\
    r = (st_Au_C st,
         st_AC_l0 st
         :: pairwise_difference (mat_vec B' (map (b_of st) psi_spars))
              Au_C_1_to_n,
         st_c_C st, map (t_of st) psi_spars).
Proof.
  intros HA H. unfold backwards in H.
  apply bind_Ok in H as (acc & Eloop & H).
  apply (backwards_loop_prefix_inv Au_C_1_to_n psi_spars Au_P Al_P deltaz c_P)
    in Eloop as (Hle & Hc & Hg & ->); [|lia].
  rewrite firstn_all in *.
  apply bind_Ok in H as (B & EB & H).
  assert (HL : length psi_spars = n).
  { destruct (le_lt_dec n (length psi_spars)) as [G|G]; [lia|].
    rewrite bernstein_matrix_short in EB by exact G. discriminate. }
  rewrite bernstein_matrix_Ok in EB by exact HL. inversion EB; subst B.
  apply bind_Ok in H as (B' & EI & H). unfold inv_or_raise in EI.
  destruct (inv (spec_matrix n psi_spars)) as [B0|] eqn:Hinv; [|discriminate].
  inversion EI; subst B0.
  rewrite HL, Nat.sub_diag in H. simpl zeros in H. rewrite app_nil_r in H.
  apply bind_Ok in H as (rest & Erest & H). rewrite HA in Erest.
  pose proof (subtract_upper_Ok_inv _ _ _ _ Erest) as HB.
  rewrite subtract_upper_Ok in Erest by exact HB. inversion Erest; subst rest.
  unfold mat_vec in HB. rewrite length_map in HB.
  split; [exact HL|]. split; [rewrite <- HL; exact Hc|]. split; [exact Hg|].
  exists B'. split; [reflexivity|]. split; [exact HB|].
  inversion H. rewrite HA. reflexivity.
Qed.

End BackwardsBranch.

(** ** The forwards branch *)

Lemma set_item_Ok_inv l0 : forall i v l',
  set_item l0 i v = Ok l' -> (i < length l0)%nat /\ length l' = length l0.
Proof.
  induction l0 as [|a l0 IH]; intros [|i] v l' H; simpl in *; try discriminate.
  - inversion H. simpl. split; [lia|reflexivity].
  - apply bind_Ok in H as (r & E & H). inversion H. simpl.
    apply IH in E as [E1 E2]. split; [lia|congruence].
Qed.

Lemma mapM_index_all {A} (l0 : list A) :
  mapM (fun i => index l0 i) (seq 0 (length l0)) = Ok l0.
Proof.
  destruct l0 as [|d l0]; [reflexivity|].
  set (l1 := d :: l0).
  transitivity (Ok (map (fun j => nth j l1 d) (seq 0 (length l1)))).
  - apply mapM_Ok. intros i Hi. apply in_seq in Hi.
    apply index_Ok. apply nth_error_nth'. lia.
  - f_equal. rewrite (map_nth_seq (fun a => a) d l1). apply map_id.
Qed.

Lemma bernstein_matrix_length n psis B :
  bernstein_matrix n psis = Ok B -> length B = n.
Proof.
  intros H. apply mapM_length in H. rewrite length_seq in H. exact H.
Qed.

Section ForwardsBranch.
Context `{prim : CST_2D} `{la : Linalg}.
Variables (Au_C_1_to_n psi_spars Au_P Al_P : list R) (deltaz c_P : R).

Local Notation n := (order Au_C_1_to_n).
Local Notation fstep := (forwards_step Au_C_1_to_n psi_spars Au_P Al_P deltaz c_P).
Local Notation forw := (forwards Au_C_1_to_n psi_spars Au_P Al_P deltaz c_P).
Local Notation thick := (forwards_spar_thickness psi_spars Au_P Al_P deltaz c_P).

Lemma fstep_Ok_inv st c pus xus ts pl f j ts' pl' f' :
  fstep st c pus xus (ts, pl, f) j = Ok (ts', pl', f') ->
  c_P <> 0 /\ ts' = ts ++ [thick j] /\ length pl' = S (length pl) /\
  (j < length f)%nat /\ length f' = length f.
Proof.
  unfold forwards_step. intros H.
  apply bind_Ok in H as (h1 & E1 & H). apply fdiv_inv in E1 as [HcP ->].
  apply bind_Ok in H as (xu & Exu & H). apply index_inv in Exu.
  apply bind_Ok in H as (xl & Exl & H). apply index_inv in Exl.
  apply bind_Ok in H as (p & _ & H).
  apply bind_Ok in H as (pu & _ & H).
  apply bind_Ok in H as (d & _ & H).
  apply bind_Ok in H as (xu' & _ & H).
  apply bind_Ok in H as (x1 & _ & H).
  apply bind_Ok in H as (h & _ & H).
  apply bind_Ok in H as (x2 & _ & H).
  apply bind_Ok in H as (f1 & Ef & H).
  apply set_item_Ok_inv in Ef as [Hj Hf].
  inversion H; subst. split; [exact HcP|]. split.
  - unfold forwards_spar_thickness, xi_parent.
    rewrite (nth_error_nth _ _ 0 Exu), (nth_error_nth _ _ 0 Exl). reflexivity.
  - rewrite length_app. simpl. split; [lia|]. split; [exact Hj|exact Hf].
Qed.

Lemma forwards_loop_inv st c pus xus : forall k ts pl f,
  for_each (fstep st c pus xus) ([], [], zeros n) (seq 0 k) = Ok (ts, pl, f) ->
  (k <= n)%nat /\ ts = map thick (seq 0 k) /\ length pl = k /\ length f = n.
Proof.
  induction k as [|k IH]; intros ts pl f H.
  - simpl in H. inversion H. unfold zeros. rewrite repeat_length.
    repeat split; auto; lia.
  - rewrite seq_S, for_each_app in H. simpl Nat.add in H.
    apply bind_Ok in H as ([[ts1 pl1] f1] & E1 & H). cbn [for_each] in H.
    apply bind_Ok in H as ([[ts2 pl2] f2] & H & E2). inversion E2; subst.
    apply IH in E1 as (Hk & -> & Hpl & Hf).
    apply fstep_Ok_inv in H as (_ & -> & Hpl' & Hj & Hf').
    rewrite seq_S, map_app. simpl. repeat split; auto; lia.
Qed.

Lemma forwards_Ok_inv st Au Al c ts :
  forw st = Ok (Au, Al, c, ts) ->
  length psi_spars = n /\ Au = st_Au_C st /\
  c = calculate_c_baseline c_P (st_Au_C st) Au_P deltaz /\
  ts = map thick (seq 0 n) /\
  ((0 < n)%nat -> c_P <> 0) /\
  exists F F' f, length F = n /\ inv F = Some F' /\
    Al = st_AC_l0 st :: mat_vec F' f.
Proof.
  unfold forwards. intros H.
  apply bind_Ok in H as (pus & _ & H).
  apply bind_Ok in H as (g & _ & H).
  apply bind_Ok in H as ([[ts1 pl1] f1] & Eloop & H).
  pose proof Eloop as Eloop'.
  apply forwards_loop_inv in Eloop as (Hle & -> & Hpl & Hf).
  apply bind_Ok in H as (F & EF & H).
  assert (HL : length psi_spars = n).
  { destruct (le_lt_dec n (length psi_spars)) as [G|G]; [lia|].
    rewrite bernstein_matrix_short in EF by lia. discriminate. }
  apply bind_Ok in H as (F' & EI & H). unfold inv_or_raise in EI.
  destruct (inv F) as [F0|] eqn:Hinv; [|discriminate]. inversion EI; subst F0.
  rewrite mapM_index_all in H. cbn [bind] in H. inversion H; subst.
  split; [exact HL|]. split; [reflexivity|]. split; [reflexivity|].
  split; [rewrite HL; reflexivity|]. split.
  - intros Hn. destruct (length psi_spars) as [|k] eqn:Ek; [lia|].
    rewrite seq_S, for_each_app in Eloop'.
    apply bind_Ok in Eloop' as ([[ts1 pl2] f2] & _ & E). cbn [for_each] in E.
    apply bind_Ok in E as ([[ts3 pl3] f3] & E & _).
    apply fstep_Ok_inv in E as (HcP & _). exact HcP.
  - exists F, F', f1. split; [eapply bernstein_matrix_length; eauto|].
    split; [exact Hinv|reflexivity].
Qed.

End ForwardsBranch.

(** ** Inverses by cofactors; a leading stage that settles at once *)

(** *** The cofactor inverse *)

Lemma cofactor_inv_Some M :
  det M <> 0 ->
  exists M', cofactor_inv M = Some M' /\ length M' = length M.
Proof.
  intros H. unfold cofactor_inv. destruct (Req_dec_T (det M) 0); [contradiction|].
  eexists. split; [reflexivity|]. rewrite length_map, length_seq. reflexivity.
Qed.

Lemma cofactor_inv_None M : det M = 0 -> cofactor_inv M = None.
Proof.
  intros H. unfold cofactor_inv. destruct (Req_dec_T (det M) 0); [reflexivity|contradiction].
Qed.

Lemma cofactor_inv_length M M' :
  cofactor_inv M = Some M' -> length M' = length M.
Proof.
  unfold cofactor_inv. destruct (Req_dec_T (det M) 0); intros H; inversion H.
  rewrite length_map, length_seq. reflexivity.
Qed.

Lemma cofactor_inv_1 a :
  a <> 0 -> cofactor_inv [[a]] = Some [[/ a]].
Proof.
  intros H. unfold cofactor_inv, det. simpl.
  destruct (Req_dec_T _ 0) as [E|E]; [exfalso; lra|].
  do 3 f_equal. field. exact H.
Qed.

Lemma inverse_of_1 a : a <> 0 -> inverse_of [[a]] [[/ a]].
Proof.
  intros H. split; [reflexivity|].
  split; intros [|v [|w vs]] L; simpl in L; try discriminate; simpl;
    f_equal; field; exact H.
Qed.

(** *** The leading stage when the baseline chord is the parent chord *)

Section Settled.
Context `{prim : CST_2D}.
Variables (Au_C_1_to_n Au_P Al_P : list R) (deltaz c_P : R).

Lemma ratio_self : c_P <> 0 -> c_P / c_P = 1.
Proof. intros H. field. exact H. Qed.

Lemma sqrt_ratio_self : c_P <> 0 -> sqrt (c_P / c_P) = 1.
Proof. intros H. rewrite ratio_self by exact H. apply sqrt_1. Qed.

Lemma leading_settled fuel a0 l0 :
  nth_error Au_P 0 = Some a0 -> nth_error Al_P 0 = Some l0 ->
  c_P <> 0 ->
  calculate_c_baseline c_P (a0 :: Au_C_1_to_n) Au_P deltaz = c_P ->
  leading_coefficients Au_C_1_to_n Au_P Al_P deltaz c_P (S fuel) =
  Ok {| st_AC_u0 := a0; st_Au_C := a0 :: Au_C_1_to_n; st_c_C := c_P;
        st_AC_l0 := l0 |}.
Proof.
  intros Ha Hl Hc Hb.
  assert (Ef : calculate_AC_u0 Au_C_1_to_n Au_P deltaz c_P a0 = Ok a0).
  { unfold calculate_AC_u0. rewrite Hb. rewrite fdiv_Ok by exact Hc.
    cbn [bind]. rewrite fsqrt_Ok by (rewrite ratio_self by exact Hc; lra).
    cbn [bind]. rewrite (index_Ok _ _ _ Ha). cbn [bind].
    rewrite sqrt_ratio_self by exact Hc. f_equal. ring. }
  assert (El : fixed_point_loop Au_C_1_to_n Au_P deltaz c_P (S fuel) a0 9999
               = Ok a0).
  { rewrite loop_continue by lra. rewrite Ef. cbn [bind].
    apply loop_stop. replace (a0 - a0) with 0 by ring. rewrite Rabs_R0. lra. }
  unfold leading_coefficients. rewrite (index_Ok _ _ _ Ha). cbn [bind].
  rewrite El. cbn [bind]. rewrite Hb. rewrite fdiv_Ok by exact Hc. cbn [bind].
  rewrite fsqrt_Ok by (rewrite ratio_self by exact Hc; lra).
  cbn [bind]. rewrite (index_Ok _ _ _ Hl). cbn [bind].
  rewrite sqrt_ratio_self by exact Hc. do 2 f_equal. ring.
Qed.

End Settled.

(** ** The fixed-point iteration (C3) *)

Section FixedPoint.
Context `{prim : CST_2D} `{la : Linalg}.
Variables (Au_C_1_to_n psi_spars Au_P Al_P : list R) (deltaz c_P : R).

Local Notation loop := (fixed_point_loop Au_C_1_to_n Au_P deltaz c_P).
Local Notation iter := (iterate Au_C_1_to_n Au_P deltaz c_P).
Local Notation succ := (successive Au_C_1_to_n Au_P deltaz c_P).
Local Notation lead := (leading_coefficients Au_C_1_to_n Au_P Al_P deltaz c_P).
Local Notation solve := (calculate_dependent_shape_coefficients
                           Au_C_1_to_n psi_spars Au_P Al_P deltaz c_P).

Lemma solve_starved fuel morphing :
  lead fuel = OutOfFuel -> solve fuel morphing = OutOfFuel.
Proof.
  intros H. unfold calculate_dependent_shape_coefficients. rewrite H. reflexivity.
Qed.

Lemma leading_starved fuel a0 :
  nth_error Au_P 0 = Some a0 -> loop fuel a0 9999 = OutOfFuel ->
  lead fuel = OutOfFuel.
Proof.
  intros Ha H. unfold leading_coefficients. rewrite (index_Ok _ _ _ Ha).
  cbn [bind]. rewrite H. reflexivity.
Qed.

(** C3, as the code has it.  The loop returns [v] exactly when [v] is the
    value number [k+1] of the iteration, [k+1] turns fit in the allowed
    number, and the values number [k] and [k+1] are the first successive pair
    at most [1e-9] apart (at most, not less than).  There is no bound on the
    number of turns: when every successive pair is more than [1e-9] apart the
    call is still in its loop after any number of turns, and neither returns
    nor reports anything. *)
Theorem fixed_point_stops_at_first_close_pair (a0 : R)
  (Ha : nth_error Au_P 0 = Some a0) :
  (forall fuel v,
      fixed_point_loop Au_C_1_to_n Au_P deltaz c_P fuel a0 9999 = Ok v <->
      exists k, (k < fuel)%nat /\
        iterate Au_C_1_to_n Au_P deltaz c_P (S k) a0 = Ok v /\
        successive Au_C_1_to_n Au_P deltaz c_P a0 k (fun d => d <= 1e-9) /\
        (forall i, (i < k)%nat ->
           successive Au_C_1_to_n Au_P deltaz c_P a0 i (fun d => d > 1e-9))) /\
  ((forall i,
       successive Au_C_1_to_n Au_P deltaz c_P a0 i (fun d => d > 1e-9)) ->
   forall fuel morphing,
     calculate_dependent_shape_coefficients
       Au_C_1_to_n psi_spars Au_P Al_P deltaz c_P fuel morphing = OutOfFuel).
Proof.
  split.
  - intros fuel v. split.
    + apply loop_Ok_inv. lra.
    + intros (k & Hk & Ev & Hc & Hf).
      destruct (loop_first_close Au_C_1_to_n Au_P deltaz c_P k a0 9999 v)
        as [H _]; auto. lra.
  - intros Hfar fuel morphing. apply solve_starved.
    apply (leading_starved fuel a0 Ha). apply loop_never_close; [lra|exact Hfar].
Qed.

End FixedPoint.

(** One turn settles the iteration when the baseline chord is the parent
    chord. *)
Lemma fixed_point_stops_at_first_close_pair_witness :
  fixed_point_loop (prim := rigid) [1] [1; 1] 0 1 1 1 9999 = Ok 1.
Proof.
  apply (fixed_point_stops_at_first_close_pair (prim := rigid) (la := exact_linalg)
           [1] [] [1; 1] [1; 1] 0 1 1 eq_refl).
  assert (E : calculate_AC_u0 (prim := rigid) [1] [1; 1] 0 1 1 = Ok 1).
  { unfold calculate_AC_u0. simpl calculate_c_baseline.
    rewrite fdiv_Ok by lra. cbn [bind]. rewrite fsqrt_Ok by lra. cbn.
    replace (1 / 1) with 1 by lra. rewrite sqrt_1. f_equal. lra. }
  exists 0%nat. split; [lia|]. split; [simpl; rewrite E; reflexivity|].
  split; [|intros i Hi; lia].
  exists 1, 1. split; [reflexivity|]. split; [simpl; rewrite E; reflexivity|].
  replace (1 - 1) with 0 by lra. rewrite Rabs_R0. lra.
Defined.

Lemma sqrt_4 : sqrt 4 = 2.
Proof. replace 4 with (2 * 2) by lra. apply sqrt_square. lra. Qed.

Lemma quarter_AC_u0 U a0 rest c x :
  c <> 0 ->
  calculate_AC_u0 (prim := quarter) U (a0 :: rest) 0 c x = Ok (2 * a0).
Proof.
  intros Hc. unfold calculate_AC_u0. simpl calculate_c_baseline.
  assert (Q : c / (c / 4) = 4) by (field; exact Hc).
  rewrite fdiv_Ok by lra. cbn [bind]. rewrite Q.
  rewrite fsqrt_Ok by lra. cbn. rewrite sqrt_4. reflexivity.
Qed.

Lemma restless_AC_u0_1 U rest :
  calculate_AC_u0 (prim := restless) U (1 :: rest) 0 1 1 = Ok 2.
Proof.
  unfold calculate_AC_u0. simpl calculate_c_baseline.
  destruct (Req_dec_T 1 1) as [_|N]; [|contradiction].
  rewrite fdiv_Ok by lra. cbn [bind].
  replace (1 / (1 / 4)) with 4 by lra.
  rewrite fsqrt_Ok by lra. cbn. rewrite sqrt_4. f_equal. lra.
Qed.

Lemma restless_AC_u0_2 U rest :
  calculate_AC_u0 (prim := restless) U (1 :: rest) 0 1 2 = Ok 1.
Proof.
  unfold calculate_AC_u0. simpl calculate_c_baseline.
  destruct (Req_dec_T 2 1) as [N|_]; [lra|].
  rewrite fdiv_Ok by lra. cbn [bind].
  replace (1 / 1) with 1 by lra.
  rewrite fsqrt_Ok by lra. cbn. rewrite sqrt_1. f_equal. lra.
Qed.

Lemma restless_never_close U rest : forall i,
  successive (prim := restless) U (1 :: rest) 0 1 1 i (fun d => d > 1e-9) /\
  successive (prim := restless) U (1 :: rest) 0 1 2 i (fun d => d > 1e-9).
Proof.
  induction i as [|i [IH1 IH2]].
  - split; apply successive_0.
    + exists 2. split; [apply restless_AC_u0_1|].
      replace (2 - 1) with 1 by lra. rewrite Rabs_R1. lra.
    + exists 1. split; [apply restless_AC_u0_2|].
      rewrite Rabs_left by lra. lra.
  - split.
    + apply (successive_S U (1 :: rest) 0 1 1 2 i _ (restless_AC_u0_1 U rest)). exact IH2.
    + apply (successive_S U (1 :: rest) 0 1 2 1 i _ (restless_AC_u0_2 U rest)). exact IH1.
Qed.

(** C3 fails on the code.  With a baseline chord of a quarter of the parent
    chord and a leading parent coefficient of [1e-9], the loop stops on the
    values [1e-9] and [2e-9], which do not differ by less than [1e-9]; with a
    baseline chord that never settles, the call is still in its loop after
    any number of turns, and no failure is ever reported. *)
Lemma restless_never_returns (la : Linalg) U stations rest Al fuel morphing :
  calculate_dependent_shape_coefficients (prim := restless) (la := la)
    U stations (1 :: rest) Al 0 1 fuel morphing = OutOfFuel.
Proof.
  apply solve_starved.
  apply (leading_starved (prim := restless) U (1 :: rest) Al 0 1 fuel 1 eq_refl).
  apply loop_never_close; [lra|]. intros i. apply restless_never_close.
Qed.

Lemma nonconvergence_is_not_reported :
  (fixed_point_loop (prim := quarter) [] [1e-9] 0 1 1 1e-9 9999 = Ok 2e-9 /\
   ~ Rabs (2e-9 - 1e-9) < 1e-9) /\
  (forall fuel morphing,
      calculate_dependent_shape_coefficients (prim := restless) (la := exact_linalg)
        [] [] [1] [1] 0 1 fuel morphing = OutOfFuel) /\
  ~ (exists fuel morphing e,
        calculate_dependent_shape_coefficients (prim := restless) (la := exact_linalg)
          [] [] [1] [1] 0 1 fuel morphing = Raise e).
Proof.
  assert (D : Rabs (2e-9 - 1e-9) = 1e-9).
  { replace (2e-9 - 1e-9) with 1e-9 by lra. apply Rabs_right. lra. }
  assert (N : forall fuel morphing,
      calculate_dependent_shape_coefficients (prim := restless) (la := exact_linalg)
        [] [] [1] [1] 0 1 fuel morphing = OutOfFuel).
  { intros fuel morphing. apply restless_never_returns. }
  split; [split|split].
  - rewrite loop_continue by lra.
    rewrite quarter_AC_u0 by lra. cbn [bind].
    replace (2 * 1e-9) with 2e-9 by lra. apply loop_stop. rewrite D. lra.
  - rewrite D. lra.
  - exact N.
  - intros (fuel & morphing & e & H). rewrite N in H. discriminate.
Qed.

(** ** Divisions in the backwards assembly (C10) *)

Lemma bind_avoids {A B} (m : outcome A) (k : A -> outcome B) e :
  m <> Raise e -> (forall a, k a <> Raise e) -> bind m k <> Raise e.
Proof.
  intros Hm Hk. destruct m; simpl; auto.
  - intros X. apply Hm. inversion X. reflexivity.
  - discriminate.
Qed.

Lemma index_not_zero_division {A} (l : list A) i :
  index l i <> Raise ZeroDivisionError.
Proof. unfold index. destruct (nth_error l i); discriminate. Qed.

Lemma bernstein_matrix_no_zero_division n psis :
  bernstein_matrix n psis <> Raise ZeroDivisionError.
Proof.
  unfold bernstein_matrix. apply mapM_avoids. intros j _.
  unfold matrix_row. apply mapM_avoids. intros i _.
  unfold matrix_entry. apply bind_avoids; [apply K_not_zero_division|].
  intros k. apply bind_avoids; [apply index_not_zero_division|]. discriminate.
Qed.

Section Interior.
Context `{prim : CST_2D} `{la : Linalg}.
Variables (Au_C_1_to_n psi_spars Au_P Al_P : list R) (deltaz c_P : R).

Local Notation n := (order Au_C_1_to_n).
Local Notation lead := (leading_coefficients Au_C_1_to_n Au_P Al_P deltaz c_P).
Local Notation bstep := (backwards_step Au_C_1_to_n psi_spars Au_P Al_P deltaz c_P).
Local Notation back := (backwards Au_C_1_to_n psi_spars Au_P Al_P deltaz c_P).
Local Notation solve := (calculate_dependent_shape_coefficients
                           Au_C_1_to_n psi_spars Au_P Al_P deltaz c_P).

Lemma backwards_loop_no_zero_division st js acc :
  interior psi_spars -> st_c_C st <> 0 ->
  for_each (bstep st) acc js <> Raise ZeroDivisionError.
Proof.
  intros Hin Hc. apply for_each_avoids. intros s j _.
  apply bstep_no_zero_division; [exact Hc|].
  intros psi E. unfold interior in Hin. rewrite Forall_forall in Hin.
  apply Hin. eapply nth_error_In. exact E.
Qed.

Lemma backwards_no_zero_division st :
  interior psi_spars -> st_c_C st <> 0 ->
  back st <> Raise ZeroDivisionError.
Proof.
  intros Hin Hc. unfold backwards.
  apply bind_avoids; [apply backwards_loop_no_zero_division; assumption|].
  intros [ts bl].
  apply bind_avoids; [apply bernstein_matrix_no_zero_division|]. intros B.
  apply bind_avoids.
  { unfold inv_or_raise. destruct (inv B); discriminate. }
  intros B'. apply bind_avoids; [|discriminate].
  apply mapM_avoids. intros i _.
  apply bind_avoids; [apply index_not_zero_division|]. intros a.
  apply bind_avoids; [apply index_not_zero_division|]. discriminate.
Qed.

(** C10.  With every spar station strictly between 0 and 1 the divisor
    [psi_j^0.5 * (1-psi_j)] is nonzero in every row; once the leading
    coefficients are there, neither the assembly of the right-hand side nor
    that of the matrix divides by zero, and a division by zero in a backwards
    call can only be the one of [c_P/c_C] before the assembly. *)
Theorem interior_stations_never_divide_by_zero
  (Hin : interior psi_spars) :
  (forall psi, In psi psi_spars -> sqrt psi * (1 - psi) <> 0) /\
  (forall fuel st, lead fuel = Ok st ->
     for_each (bstep st) ([], zeros n) (seq 0 (length psi_spars))
       <> Raise ZeroDivisionError /\
     bernstein_matrix n psi_spars <> Raise ZeroDivisionError) /\
  (forall fuel, solve fuel "backwards"%string = Raise ZeroDivisionError ->
     lead fuel = Raise ZeroDivisionError).
Proof.
  split; [|split].
  - intros psi Hpsi. apply interior_divisor.
    unfold interior in Hin. rewrite Forall_forall in Hin. auto.
  - intros fuel st Hst.
    apply leading_Ok_inv in Hst as (a0 & l0 & _ & _ & _ & _ & _ & Hc & _).
    split; [apply backwards_loop_no_zero_division; assumption|].
    apply bernstein_matrix_no_zero_division.
  - intros fuel H. rewrite solve_backwards in H.
    destruct (lead fuel) as [st| |] eqn:E; simpl in H; try discriminate.
    + exfalso. revert H. apply backwards_no_zero_division; [exact Hin|].
      apply leading_Ok_inv in E as (a0 & l0 & _ & _ & _ & _ & _ & Hc & _).
      exact Hc.
    + inversion H. reflexivity.
Qed.

End Interior.

(** A station at a quarter of the chord. *)
Lemma interior_stations_never_divide_by_zero_witness :
  sqrt (/ 4) * (1 - / 4) <> 0.
Proof.
  assert (Hin : interior [/ 4]).
  { constructor; [lra|constructor]. }
  apply (interior_stations_never_divide_by_zero (prim := rigid) (la := exact_linalg)
           [1] [/ 4] [1; 1] [1; 1] 0 1 Hin).
  left. reflexivity.
Defined.

(** ** Lengths of the results (C8) and mismatched lengths (C7) *)

Lemma interior_good psis :
  interior psis ->
  Forall (fun psi => 0 <= psi /\ sqrt psi * (1 - psi) <> 0) psis.
Proof.
  unfold interior. apply Forall_impl. intros psi H. split; [lra|].
  apply interior_divisor. exact H.
Qed.

Lemma Forall_prefix {A} (P : A -> Prop) (l : list A) : forall k,
  Forall P l -> Forall P (firstn k l).
Proof.
  induction l as [|a l IH]; intros [|k] H; simpl; auto.
  inversion H; subst. constructor; auto.
Qed.

Lemma mat_vec_length M b : length (mat_vec M b) = length M.
Proof. unfold mat_vec. apply length_map. Qed.

Lemma pairwise_difference_entry a b i :
  (i < length a)%nat -> (length a <= length b)%nat ->
  nth i (pairwise_difference a b) 0 = nth i a 0 - nth i b 0.
Proof.
  intros Hi Hl. rewrite <- pairwise_difference_nth by exact Hl.
  rewrite (nth_indep _ 0 (nth 0 a 0 - nth 0 b 0))
    by (rewrite length_map, length_seq; exact Hi).
  rewrite (map_nth (fun k => nth k a 0 - nth k b 0) (seq 0 (length a)) 0%nat i).
  rewrite seq_nth by exact Hi. reflexivity.
Qed.

Section Solve.
Context `{prim : CST_2D} `{la : Linalg}.
Variables (Au_C_1_to_n psi_spars Au_P Al_P : list R) (deltaz c_P : R).

Local Notation n := (order Au_C_1_to_n).
Local Notation lead := (leading_coefficients Au_C_1_to_n Au_P Al_P deltaz c_P).
Local Notation bstep := (backwards_step Au_C_1_to_n psi_spars Au_P Al_P deltaz c_P).
Local Notation back := (backwards Au_C_1_to_n psi_spars Au_P Al_P deltaz c_P).
Local Notation forw := (forwards Au_C_1_to_n psi_spars Au_P Al_P deltaz c_P).
Local Notation t_of := (parent_spar_thickness Au_P Al_P deltaz c_P).
Local Notation b_of := (rhs_backwards Au_C_1_to_n Au_P Al_P deltaz c_P).
Local Notation thick := (forwards_spar_thickness psi_spars Au_P Al_P deltaz c_P).
Local Notation solve := (calculate_dependent_shape_coefficients
                           Au_C_1_to_n psi_spars Au_P Al_P deltaz c_P).

Lemma solve_forwards fuel :
  solve fuel "forwards"%string = (st <- lead fuel ;; forw st).
Proof. reflexivity. Qed.

Lemma solve_Ok_cases fuel morphing r :
  solve fuel morphing = Ok r ->
  exists st, lead fuel = Ok st /\
    st_Au_C st = st_AC_u0 st :: Au_C_1_to_n /\ st_c_C st <> 0 /\
    ((morphing = "backwards"%string /\ back st = Ok r) \/
     (morphing = "forwards"%string /\ forw st = Ok r)).
Proof.
  unfold calculate_dependent_shape_coefficients. intros H.
  apply bind_Ok in H as (st & Est & H). exists st.
  pose proof (leading_Ok_inv _ _ _ _ _ _ _ Est)
    as (a0 & l0 & _ & _ & _ & HA & _ & Hc & _).
  split; [exact Est|]. split; [exact HA|]. split; [exact Hc|].
  destruct (String.eqb morphing "backwards") eqn:Eb.
  - apply String.eqb_eq in Eb. left. auto.
  - destruct (String.eqb morphing "forwards") eqn:Ef; [|discriminate].
    apply String.eqb_eq in Ef. right. auto.
Qed.

Lemma solve_backwards_Ok fuel st B' :
  lead fuel = Ok st -> length psi_spars = n -> interior psi_spars ->
  inv (spec_matrix n psi_spars) = Some B' -> (length B' <= n)%nat ->
  solve fuel "backwards"%string =
  Ok (st_Au_C st,
      st_AC_l0 st
      :: pairwise_difference (mat_vec B' (map (b_of st) psi_spars)) Au_C_1_to_n,
      st_c_C st, map (t_of st) psi_spars).
Proof.
  intros Est Hn Hin Hinv HB. rewrite solve_backwards, Est. cbn [bind].
  pose proof (leading_Ok_inv _ _ _ _ _ _ _ Est)
    as (a0 & l0 & _ & _ & _ & HA & _ & Hc & _).
  apply backwards_Ok; auto. apply interior_good. exact Hin.
Qed.

(** C8.  Whatever the call returns, in either mode, has [n+1] upper
    coefficients, [n+1] lower coefficients and [n] thicknesses, [inv]
    returning a matrix with as many rows as its argument; and a backwards
    call does return once the fixed point is reached, with stations strictly
    inside (0,1) and an invertible matrix. *)
Theorem result_lengths
  (Hshape : forall M M', inv M = Some M' -> length M' = length M)
  (Hn : length psi_spars = n) :
  (forall fuel morphing Au Al c ts,
      solve fuel morphing = Ok (Au, Al, c, ts) ->
      length Au = S n /\ length Al = S n /\ length ts = n) /\
  (forall fuel st B',
      lead fuel = Ok st -> interior psi_spars ->
      inv (spec_matrix n psi_spars) = Some B' ->
      exists Au Al c ts,
        solve fuel "backwards"%string = Ok (Au, Al, c, ts) /\
        length Au = S n /\ length Al = S n /\ length ts = n).
Proof.
  assert (P1 : forall fuel morphing Au Al c ts,
      solve fuel morphing = Ok (Au, Al, c, ts) ->
      length Au = S n /\ length Al = S n /\ length ts = n).
  { intros fuel morphing Au Al c ts H.
    apply solve_Ok_cases in H as (st & Est & HA & Hc & [[_ H]|[_ H]]).
    - apply (backwards_Ok_inv _ _ _ _ _ _ _ _ HA) in H
        as (_ & _ & _ & B' & Hinv & HB & E).
      inversion E; subst. apply Hshape in Hinv.
      rewrite spec_matrix_length in Hinv.
      split; [rewrite HA; reflexivity|]. split; [|rewrite length_map; exact Hn].
      simpl. f_equal. rewrite pairwise_difference_length;
        rewrite mat_vec_length; unfold order in *; lia.
    - apply forwards_Ok_inv in H
        as (_ & -> & _ & -> & _ & F & F' & f & HF & Hinv & ->).
      apply Hshape in Hinv.
      split; [rewrite HA; reflexivity|]. split.
      + simpl. f_equal. rewrite mat_vec_length. congruence.
      + rewrite length_map, length_seq. reflexivity. }
  split; [exact P1|].
  intros fuel st B' Est Hin Hinv.
  pose proof (Hshape _ _ Hinv) as HB. rewrite spec_matrix_length in HB.
  pose proof (solve_backwards_Ok fuel st B' Est Hn Hin Hinv ltac:(lia)) as E.
  do 4 eexists. split; [exact E|]. eapply P1. exact E.
Qed.

(** C7, as the code has it.  With a number of stations other than the number
    of free coefficients no result is ever returned, but nothing is checked
    beforehand: the fixed-point iteration comes first (a call whose iteration
    does not settle stays in it), and the mismatch shows only in the
    assembly, as an [IndexError] when the stations are inside (0,1). *)
Theorem mismatch_is_found_after_the_leading_stage
  (Hne : length psi_spars <> n) :
  (forall fuel morphing r, solve fuel morphing <> Ok r) /\
  (forall fuel morphing, lead fuel = OutOfFuel ->
     solve fuel morphing = OutOfFuel) /\
  (forall fuel st, lead fuel = Ok st -> interior psi_spars ->
     solve fuel "backwards"%string = Raise IndexError).
Proof.
  split; [|split].
  - intros fuel morphing [[[Au Al] c] ts] H.
    apply solve_Ok_cases in H as (st & Est & HA & Hc & [[_ H]|[_ H]]).
    + apply (backwards_Ok_inv _ _ _ _ _ _ _ _ HA) in H as (Hn & _).
      contradiction.
    + apply forwards_Ok_inv in H as (Hn & _). contradiction.
  - intros fuel morphing. apply solve_starved.
  - intros fuel st Est Hin. rewrite solve_backwards, Est. cbn [bind].
    pose proof (leading_Ok_inv _ _ _ _ _ _ _ Est)
      as (a0 & l0 & _ & _ & _ & HA & _ & Hc & _).
    pose proof (interior_good _ Hin) as Hg.
    unfold backwards.
    destruct (le_lt_dec (length psi_spars) n) as [Hle|Hgt].
    + rewrite (backwards_loop_prefix Au_C_1_to_n psi_spars Au_P Al_P deltaz c_P
                 st (length psi_spars));
        [| lia | lia | exact Hc | rewrite firstn_all; exact Hg].
      cbn [bind]. rewrite bernstein_matrix_short by lia. reflexivity.
    + replace (length psi_spars) with (n + (length psi_spars - n))%nat by lia.
      rewrite seq_app, for_each_app.
      rewrite (backwards_loop_prefix Au_C_1_to_n psi_spars Au_P Al_P deltaz c_P
                 st n);
        [| lia | lia | exact Hc | apply Forall_prefix; exact Hg].
      cbn [bind]. simpl Nat.add.
      destruct (length psi_spars - n)%nat as [|k] eqn:Ek; [lia|].
      cbn [seq for_each].
      destruct (nth_error psi_spars n) as [psi|] eqn:E.
      2:{ apply nth_error_None in E. lia. }
      assert (Hpsi : 0 <= psi /\ sqrt psi * (1 - psi) <> 0).
      { rewrite Forall_forall in Hg. apply Hg. eapply nth_error_In. exact E. }
      rewrite (bstep_eval _ _ _ _ _ _ st _ _ n psi E Hc (proj1 Hpsi) (proj2 Hpsi)).
      rewrite set_item_out; [reflexivity|].
      rewrite length_app, length_map, length_firstn, Nat.sub_diag. simpl. lia.
Qed.

End Solve.

(** *** Runs on the reference behaviours *)

Lemma rigid_leading U a0 A l0 L dz c fuel :
  c <> 0 ->
  leading_coefficients (prim := rigid) U (a0 :: A) (l0 :: L) dz c (S fuel) =
  Ok {| st_AC_u0 := a0; st_Au_C := a0 :: U; st_c_C := c; st_AC_l0 := l0 |}.
Proof.
  intros Hc. apply leading_settled; auto.
Qed.

Lemma exact_single psi :
  psi <> 0 ->
  exists B', inv (Linalg := exact_linalg) (spec_matrix 1 [psi]) = Some B' /\
             length B' = 1%nat.
Proof.
  intros H. apply cofactor_inv_Some.
  unfold det, spec_matrix, bernstein. simpl. lra.
Qed.

Lemma interior_1 psi : 0 < psi < 1 -> interior [psi].
Proof. intros H. constructor; [exact H|constructor]. Qed.

Lemma interior_2 p q : 0 < p < 1 -> 0 < q < 1 -> interior [p; q].
Proof. intros H1 H2. constructor; [exact H1|]. apply interior_1. exact H2. Qed.

Lemma rigid_backwards_single U0 a0 A l0 L dz c psi fuel :
  c <> 0 -> 0 < psi < 1 ->
  exists r,
    calculate_dependent_shape_coefficients (prim := rigid) (la := exact_linalg)
      [U0] [psi] (a0 :: A) (l0 :: L) dz c (S fuel) "backwards" = Ok r.
Proof.
  intros Hc Hpsi. destruct (exact_single psi) as (B' & HB & HL); [lra|].
  eexists. eapply solve_backwards_Ok with (B' := B').
  - apply rigid_leading. exact Hc.
  - reflexivity.
  - apply interior_1. exact Hpsi.
  - exact HB.
  - unfold order. simpl. lia.
Qed.

(** One station and one free coefficient. *)
Lemma result_lengths_witness :
  exists Au Al c ts,
    calculate_dependent_shape_coefficients (prim := rigid) (la := exact_linalg)
      [1] [/ 4] [1; 1] [1; 1] 0 1 1 "backwards" = Ok (Au, Al, c, ts) /\
    length Au = 2%nat /\ length Al = 2%nat /\ length ts = 1%nat.
Proof.
  destruct (result_lengths (prim := rigid) (la := exact_linalg)
              [1] [/ 4] [1; 1] [1; 1] 0 1 cofactor_inv_length eq_refl)
    as [_ H].
  destruct (exact_single (/ 4)) as (B' & HB & HL); [lra|].
  eapply (H 1%nat) with (B' := B').
  - apply rigid_leading. lra.
  - apply interior_1. lra.
  - exact HB.
Defined.

(** Two stations for one free coefficient. *)
Lemma mismatch_is_found_after_the_leading_stage_witness :
  calculate_dependent_shape_coefficients (prim := rigid) (la := exact_linalg)
    [1] [/ 4; / 2] [1; 1] [1; 1] 0 1 1 "backwards" = Raise IndexError.
Proof.
  assert (Hne : length [/ 4; / 2] <> order [1]) by (simpl; discriminate).
  destruct (mismatch_is_found_after_the_leading_stage (prim := rigid)
              (la := exact_linalg) [1] [/ 4; / 2] [1; 1] [1; 1] 0 1 Hne)
    as (_ & _ & H).
  eapply (H 1%nat).
  - apply rigid_leading. lra.
  - apply interior_2; lra.
Defined.

(** C7 fails on the code.  Two stations for one free coefficient, with a
    baseline chord that never settles: the call is not rejected, it stays in
    the fixed-point iteration.  Three parent upper coefficients for two
    lower ones: the call returns a result. *)
Lemma mismatch_is_not_rejected_beforehand :
  (length [/ 4; / 2] <> length [1] /\
   forall fuel,
     calculate_dependent_shape_coefficients (prim := restless) (la := exact_linalg)
       [1] [/ 4; / 2] [1; 1] [1; 1] 0 1 fuel "backwards" = OutOfFuel) /\
  (length [1; 1; 1] <> length [1; 1] /\
   exists r,
     calculate_dependent_shape_coefficients (prim := rigid) (la := exact_linalg)
       [1] [/ 4] [1; 1; 1] [1; 1] 0 1 1 "backwards" = Ok r).
Proof.
  split; split.
  - simpl. discriminate.
  - intros fuel. apply restless_never_returns.
  - simpl. discriminate.
  - apply rigid_backwards_single; lra.
Qed.

(** ** The linear system of the backwards branch (C2) and its singular case (C6) *)

(** *** Equal rows *)

Lemma unit_column_length m i : length (unit_column m i) = m.
Proof. unfold unit_column. rewrite length_map, length_seq. reflexivity. Qed.

Lemma unit_column_nth m i k :
  (k < m)%nat -> nth k (unit_column m i) 0 = if Nat.eqb k i then 1 else 0.
Proof.
  intros H. unfold unit_column.
  rewrite (nth_indep _ 0 (if Nat.eqb 0 i then 1 else 0))
    by (rewrite length_map, length_seq; exact H).
  rewrite (map_nth (fun k0 => if Nat.eqb k0 i then 1 else 0) (seq 0 m) 0%nat k).
  rewrite seq_nth by exact H. reflexivity.
Qed.

Lemma mat_vec_nth M w k : nth k (mat_vec M w) 0 = dot (nth k M []) w.
Proof.
  unfold mat_vec. change 0 with (dot [] w) at 1.
  apply (map_nth (fun row => dot row w)).
Qed.

Lemma equal_rows_singular B i j :
  i <> j -> (i < length B)%nat -> (j < length B)%nat ->
  nth i B [] = nth j B [] -> singular B.
Proof.
  intros Hij Hi Hj Hrows (B' & _ & HR & _).
  specialize (HR (unit_column (length B) i) (unit_column_length _ _)).
  assert (E1 := f_equal (fun v => nth i v 0) HR).
  assert (E2 := f_equal (fun v => nth j v 0) HR).
  simpl in E1, E2. rewrite mat_vec_nth in E1, E2.
  rewrite unit_column_nth in E1, E2 by assumption.
  rewrite Nat.eqb_refl in E1.
  destruct (Nat.eqb j i) eqn:E; [apply Nat.eqb_eq in E; congruence|].
  rewrite Hrows in E1. lra.
Qed.

Lemma spec_matrix_row n psis k p :
  nth_error psis k = Some p ->
  nth k (spec_matrix n psis) [] =
  map (fun i => bernstein n (i + 1) p) (seq 0 n).
Proof.
  intros H. unfold spec_matrix.
  apply nth_error_nth. rewrite nth_error_map, H. reflexivity.
Qed.

Lemma duplicate_stations_singular n psis i j p :
  i <> j -> nth_error psis i = Some p -> nth_error psis j = Some p ->
  singular (spec_matrix n psis).
Proof.
  intros Hij Hi Hj.
  apply (equal_rows_singular _ i j Hij).
  - rewrite spec_matrix_length. apply nth_error_Some. congruence.
  - rewrite spec_matrix_length. apply nth_error_Some. congruence.
  - rewrite (spec_matrix_row n psis i p Hi), (spec_matrix_row n psis j p Hj).
    reflexivity.
Qed.

Section System.
Context `{prim : CST_2D} `{la : Linalg}.
Variables (Au_C_1_to_n psi_spars Au_P Al_P : list R) (deltaz c_P : R).

Local Notation n := (order Au_C_1_to_n).
Local Notation lead := (leading_coefficients Au_C_1_to_n Au_P Al_P deltaz c_P).
Local Notation back := (backwards Au_C_1_to_n psi_spars Au_P Al_P deltaz c_P).
Local Notation b_of := (rhs_backwards Au_C_1_to_n Au_P Al_P deltaz c_P).
Local Notation solve := (calculate_dependent_shape_coefficients
                           Au_C_1_to_n psi_spars Au_P Al_P deltaz c_P).

(** C2.  A backwards call that returns has built the [n] by [n] matrix whose
    row [j], column [i] is [C(n,i+1) * psi_j^(i+1) * (1-psi_j)^(n-(i+1))],
    has multiplied its inverse with the right-hand side, and has formed the
    lower coefficients as [AC_l0] followed by the differences of that
    solution and the free upper coefficients, index by index.  And the call
    does return that, once the leading coefficients are there, with [n]
    stations inside (0,1) and a matrix that [inv] inverts. *)
Theorem backwards_builds_and_solves_the_bernstein_system :
  (forall fuel Au Al c ts,
     solve fuel "backwards"%string = Ok (Au, Al, c, ts) ->
     exists st B B',
       lead fuel = Ok st /\
       bernstein_matrix n psi_spars = Ok B /\
       length B = n /\ length psi_spars = n /\
       (forall j i, (j < n)%nat -> (i < n)%nat ->
          nth i (nth j B []) 0 =
          INR (binomial n (i + 1)) * nth j psi_spars 0 ^ (i + 1)
          * (1 - nth j psi_spars 0) ^ (n - (i + 1))) /\
       inv B = Some B' /\
       let b := map (b_of st) psi_spars in
       let A_bar := mat_vec B' b in
       Al = st_AC_l0 st :: pairwise_difference A_bar Au_C_1_to_n /\
       (forall i, (i < length A_bar)%nat ->
          nth (S i) Al 0 = nth i A_bar 0 - nth i Au_C_1_to_n 0) /\
       (inverse_of B B' -> mat_vec B A_bar = b)) /\
  (forall fuel st B',
     lead fuel = Ok st -> length psi_spars = n -> interior psi_spars ->
     inv (spec_matrix n psi_spars) = Some B' -> length B' = n ->
     solve fuel "backwards"%string =
     Ok (st_Au_C st,
         st_AC_l0 st
         :: pairwise_difference (mat_vec B' (map (b_of st) psi_spars))
              Au_C_1_to_n,
         st_c_C st,
         map (parent_spar_thickness Au_P Al_P deltaz c_P st) psi_spars)).
Proof.
  split.
  - intros fuel Au Al c ts Hrun.
    apply solve_Ok_cases in Hrun as (st & Est & HA & Hc & [[_ H]|[E _]]);
      [|discriminate].
    apply (backwards_Ok_inv _ _ _ _ _ _ _ _ HA) in H
      as (Hn & _ & _ & B' & Hinv & HB & E).
    inversion E; subst.
    exists st, (spec_matrix n psi_spars), B'.
    split; [exact Est|]. split; [apply bernstein_matrix_Ok; exact Hn|].
    split; [rewrite spec_matrix_length; exact Hn|]. split; [exact Hn|].
    split; [intros j i Hj Hi; apply spec_matrix_entry; [rewrite Hn|]; assumption|].
    split; [exact Hinv|]. cbv zeta.
    split; [reflexivity|]. split.
    + intros i Hi. simpl. apply pairwise_difference_entry; [exact Hi|].
      rewrite mat_vec_length in *. unfold order in *. lia.
    + intros (_ & HR & _). apply HR.
      rewrite length_map, spec_matrix_length. reflexivity.
  - intros fuel st B' Est Hn Hin Hinv HB.
    apply solve_backwards_Ok; auto. lia.
Qed.

(** C6, as the code has it.  With the leading coefficients there and the
    stations inside (0,1): a matrix without inverse (two equal stations give
    one) ends the call with [LinAlgError], [inv] returning only inverses;
    a matrix that [inv] inverts, however close to one without inverse, gives
    a result; and whatever either mode returns came out of a successful
    inversion.  The conditioning of the matrix is never looked at. *)
Theorem only_exact_singularity_is_reported
  (fuel : nat) (st : leading)
  (Hst : lead fuel = Ok st) (Hin : interior psi_spars)
  (Hn : length psi_spars = n) :
  (singular (spec_matrix n psi_spars) ->
   (forall B', inv (spec_matrix n psi_spars) = Some B' ->
               inverse_of (spec_matrix n psi_spars) B') ->
   solve fuel "backwards"%string = Raise LinAlgError) /\
  ((exists i j p, i <> j /\ nth_error psi_spars i = Some p /\
                  nth_error psi_spars j = Some p) ->
   singular (spec_matrix n psi_spars)) /\
  (forall B', inv (spec_matrix n psi_spars) = Some B' -> length B' = n ->
     exists r, solve fuel "backwards"%string = Ok r) /\
  (forall morphing r, solve fuel morphing = Ok r ->
     exists M M', length M = n /\ inv M = Some M').
Proof.
  pose proof (leading_Ok_inv _ _ _ _ _ _ _ Hst)
    as (a0 & l0 & _ & _ & _ & HA & _ & Hc & _).
  split; [|split; [|split]].
  - intros Hs Hcontract.
    destruct (inv (spec_matrix n psi_spars)) as [B'|] eqn:E.
    { exfalso. apply Hs. exists B'. apply Hcontract. reflexivity. }
    rewrite solve_backwards, Hst. cbn [bind]. unfold backwards.
    rewrite (backwards_loop_prefix Au_C_1_to_n psi_spars Au_P Al_P deltaz c_P
               st (length psi_spars));
      [| lia | lia | exact Hc | rewrite firstn_all; apply interior_good; exact Hin].
    cbn [bind]. rewrite bernstein_matrix_Ok by exact Hn. cbn [bind].
    unfold inv_or_raise. rewrite E. reflexivity.
  - intros (i & j & p & Hij & Hi & Hj).
    apply (duplicate_stations_singular n psi_spars i j p); assumption.
  - intros B' Hinv HB. eexists.
    apply (solve_backwards_Ok _ _ _ _ _ _ fuel st B'); auto. lia.
  - intros morphing [[[Au Al] c] ts] H.
    apply solve_Ok_cases in H as (st' & _ & HA' & _ & [[_ H]|[_ H]]).
    + apply (backwards_Ok_inv _ _ _ _ _ _ _ _ HA') in H
        as (_ & _ & _ & B' & Hinv & _).
      exists (spec_matrix n psi_spars), B'.
      split; [rewrite spec_matrix_length; exact Hn|exact Hinv].
    + apply forwards_Ok_inv in H as (_ & _ & _ & _ & _ & F & F' & f & HF & Hinv & _).
      exists F, F'. auto.
Qed.

End System.

(** One station: the call returns, and the matrix has the single entry
    [C(1,1) * psi^1 * (1-psi)^0]. *)
Lemma backwards_builds_and_solves_the_bernstein_system_witness :
  exists r B,
    calculate_dependent_shape_coefficients (prim := rigid) (la := exact_linalg)
      [1] [/ 4] [1; 1] [1; 1] 0 1 1 "backwards" = Ok r /\
    bernstein_matrix 1 [/ 4] = Ok B /\
    nth 0 (nth 0 B []) 0 = INR (binomial 1 1) * (/ 4) ^ 1 * (1 - / 4) ^ 0.
Proof.
  destruct (backwards_builds_and_solves_the_bernstein_system
              (prim := rigid) (la := exact_linalg) [1] [/ 4] [1; 1] [1; 1] 0 1)
    as [Hinv Hrun].
  destruct (exact_single (/ 4)) as (B' & HB' & HL); [lra|].
  specialize (Hrun 1%nat _ B' (rigid_leading [1] 1 [1] 1 [1] 0 1 0 R1_neq_R0)
                eq_refl (interior_1 (/ 4) ltac:(lra)) HB' HL).
  destruct (Hinv 1%nat _ _ _ _ Hrun)
    as (st & B & B0 & _ & HB & _ & _ & Hentry & _).
  eexists. exists B. split; [exact Hrun|]. split; [exact HB|].
  exact (Hentry 0%nat 0%nat Nat.lt_0_1 Nat.lt_0_1).
Defined.

Lemma det_two_stations p q :
  det (spec_matrix 2 [p; q]) = 2 * p * q * (q - p).
Proof. unfold det, spec_matrix, bernstein. simpl. ring. Qed.

(** Two spars at the same station. *)
Lemma only_exact_singularity_is_reported_witness :
  calculate_dependent_shape_coefficients (prim := rigid) (la := exact_linalg)
    [1; 1] [/ 2; / 2] [1; 1; 1] [1; 1; 1] 0 1 1 "backwards"
  = Raise LinAlgError.
Proof.
  assert (Hin : interior [/ 2; / 2]) by (apply interior_2; lra).
  destruct (only_exact_singularity_is_reported (prim := rigid) (la := exact_linalg)
              [1; 1] [/ 2; / 2] [1; 1; 1] [1; 1; 1] 0 1 1 _
              (rigid_leading [1; 1] 1 [1; 1] 1 [1; 1] 0 1 0 R1_neq_R0)
              Hin eq_refl)
    as (H1 & H2 & _).
  apply H1.
  - apply H2. exists 0%nat, 1%nat, (/ 2). repeat split. discriminate.
  - intros B' E.
    change (cofactor_inv (spec_matrix 2 [/ 2; / 2]) = Some B') in E.
    rewrite cofactor_inv_None in E; [discriminate|].
    rewrite det_two_stations. ring.
Defined.

(** C6 fails on the code.  Two stations [1e-12] apart give a matrix whose
    determinant is below [1e-12]; the call returns coefficients all the
    same. *)
Lemma near_singular_system_is_solved :
  Rabs (det (spec_matrix 2 [/ 2; / 2 + 1e-12])) < 1e-12 /\
  exists r,
    calculate_dependent_shape_coefficients (prim := rigid) (la := exact_linalg)
      [1; 1] [/ 2; / 2 + 1e-12] [1; 1; 1] [1; 1; 1] 0 1 1 "backwards" = Ok r.
Proof.
  assert (D : det (spec_matrix 2 [/ 2; / 2 + 1e-12]) = (/ 2 + 1e-12) * 1e-12).
  { rewrite det_two_stations. field. }
  split.
  - rewrite D. rewrite Rabs_right; lra.
  - destruct (cofactor_inv_Some (spec_matrix 2 [/ 2; / 2 + 1e-12]))
      as (B' & HB & HL).
    { rewrite D. lra. }
    eexists.
    eapply (solve_backwards_Ok (prim := rigid) (la := exact_linalg)) with (B' := B').
    + apply rigid_leading. lra.
    + reflexivity.
    + apply interior_2; lra.
    + exact HB.
    + rewrite HL. rewrite spec_matrix_length. unfold order. simpl. lia.
Qed.

(** ** Spar thicknesses (C4) *)

Lemma shape_function_zero2 psi : shape_function [0; 0] psi = 0.
Proof. unfold shape_function. simpl. ring. Qed.

Lemma wedge_upper dz c x : cst_upper [0; 0] dz c x = x / c * dz.
Proof. unfold cst_upper. rewrite shape_function_zero2. ring. Qed.

Lemma wedge_lower dz c x : cst_lower [0; 0] dz c x = - (x / c * dz).
Proof. unfold cst_lower. rewrite shape_function_zero2. ring. Qed.

Lemma wedge_forwards_run :
  calculate_dependent_shape_coefficients (prim := rigid) (la := exact_linalg)
    [0] [/ 2] [0; 0] [0; 0] 1 1 1 "forwards"
  = Ok ([0; 0], [0; 0], 1, [/ 2]).
Proof.
  rewrite solve_forwards. rewrite rigid_leading by lra. cbn [bind].
  unfold forwards. cbn [st_Au_C st_AC_l0 st_AC_u0 st_c_C].
  cbn [length seq mapM index nth_error bind].
  simpl calculate_c_baseline. simpl calculate_psi_goal.
  rewrite fdiv_Ok by lra. cbn [bind].
  cbn [for_each]. unfold forwards_step.
  rewrite fdiv_Ok by lra. cbn [bind].
  simpl CST. cbn [surf_u surf_l map index nth_error bind].
  rewrite !wedge_upper, !wedge_lower.
  simpl calculate_spar_direction. cbn [fst snd].
  rewrite fdiv_Ok by lra. cbn [bind].
  rewrite fdiv_Ok by lra. cbn [bind].
  match goal with |- context [fsqrt ?x] =>
    replace x with (/ 2) by lra end.
  assert (Hs : 0 < sqrt (/ 2)) by (apply sqrt_lt_R0; lra).
  rewrite fsqrt_Ok by lra. cbn [bind].
  rewrite fdiv_Ok by (apply Rlt_not_eq; nra). cbn [bind].
  cbn [order length zeros repeat set_item bind for_each app].
  rewrite (bernstein_matrix_Ok 1 [/ 2] eq_refl). cbn [bind].
  assert (Hb : bernstein 1 1 (/ 2) = / 2) by (unfold bernstein; simpl; lra).
  unfold inv_or_raise.
  change (inv (spec_matrix 1 [/ 2]))
    with (cofactor_inv [[bernstein 1 (0 + 1) (/ 2)]]).
  simpl Nat.add. rewrite Hb. rewrite cofactor_inv_1 by lra. cbn [bind].
  cbn [mat_vec map dot length seq mapM index nth_error bind].
  cbn [st_AC_l0].
  repeat f_equal; lra.
Qed.

Lemma derivable_pt_lim_half (f : R -> R) (x0 : R) :
  (forall x, f x = x / 2) -> derivable_pt_lim f x0 (/ 2).
Proof.
  intros Hf eps Heps. exists (mkposreal 1 Rlt_0_1). intros h Hh _.
  rewrite !Hf. replace ((x0 + h) / 2 - x0 / 2) with (h / 2) by lra.
  replace (h / 2 / h - / 2) with 0 by (field; exact Hh).
  rewrite Rabs_R0. exact Heps.
Qed.

Lemma wedge_parent_upper x :
  parent_upper (prim := rigid) [0; 0] [0; 0] 1 1 x = x / 2.
Proof.
  unfold parent_upper, xi_parent. simpl. rewrite wedge_upper. field.
Qed.

Lemma wedge_parent_lower x :
  parent_lower (prim := rigid) [0; 0] [0; 0] 1 1 x = - (x / 2).
Proof.
  unfold parent_lower, xi_parent. simpl. rewrite wedge_lower. field.
Qed.

Lemma wedge_vertical_is_not_orthogonal :
  ~ orthogonal_distance
      (parent_upper (prim := rigid) [0; 0] [0; 0] 1 1)
      (parent_lower (prim := rigid) [0; 0] [0; 0] 1 1) (/ 2) (/ 2).
Proof.
  intros (m & Hm & _ & E).
  assert (m = / 2).
  { eapply uniqueness_limite; [exact Hm|].
    apply derivable_pt_lim_half. apply wedge_parent_upper. }
  subst m. rewrite wedge_parent_upper, wedge_parent_lower in E.
  set (N := sqrt (1 + / 2 * / 2)) in *.
  assert (HN : N * N = 1 + / 2 * / 2) by (apply sqrt_sqrt; lra).
  assert (HN0 : 0 < N) by (apply sqrt_lt_R0; lra).
  assert (E' : - ((/ 2 + / 2 * / 2 / N) / 2) * N = (/ 2 / 2 - / 2 / N) * N)
    by (rewrite E; reflexivity).
  field_simplify in E'; [|lra|lra]. nra.
Qed.

Section Thickness.
Context `{prim : CST_2D} `{la : Linalg}.
Variables (Au_C_1_to_n psi_spars Au_P Al_P : list R) (deltaz c_P : R).

(** C4, as the code has it.  In backwards mode the thicknesses returned are
    the values of the imported [calculate_spar_distance], one per station,
    for the child's upper coefficients and the parent's two coefficient
    sets.  In forwards mode they are the parent chord times the difference
    of the parent's upper and lower ordinates at the same station: the
    purely vertical distance. *)
Theorem spar_thicknesses_as_measured
  (fuel : nat) (morphing : string) (Au Al : list R) (c : R) (ts : list R)
  (Hrun : calculate_dependent_shape_coefficients
            Au_C_1_to_n psi_spars Au_P Al_P deltaz c_P fuel morphing
          = Ok (Au, Al, c, ts)) :
  (morphing = "backwards"%string ->
   ts = map (fun psi => calculate_spar_distance psi Au Au_P Al_P deltaz c_P)
          psi_spars) /\
  (morphing = "forwards"%string ->
   ts = map (fun j =>
               c_P * (nth j (surf_u (xi_parent psi_spars Au_P Al_P deltaz c_P)) 0
                      - nth j (surf_l (xi_parent psi_spars Au_P Al_P deltaz c_P)) 0))
          (seq 0 (length psi_spars))).
Proof.
  apply solve_Ok_cases in Hrun as (st & Est & HA & Hc & [[-> H]|[-> H]]).
  - split; [intros _|discriminate].
    apply (backwards_Ok_inv _ _ _ _ _ _ _ _ HA) in H
      as (_ & _ & _ & B' & _ & _ & E).
    inversion E; subst. reflexivity.
  - split; [discriminate|intros _].
    apply forwards_Ok_inv in H as (Hn & _ & _ & -> & _).
    rewrite Hn. reflexivity.
Qed.

End Thickness.

(** A forwards call on a wedge. *)
Lemma spar_thicknesses_as_measured_witness :
  [/ 2] =
  map (fun j =>
         1 * (nth j (surf_u (xi_parent (prim := rigid) [/ 2] [0; 0] [0; 0] 1 1)) 0
              - nth j (surf_l (xi_parent (prim := rigid) [/ 2] [0; 0] [0; 0] 1 1)) 0))
    (seq 0 (length [/ 2])).
Proof.
  apply (spar_thicknesses_as_measured (prim := rigid) (la := exact_linalg)
           [0] [/ 2] [0; 0] [0; 0] 1 1 1 "forwards" _ _ _ _
           wedge_forwards_run).
  reflexivity.
Defined.

(** C4 fails on the code.  The parent is a wedge, its surfaces the lines
    [y = x/2] and [y = -x/2], with a chord of 1 and one spar at mid-chord.
    The forwards call returns the thickness [1/2], the vertical distance
    between the two lines at [x = 1/2]; it is not the distance along the
    direction orthogonal to the upper surface. *)
Lemma forwards_thickness_is_vertical :
  calculate_dependent_shape_coefficients (prim := rigid) (la := exact_linalg)
    [0] [/ 2] [0; 0] [0; 0] 1 1 1 "forwards"
  = Ok ([0; 0], [0; 0], 1, [/ 2]) /\
  parent_upper (prim := rigid) [0; 0] [0; 0] 1 1 (/ 2)
  - parent_lower (prim := rigid) [0; 0] [0; 0] 1 1 (/ 2) = / 2 /\
  ~ orthogonal_distance
      (parent_upper (prim := rigid) [0; 0] [0; 0] 1 1)
      (parent_lower (prim := rigid) [0; 0] [0; 0] 1 1) (/ 2) (/ 2).
Proof.
  split; [exact wedge_forwards_run|]. split.
  - rewrite wedge_parent_upper, wedge_parent_lower. lra.
  - exact wedge_vertical_is_not_orthogonal.
Qed.

(** ** The round trip (C1) *)

(** *** The parent satisfies the system that the child is solved from *)

Lemma weighted_cons g x X :
  weighted g (x :: X) = x * g 0%nat + weighted (fun i => g (S i)) X.
Proof.
  unfold weighted. simpl. f_equal. rewrite <- seq_shift, map_map. reflexivity.
Qed.

Lemma dot_pairwise_sum : forall U L g,
  length U = length L ->
  dot (map g (seq 0 (length U))) (pairwise_sum U L) =
  weighted g U + weighted g L.
Proof.
  induction U as [|x U IH]; intros [|y L] g H; simpl in H; try discriminate.
  - unfold weighted. simpl. ring.
  - rewrite !weighted_cons. unfold pairwise_sum. simpl.
    rewrite <- seq_shift, map_map.
    fold (pairwise_sum U L). rewrite (IH L (fun i => g (S i))) by lia. ring.
Qed.

Lemma pairwise_sum_length U L :
  length U = length L -> length (pairwise_sum U L) = length U.
Proof.
  intros H. unfold pairwise_sum. rewrite length_map, length_combine. lia.
Qed.

Lemma pairwise_difference_sum : forall U L,
  length U = length L -> pairwise_difference (pairwise_sum U L) U = L.
Proof.
  unfold pairwise_difference, pairwise_sum.
  induction U as [|x U IH]; intros [|y L] H; simpl in H; try discriminate; auto.
  simpl. f_equal; [ring|]. apply IH. lia.
Qed.

Lemma shape_function_cons a0 U psi :
  shape_function (a0 :: U) psi =
  a0 * (1 - psi) ^ length U
  + weighted (fun i => bernstein (length U) (i + 1) psi) U.
Proof.
  unfold shape_function.
  change (weighted (fun r => bernstein (length (a0 :: U) - 1) r psi) (a0 :: U)
          = a0 * (1 - psi) ^ length U
            + weighted (fun i => bernstein (length U) (i + 1) psi) U).
  replace (length (a0 :: U) - 1)%nat with (length U) by (simpl; lia).
  rewrite weighted_cons. f_equal.
  - unfold bernstein. rewrite Nat.sub_0_r.
    replace (binomial (length U) 0) with 1%nat by (destruct (length U); reflexivity).
    simpl. ring.
  - unfold weighted. apply f_equal. apply map_ext. intros i.
    replace (i + 1)%nat with (S i) by lia. reflexivity.
Qed.

Lemma vertical_gap_shape Au Al dz c psi :
  c <> 0 ->
  vertical_gap Au Al dz c psi / c - psi * dz / c =
  class_function psi * (shape_function Au psi + shape_function Al psi).
Proof.
  intros Hc. unfold vertical_gap, cst_upper, cst_lower.
  replace (psi / 1) with psi by field. field. exact Hc.
Qed.

Section RoundTrip.
Context `{prim : CST_2D} `{la : Linalg}.
Variables (a0 l0 : R) (U L psi_spars : list R) (deltaz c_P : R).

Local Notation Au_P := (a0 :: U).
Local Notation Al_P := (l0 :: L).
Local Notation settled :=
  {| st_AC_u0 := a0; st_Au_C := Au_P; st_c_C := c_P; st_AC_l0 := l0 |}.

Lemma parent_rhs psi :
  c_P <> 0 -> 0 < psi < 1 -> length U = length L ->
  calculate_spar_distance psi Au_P Au_P Al_P deltaz c_P
    = vertical_gap Au_P Al_P deltaz c_P psi ->
  rhs_backwards U Au_P Al_P deltaz c_P settled psi =
  dot (map (fun i => bernstein (length U) (i + 1) psi) (seq 0 (length U)))
    (pairwise_sum U L).
Proof.
  intros Hc Hpsi HL Ht. unfold rhs_backwards, parent_spar_thickness.
  cbn [st_Au_C st_c_C st_AC_u0 st_AC_l0]. rewrite Ht.
  rewrite vertical_gap_shape by exact Hc.
  rewrite dot_pairwise_sum by exact HL.
  rewrite !shape_function_cons. unfold order. rewrite <- HL.
  fold (class_function psi).
  assert (Hd : class_function psi <> 0) by (apply interior_divisor; exact Hpsi).
  field. exact Hd.
Qed.

(** C1.  The child's free upper coefficients are the parent's own
    coefficients 1 to n.  The imported functions do on two identical
    configurations what the geometry says: the baseline chord is the parent
    chord, and the spar distance is the vertical gap of the parent at the
    station; [inv] returns the inverse of the matrix.  Then the backwards
    call needs one turn of the fixed-point loop and returns the parent's
    chord, the parent's lower coefficients and the thicknesses measured on
    the parent, exactly. *)
Theorem round_trip_reproduces_the_parent
  (B' : list (list R))
  (Hc : 0 < c_P)
  (HU : length U = length psi_spars) (HL : length L = length psi_spars)
  (Hin : interior psi_spars)
  (Hchord : calculate_c_baseline c_P Au_P Au_P deltaz = c_P)
  (Hgap : forall psi, In psi psi_spars ->
     calculate_spar_distance psi Au_P Au_P Al_P deltaz c_P
     = vertical_gap Au_P Al_P deltaz c_P psi)
  (Hinv : inv (spec_matrix (length U) psi_spars) = Some B')
  (Hinverse : inverse_of (spec_matrix (length U) psi_spars) B') :
  forall fuel,
    calculate_dependent_shape_coefficients
      U psi_spars Au_P Al_P deltaz c_P (S fuel) "backwards"
    = Ok (Au_P, Al_P, c_P,
          map (fun psi =>
                 calculate_spar_distance psi Au_P Au_P Al_P deltaz c_P)
            psi_spars).
Proof.
  intros fuel.
  assert (Hc' : c_P <> 0) by lra.
  assert (Est : leading_coefficients U Au_P Al_P deltaz c_P (S fuel)
                = Ok settled).
  { apply leading_settled; auto. }
  destruct Hinverse as (HB & _ & Hleft).
  rewrite spec_matrix_length in HB, Hleft.
  rewrite (solve_backwards_Ok U psi_spars Au_P Al_P deltaz c_P (S fuel)
             settled B' Est);
    [| unfold order; lia | exact Hin | exact Hinv | unfold order; lia].
  cbn [st_Au_C st_c_C st_AC_l0].
  assert (Eb : map (rhs_backwards U Au_P Al_P deltaz c_P settled) psi_spars
               = mat_vec (spec_matrix (length U) psi_spars) (pairwise_sum U L)).
  { unfold mat_vec, spec_matrix. rewrite map_map. apply map_ext_in.
    intros psi Hpsi. apply parent_rhs; auto.
    - unfold interior in Hin. rewrite Forall_forall in Hin. auto.
    - congruence. }
  unfold order. rewrite Eb. rewrite Hleft.
  2:{ rewrite pairwise_sum_length by congruence. exact HU. }
  rewrite pairwise_difference_sum by congruence. reflexivity.
Qed.

End RoundTrip.

(** A parent of order 1 with a spar at a quarter of its chord. *)
Lemma round_trip_reproduces_the_parent_witness :
  calculate_dependent_shape_coefficients (prim := rigid) (la := exact_linalg)
    [1] [/ 4] [1; 1] [1; 1] 0 1 1 "backwards"
  = Ok ([1; 1], [1; 1], 1,
        map (fun psi =>
               calculate_spar_distance (CST_2D := rigid) psi [1; 1] [1; 1]
                 [1; 1] 0 1)
          [/ 4]).
Proof.
  assert (Hb : bernstein 1 1 (/ 4) = / 4) by (unfold bernstein; simpl; lra).
  apply (round_trip_reproduces_the_parent (prim := rigid) (la := exact_linalg)
           1 1 [1] [1] [/ 4] 0 1 [[/ / 4]]).
  - lra.
  - reflexivity.
  - reflexivity.
  - apply interior_1. lra.
  - reflexivity.
  - intros psi _. reflexivity.
  - change (cofactor_inv [[bernstein 1 (0 + 1) (/ 4)]] = Some [[/ / 4]]).
    simpl Nat.add. rewrite Hb. apply cofactor_inv_1. lra.
  - change (inverse_of [[bernstein 1 (0 + 1) (/ 4)]] [[/ / 4]]).
    simpl Nat.add. rewrite Hb. apply inverse_of_1. lra.
Defined.

(** ** The tracing fit (C9) and the strain evaluator (C5) *)

(** *** The tracing fit *)

Lemma map_nth_seq2 {A B C} (h : A -> B -> C) (da : A) (db : B) :
  forall (xs : list A) (ys : list B),
  length ys = length xs ->
  map (fun j => h (nth j xs da) (nth j ys db)) (seq 0 (length xs)) =
  map (fun p => h (fst p) (snd p)) (combine xs ys).
Proof.
  induction xs as [|a xs IH]; intros [|b ys] H; simpl in H; try discriminate; auto.
  simpl. f_equal. rewrite <- seq_shift, map_map. apply IH. lia.
Qed.

Lemma fpow_positive x y : 0 < x -> fpow x y = Ok (Rpower x y).
Proof. intros H. unfold fpow. destruct (Rlt_dec 0 x); [reflexivity|contradiction]. Qed.

Lemma Rpower_nonzero x y : Rpower x y <> 0.
Proof. unfold Rpower. apply Rgt_not_eq. apply exp_pos. Qed.

Section TracingFacts.
Context `{la : Linalg}.
Variables (A0 : R) (x y : list R) (N1 N2 chord EndThickness : R).

Local Notation n := (length x).
Local Notation Psi := (map (fun xi => xi / chord) x).
Local Notation Xi := (map (fun yi => yi / chord) y).

Lemma tracing_row_Ok j :
  (j < n)%nat -> length y = n -> interior Psi ->
  tracing_row A0 N1 N2 n Psi Xi (EndThickness / chord) j =
  Ok (map (fun i => bernstein n (i + 1) (nth j Psi 0)) (seq 0 n),
      rhs_tracing A0 N1 N2 chord EndThickness n (nth j x 0) (nth j y 0)).
Proof.
  intros Hj Hy Hin. unfold tracing_row.
  assert (HP : nth_error Psi j = Some (nth j x 0 / chord)).
  { rewrite nth_error_map.
    rewrite (nth_error_nth' x 0) by exact Hj. reflexivity. }
  assert (HX : nth_error Xi j = Some (nth j y 0 / chord)).
  { rewrite nth_error_map.
    rewrite (nth_error_nth' y 0) by lia. reflexivity. }
  assert (Hpsi : 0 < nth j x 0 / chord < 1).
  { unfold interior in Hin. rewrite Forall_forall in Hin. apply Hin.
    eapply nth_error_In. exact HP. }
  rewrite (matrix_row_Ok n Psi j _ HP). cbn [bind].
  rewrite (index_Ok _ _ _ HX), (index_Ok _ _ _ HP). cbn [bind].
  rewrite !fpow_positive by lra. cbn [bind].
  rewrite fdiv_Ok
    by (apply Rmult_integral_contrapositive_currified; apply Rpower_nonzero).
  cbn [bind]. rewrite (nth_error_nth _ _ 0 HP).
  unfold rhs_tracing. do 4 f_equal. unfold Rdiv. ring.
Qed.

(** C9.  With a nonzero chord, as many ordinates as abscissas, every
    [x_i/chord] strictly between 0 and 1 and a matrix that [inv] inverts,
    the fit returns [A0] followed by the product of the inverse of the [n]
    by [n] Bernstein matrix of the points with the right-hand side
    [(y_i/chord - (x_i/chord)*EndThickness/chord)
     / ((x_i/chord)^N1 * (1-x_i/chord)^N2) - A0*(1-x_i/chord)^n]:
    [n+1] coefficients, the last [n] solving the system. *)
Theorem tracing_builds_and_solves_the_bernstein_system
  (T' : list (list R))
  (Hc : chord <> 0) (Hy : length y = length x)
  (Hin : interior (map (fun xi => xi / chord) x))
  (Hinv : inv (spec_matrix (length x) (map (fun xi => xi / chord) x))
          = Some T') :
  let T := spec_matrix (length x) (map (fun xi => xi / chord) x) in
  let t := map (fun p => rhs_tracing A0 N1 N2 chord EndThickness (length x)
                           (fst p) (snd p))
             (combine x y) in
  calculate_shape_coefficients_tracing A0 x y N1 N2 chord EndThickness
    = Ok (A0 :: mat_vec T' t) /\
  length T = length x /\
  (forall j i, (j < length x)%nat -> (i < length x)%nat ->
     nth i (nth j T []) 0 =
     INR (binomial (length x) (i + 1)) * (nth j x 0 / chord) ^ (i + 1)
     * (1 - nth j x 0 / chord) ^ (length x - (i + 1))) /\
  (length T' = length x -> length (A0 :: mat_vec T' t) = S (length x)) /\
  (inverse_of T T' -> mat_vec T (mat_vec T' t) = t).
Proof.
  intros T t. split; [|split; [|split; [|split]]].
  - unfold calculate_shape_coefficients_tracing.
    rewrite (mapM_Ok _ (fun xi => xi / chord))
      by (intros; apply fdiv_Ok; exact Hc).
    cbn [bind].
    rewrite (mapM_Ok _ (fun yi => yi / chord))
      by (intros; apply fdiv_Ok; exact Hc).
    cbn [bind]. rewrite fdiv_Ok by exact Hc. cbn [bind].
    rewrite (mapM_Ok _
      (fun j => (map (fun i => bernstein n (i + 1) (nth j Psi 0)) (seq 0 n),
                 rhs_tracing A0 N1 N2 chord EndThickness n
                   (nth j x 0) (nth j y 0)))).
    2:{ intros j Hj. apply in_seq in Hj. apply tracing_row_Ok; auto. lia. }
    cbn [bind]. rewrite !map_map. cbn [fst snd].
    assert (E1 : map (fun j => map (fun i => bernstein n (i + 1) (nth j Psi 0))
                                 (seq 0 n)) (seq 0 n) = T).
    { unfold T, spec_matrix.
      rewrite <- (map_nth_seq
        (fun psi => map (fun i => bernstein n (i + 1) psi) (seq 0 n)) 0 Psi).
      rewrite length_map. reflexivity. }
    rewrite E1.
    rewrite (map_nth_seq2
      (fun xi yi => rhs_tracing A0 N1 N2 chord EndThickness n xi yi) 0 0 x y Hy).
    unfold inv_or_raise. unfold T. rewrite Hinv. reflexivity.
  - unfold T. rewrite spec_matrix_length, length_map. reflexivity.
  - intros j i Hj Hi. unfold T. rewrite spec_matrix_entry; auto.
    + rewrite (nth_indep _ 0 (0 / chord)) by (rewrite length_map; exact Hj).
      rewrite (map_nth (fun xi => xi / chord) x 0 j). reflexivity.
    + rewrite length_map. exact Hj.
  - intros HT. simpl. rewrite mat_vec_length. congruence.
  - intros (_ & HR & _). apply HR. unfold t, T.
    rewrite length_map, length_combine, spec_matrix_length, length_map. lia.
Qed.

End TracingFacts.

(** The call of the module's own demonstration: leading coefficient [-2],
    one point, a chord of [0.5]. *)
Lemma tracing_builds_and_solves_the_bernstein_system_witness :
  exists A,
    calculate_shape_coefficients_tracing (la := exact_linalg)
      (-2) [0.25] [0.7] 1 1 0.5 1 = Ok A /\ length A = 2%nat.
Proof.
  assert (Hin : interior (map (fun xi => xi / 0.5) [0.25])).
  { apply interior_1. lra. }
  destruct (exact_single (0.25 / 0.5)) as (T' & HT & HL); [lra|].
  destruct (tracing_builds_and_solves_the_bernstein_system (la := exact_linalg)
              (-2) [0.25] [0.7] 1 1 0.5 1 T'
              ltac:(lra) eq_refl Hin HT)
    as (Hrun & _ & _ & Hlen & _).
  eexists. split; [exact Hrun|]. apply Hlen. exact HL.
Defined.

(** *** The strain evaluator *)

(** C5 fails on the code: a flat plate with a chord of 2 and one spar at
    mid-chord, child identical to the parent.  The segments of the parent end
    at the stations 0, 1/2 and the chord, 2; those of the child at 0, 1 and
    2.  The strains are [1] and [-1/3], not zero. *)
Lemma identical_configurations_strain_with_chord_2 :
  calculate_strains (prim := rigid)
    [0; 0] [0; 0] 2 [0; 0] [0; 0] 2 0 [/ 2] [0]
  = Ok ([1; - (1 / 3)], 0).
Proof.
  unfold calculate_strains.
  cbn [length seq mapM psi_flat index nth_error bind].
  simpl calculate_psi_goal. simpl calculate_spar_direction. cbn [fst snd].
  cbn [app length Nat.sub seq mapM initial_length final_length index
       nth_error bind Nat.add].
  simpl calculate_arc_length.
  rewrite !fdiv_Ok by lra. cbn [bind].
  unfold strain. cbn [index nth_error bind length seq mapM].
  rewrite !fdiv_Ok by lra. cbn [bind].
  unfold sum. cbn [fold_left].
  rewrite fdiv_Ok by lra. cbn [bind].
  repeat f_equal; lra.
Qed.

Section UnitChord.
Context `{prim : CST_2D}.
Variables (Au Al : list R) (deltaz : R) (psi_spars spar_thicknesses : list R).

Local Notation stations := ([0] ++ psi_spars ++ [1]).
Local Notation arc i :=
  (calculate_arc_length (nth i stations 0) (nth (i + 1) stations 0) Al deltaz 1).

(** X16.  With a chord of 1 the stations and the lengths along the chord are the
    same numbers, and the evaluator does return zeros for two identical
    configurations, the imported functions mapping a station to itself and
    leaving the spar vertical. *)
Lemma strains_vanish_with_unit_chord :
  (forall psi, In psi psi_spars ->
     calculate_psi_goal psi Au Au deltaz 1 1 = psi) ->
  (forall psi, In psi psi_spars ->
     fst (calculate_spar_direction psi Au Au deltaz 1) = 0) ->
  (length psi_spars <= length spar_thicknesses)%nat ->
  (forall i, (i <= length psi_spars)%nat -> arc i <> 0) ->
  sum (map (fun i => arc i) (seq 0 (length psi_spars + 1))) <> 0 ->
  calculate_strains Au Al 1 Au Al 1 deltaz psi_spars spar_thicknesses =
  Ok (map (fun _ => 0) (seq 0 (length psi_spars + 1)), 0).
Proof.
  intros Hgoal Hdir Hts Harc Hsum. unfold calculate_strains.
  assert (Eflat : mapM (psi_flat Au 1 Au 1 deltaz psi_spars spar_thicknesses)
                    (seq 0 (length psi_spars)) = Ok psi_spars).
  { transitivity (Ok (map (fun j => nth j psi_spars 0)
                        (seq 0 (length psi_spars)))).
    - apply mapM_Ok. intros j Hj. apply in_seq in Hj. unfold psi_flat.
      assert (Hn : nth_error psi_spars j = Some (nth j psi_spars 0))
        by (apply nth_error_nth'; lia).
      rewrite (index_Ok _ _ _ Hn). cbn [bind].
      rewrite (index_Ok spar_thicknesses j (nth j spar_thicknesses 0))
        by (apply nth_error_nth'; lia).
      cbn [bind]. apply nth_error_In in Hn.
      rewrite Hgoal, Hdir by exact Hn. f_equal. ring.
    - f_equal. rewrite (map_nth_seq (fun a => a) 0 psi_spars). apply map_id. }
  rewrite Eflat. cbn [bind].
  assert (Elen : (length stations - 1 = length psi_spars + 1)%nat).
  { rewrite !length_app. simpl. lia. }
  rewrite Elen.
  assert (Hidx : forall i, (i <= length psi_spars + 1)%nat ->
            nth_error stations i = Some (nth i stations 0)).
  { intros i Hi. apply nth_error_nth'. rewrite !length_app. simpl. lia. }
  assert (Ei : mapM (initial_length Al 1 deltaz stations)
                 (seq 0 (length psi_spars + 1))
               = Ok (map (fun i => arc i) (seq 0 (length psi_spars + 1)))).
  { apply mapM_Ok. intros i Hi. apply in_seq in Hi. unfold initial_length.
    rewrite (index_Ok _ _ _ (Hidx i ltac:(lia))). cbn [bind].
    rewrite (index_Ok _ _ _ (Hidx (i + 1)%nat ltac:(lia))). reflexivity. }
  assert (Ef : mapM (final_length 1 Al 1 deltaz stations)
                 (seq 0 (length psi_spars + 1))
               = Ok (map (fun i => arc i) (seq 0 (length psi_spars + 1)))).
  { apply mapM_Ok. intros i Hi. apply in_seq in Hi. unfold final_length.
    rewrite (index_Ok _ _ _ (Hidx i ltac:(lia))). cbn [bind].
    rewrite fdiv_Ok by lra. cbn [bind].
    rewrite (index_Ok _ _ _ (Hidx (i + 1)%nat ltac:(lia))). cbn [bind].
    rewrite fdiv_Ok by lra. cbn [bind]. do 2 f_equal; field. }
  rewrite Ei. cbn [bind]. rewrite Ef. cbn [bind].
  set (Ls := map (fun i => arc i) (seq 0 (length psi_spars + 1))) in *.
  assert (HLs : length Ls = (length psi_spars + 1)%nat).
  { unfold Ls. rewrite length_map, length_seq. reflexivity. }
  rewrite HLs.
  rewrite (mapM_Ok _ (fun _ => 0)).
  2:{ intros i Hi. apply in_seq in Hi. unfold strain.
      assert (Hn : nth_error Ls i = Some (arc i)).
      { unfold Ls. rewrite nth_error_map.
        rewrite (nth_error_nth' _ 0%nat) by (rewrite length_seq; lia).
        rewrite seq_nth by lia. reflexivity. }
      rewrite (index_Ok _ _ _ Hn). cbn [bind].
      rewrite fdiv_Ok by (apply Harc; lia). f_equal. field. apply Harc. lia. }
  cbn [bind]. rewrite fdiv_Ok by exact Hsum. cbn [bind].
  do 2 f_equal. field. exact Hsum.
Qed.

End UnitChord.

(** ** What a returned child keeps of its parent *)

Lemma pairwise_sum_difference : forall A U,
  length A = length U -> pairwise_sum U (pairwise_difference A U) = A.
Proof.
  unfold pairwise_sum, pairwise_difference.
  induction A as [|a A IH]; intros [|u U] H; simpl in H; try discriminate; auto.
  simpl. f_equal; [ring|]. apply IH. lia.
Qed.

Lemma dot_row_weighted (g : nat -> R) V :
  dot (map g (seq 0 (length V))) V = weighted g V.
Proof.
  revert g. induction V as [|v V IH]; intros g; [reflexivity|].
  rewrite weighted_cons. simpl. rewrite <- seq_shift, map_map.
  rewrite (IH (fun i => g (S i))). ring.
Qed.

Lemma iterate_last `{prim : CST_2D} U Au_P dz c_P : forall k a,
  iterate U Au_P dz c_P (S k) a =
  (x <- iterate U Au_P dz c_P k a ;; calculate_AC_u0 U Au_P dz c_P x).
Proof.
  induction k as [|k IH]; intros a.
  - simpl. destruct (calculate_AC_u0 U Au_P dz c_P a); reflexivity.
  - change (iterate U Au_P dz c_P (S (S k)) a)
      with (a' <- calculate_AC_u0 U Au_P dz c_P a ;;
            iterate U Au_P dz c_P (S k) a').
    change (iterate U Au_P dz c_P (S k) a)
      with (a' <- calculate_AC_u0 U Au_P dz c_P a ;;
            iterate U Au_P dz c_P k a').
    destruct (calculate_AC_u0 U Au_P dz c_P a) as [a'| |]; cbn [bind]; auto.
Qed.

Lemma calculate_AC_u0_inv `{prim : CST_2D} U Au_P dz c_P x v :
  calculate_AC_u0 U Au_P dz c_P x = Ok v ->
  exists a0, nth_error Au_P 0 = Some a0 /\
    calculate_c_baseline c_P (x :: U) Au_P dz <> 0 /\
    0 <= c_P / calculate_c_baseline c_P (x :: U) Au_P dz /\
    v = sqrt (c_P / calculate_c_baseline c_P (x :: U) Au_P dz) * a0.
Proof.
  unfold calculate_AC_u0. intros H.
  apply bind_Ok in H as (q & Eq & H). apply fdiv_inv in Eq as [Hc ->].
  apply bind_Ok in H as (s & Es & H). apply fsqrt_inv in Es as [Hq ->].
  apply bind_Ok in H as (a0 & Ea & H). apply index_inv in Ea.
  inversion H. exists a0. auto.
Qed.

Section Kept.
Context `{prim : CST_2D} `{la : Linalg}.
Variables (Au_C_1_to_n psi_spars Au_P Al_P : list R) (deltaz c_P : R).

Local Notation n := (order Au_C_1_to_n).
Local Notation lead := (leading_coefficients Au_C_1_to_n Au_P Al_P deltaz c_P).
Local Notation b_of := (rhs_backwards Au_C_1_to_n Au_P Al_P deltaz c_P).
Local Notation solve := (calculate_dependent_shape_coefficients
                           Au_C_1_to_n psi_spars Au_P Al_P deltaz c_P).

(** X1.  What the backwards branch is for: the child that it returns has,
    at every spar station, a vertical gap between its surfaces equal to the
    thickness recorded for that spar, [inv] having returned the inverse of
    the matrix. *)
Theorem backwards_child_keeps_the_spar_thicknesses
  (fuel : nat) (Au Al : list R) (c : R) (ts : list R)
  (Hrun : calculate_dependent_shape_coefficients
            Au_C_1_to_n psi_spars Au_P Al_P deltaz c_P fuel "backwards"
          = Ok (Au, Al, c, ts))
  (Hinverse : forall B',
      inv (spec_matrix (order Au_C_1_to_n) psi_spars) = Some B' ->
      inverse_of (spec_matrix (order Au_C_1_to_n) psi_spars) B') :
  length ts = length psi_spars /\
  forall j, (j < length psi_spars)%nat ->
    vertical_gap Au Al deltaz c (nth j psi_spars 0) = nth j ts 0.
Proof.
  apply solve_Ok_cases in Hrun as (st & Est & HA & Hc & [[_ H]|[E _]]);
    [|discriminate].
  apply (backwards_Ok_inv _ _ _ _ _ _ _ _ HA) in H
    as (Hn & _ & Hg & B' & Hinv & _ & E).
  inversion E; subst Au Al c ts. clear E.
  destruct (Hinverse B' Hinv) as (HB & HR & _).
  rewrite spec_matrix_length in HB, HR.
  split; [apply length_map|].
  intros j Hj.
  set (b := map (b_of st) psi_spars) in *.
  set (A_bar := mat_vec B' b) in *.
  assert (HAbar : length A_bar = length Au_C_1_to_n).
  { unfold A_bar. rewrite mat_vec_length. unfold order in Hn. congruence. }
  assert (Hb : mat_vec (spec_matrix n psi_spars) A_bar = b).
  { apply HR. unfold b. apply length_map. }
  assert (Hnth : nth_error psi_spars j = Some (nth j psi_spars 0))
    by (apply nth_error_nth'; exact Hj).
  set (psi := nth j psi_spars 0) in *.
  assert (Hrow := f_equal (fun v => nth j v 0) Hb). simpl in Hrow.
  rewrite mat_vec_nth, (spec_matrix_row n psi_spars j psi Hnth) in Hrow.
  unfold b in Hrow.
  rewrite (nth_indep _ 0 (b_of st 0)) in Hrow by (rewrite length_map; exact Hj).
  rewrite (map_nth (b_of st) psi_spars 0 j) in Hrow. fold psi in Hrow.
  rewrite (nth_indep _ 0 (parent_spar_thickness Au_P Al_P deltaz c_P st 0))
    by (rewrite length_map; exact Hj).
  rewrite (map_nth (parent_spar_thickness Au_P Al_P deltaz c_P st) psi_spars 0 j).
  fold psi.
  rewrite <- (pairwise_sum_difference A_bar Au_C_1_to_n HAbar) in Hrow at 1.
  unfold order in Hrow at 1 2.
  rewrite dot_pairwise_sum in Hrow
    by (rewrite pairwise_difference_length; lia).
  rewrite Forall_forall in Hg.
  destruct (Hg psi (nth_error_In _ _ Hnth)) as [_ Hd].
  fold (class_function psi) in Hd.
  assert (Hshape :
    class_function psi
    * (shape_function (st_Au_C st) psi
       + shape_function (st_AC_l0 st :: pairwise_difference A_bar Au_C_1_to_n) psi)
    = parent_spar_thickness Au_P Al_P deltaz c_P st psi / st_c_C st
      - psi * deltaz / st_c_C st).
  { rewrite HA, !shape_function_cons.
    rewrite pairwise_difference_length by lia. rewrite HAbar.
    unfold rhs_backwards in Hrow. fold (class_function psi) in Hrow.
    unfold order in Hrow.
    set (W1 := weighted _ Au_C_1_to_n) in *.
    set (W2 := weighted _ (pairwise_difference A_bar Au_C_1_to_n)) in *.
    set (T := parent_spar_thickness Au_P Al_P deltaz c_P st psi / st_c_C st
              - psi * deltaz / st_c_C st) in *.
    assert (E : W1 + W2 + (st_AC_u0 st + st_AC_l0 st)
                          * (1 - psi) ^ length Au_C_1_to_n
                = T / class_function psi) by lra.
    transitivity (class_function psi * (T / class_function psi));
      [rewrite <- E; ring | field; exact Hd]. }
  rewrite <- (vertical_gap_shape _ _ deltaz (st_c_C st) psi Hc) in Hshape.
  assert (X : vertical_gap (st_Au_C st)
                (st_AC_l0 st :: pairwise_difference A_bar Au_C_1_to_n)
                deltaz (st_c_C st) psi / st_c_C st
              = parent_spar_thickness Au_P Al_P deltaz c_P st psi / st_c_C st)
    by lra.
  apply (Rmult_eq_reg_r (/ st_c_C st)); [exact X|].
  apply Rinv_neq_0_compat. exact Hc.
Qed.

(** X2.  Whatever either mode returns keeps the leading-edge term of the
    lower surface: the square of the leading lower coefficient times the
    chord is the same for the child as for the parent.  The leading upper
    coefficient satisfies the same relation with the baseline chord of the
    value of the iteration before it, which is at most [1e-9] away. *)
Theorem returned_child_keeps_the_leading_edge_terms
  (fuel : nat) (morphing : string) (Au Al : list R) (c : R) (ts : list R)
  (Hrun : calculate_dependent_shape_coefficients
            Au_C_1_to_n psi_spars Au_P Al_P deltaz c_P fuel morphing
          = Ok (Au, Al, c, ts)) :
  nth 0 Al 0 * nth 0 Al 0 * c = nth 0 Al_P 0 * nth 0 Al_P 0 * c_P /\
  exists before,
    Rabs (nth 0 Au 0 - before) <= 1e-9 /\
    nth 0 Au 0 * nth 0 Au 0
    * calculate_c_baseline c_P (before :: Au_C_1_to_n) Au_P deltaz
    = nth 0 Au_P 0 * nth 0 Au_P 0 * c_P.
Proof.
  apply solve_Ok_cases in Hrun as (st & Est & HA & Hc & Hmode).
  pose proof (leading_Ok_inv _ _ _ _ _ _ _ Est)
    as (a0 & l0 & Ha0 & Hl0 & Hloop & _ & HcC & _ & Hq & Hl).
  assert (Hres : Au = st_Au_C st /\ c = st_c_C st /\
                 nth 0 Al 0 = st_AC_l0 st).
  { destruct Hmode as [[_ H]|[_ H]].
    - apply (backwards_Ok_inv _ _ _ _ _ _ _ _ HA) in H
        as (_ & _ & _ & B' & _ & _ & E).
      inversion E. auto.
    - apply forwards_Ok_inv in H as (_ & -> & -> & _ & _ & F & F' & f & _ & _ & ->).
      rewrite <- HcC. auto. }
  destruct Hres as (-> & -> & ->). split.
  - rewrite (nth_error_nth _ _ 0 Hl0), Hl.
    pose proof (sqrt_sqrt _ Hq) as S.
    transitivity (sqrt (c_P / st_c_C st) * sqrt (c_P / st_c_C st)
                  * st_c_C st * (l0 * l0)); [ring|].
    rewrite S. field. exact Hc.
  - apply loop_Ok_inv in Hloop as (k & _ & Ek & (x & x' & Ex & Ex' & Hd) & _);
      [|lra].
    rewrite Ek in Ex'. inversion Ex'; subst x'.
    rewrite iterate_last, Ex in Ek. cbn [bind] in Ek.
    apply calculate_AC_u0_inv in Ek as (a0' & Ha0' & Hc' & Hq' & Hv).
    rewrite Ha0 in Ha0'. inversion Ha0'; subst a0'.
    exists x. rewrite HA. cbn [nth]. split; [exact Hd|].
    rewrite (nth_error_nth _ _ 0 Ha0), Hv.
    pose proof (sqrt_sqrt _ Hq') as S.
    set (cb := calculate_c_baseline c_P (x :: Au_C_1_to_n) Au_P deltaz) in *.
    transitivity (sqrt (c_P / cb) * sqrt (c_P / cb) * cb * (a0 * a0)); [ring|].
    rewrite S. field. exact Hc'.
Qed.

End Kept.

Lemma exact_single_inverse psi B' :
  psi <> 0 ->
  inv (Linalg := exact_linalg) (spec_matrix 1 [psi]) = Some B' ->
  inverse_of (spec_matrix 1 [psi]) B'.
Proof.
  intros Hpsi H.
  assert (Hb : bernstein 1 1 psi = psi) by (unfold bernstein; simpl; ring).
  change (cofactor_inv [[bernstein 1 (0 + 1) psi]] = Some B') in H.
  change (inverse_of [[bernstein 1 (0 + 1) psi]] B').
  simpl Nat.add in *. rewrite Hb in *.
  rewrite cofactor_inv_1 in H by exact Hpsi. inversion H.
  apply inverse_of_1. exact Hpsi.
Qed.

(** A parent of order 1 with a spar at a quarter of its chord. *)
Lemma backwards_child_keeps_the_spar_thicknesses_witness :
  exists Au Al c ts,
    calculate_dependent_shape_coefficients (prim := rigid) (la := exact_linalg)
      [1] [/ 4] [1; 1] [1; 1] 0 1 1 "backwards" = Ok (Au, Al, c, ts) /\
    vertical_gap Au Al 0 c (/ 4) = nth 0 ts 0.
Proof.
  destruct (rigid_backwards_single 1 1 [1] 1 [1] 0 1 (/ 4) 0)
    as ([[[Au Al] c] ts] & Hrun); [lra|lra|].
  exists Au, Al, c, ts. split; [exact Hrun|].
  destruct (backwards_child_keeps_the_spar_thicknesses
              (prim := rigid) (la := exact_linalg)
              [1] [/ 4] [1; 1] [1; 1] 0 1 1 Au Al c ts Hrun) as [_ H].
  - intros B' HB. apply exact_single_inverse; [lra|exact HB].
  - exact (H 0%nat Nat.lt_0_1).
Defined.

(** The same call. *)
Lemma returned_child_keeps_the_leading_edge_terms_witness :
  exists Au Al c ts,
    calculate_dependent_shape_coefficients (prim := rigid) (la := exact_linalg)
      [1] [/ 4] [1; 1] [1; 1] 0 1 1 "backwards" = Ok (Au, Al, c, ts) /\
    nth 0 Al 0 * nth 0 Al 0 * c = 1 * 1 * 1.
Proof.
  destruct (rigid_backwards_single 1 1 [1] 1 [1] 0 1 (/ 4) 0)
    as ([[[Au Al] c] ts] & Hrun); [lra|lra|].
  exists Au, Al, c, ts. split; [exact Hrun|].
  exact (proj1 (returned_child_keeps_the_leading_edge_terms
                  (prim := rigid) (la := exact_linalg)
                  [1] [/ 4] [1; 1] [1; 1] 0 1 1 "backwards" Au Al c ts Hrun)).
Defined.

(** ** No spar at all *)

Section NoSpar.
Context `{prim : CST_2D} `{la : Linalg}.
Variables (Au_P Al_P : list R) (deltaz c_P : R).

(** X3.  With no free coefficient and no spar there is nothing to solve:
    once the leading coefficients are there, both modes return them alone,
    with the baseline chord and no thickness, [inv] taking the empty matrix
    to itself. *)
Theorem no_spar_returns_the_leading_coefficients
  (fuel : nat) (st : leading)
  (Hst : leading_coefficients [] Au_P Al_P deltaz c_P fuel = Ok st)
  (Hinv : inv [] = Some []) :
  calculate_dependent_shape_coefficients [] [] Au_P Al_P deltaz c_P
    fuel "backwards"
  = Ok ([st_AC_u0 st], [st_AC_l0 st], st_c_C st, []) /\
  calculate_dependent_shape_coefficients [] [] Au_P Al_P deltaz c_P
    fuel "forwards"
  = Ok ([st_AC_u0 st], [st_AC_l0 st], st_c_C st, []).
Proof.
  pose proof (leading_Ok_inv _ _ _ _ _ _ _ Hst)
    as (a0 & l0 & _ & _ & _ & HA & HcC & Hc & _).
  split.
  - rewrite solve_backwards, Hst. cbn [bind]. unfold backwards.
    cbn [length seq for_each bind order zeros repeat].
    change (bernstein_matrix 0 []) with (@Ok (list (list R)) []).
    cbn [bind]. unfold inv_or_raise. rewrite Hinv. cbn [bind].
    cbn [mat_vec map length seq mapM bind]. rewrite HA. reflexivity.
  - rewrite solve_forwards, Hst. cbn [bind]. unfold forwards.
    cbn [length seq mapM bind].
    rewrite <- HcC. rewrite fdiv_Ok by exact Hc. cbn [bind].
    cbn [for_each bind order length zeros repeat].
    change (bernstein_matrix 0 []) with (@Ok (list (list R)) []).
    cbn [bind]. unfold inv_or_raise. rewrite Hinv. cbn [bind].
    cbn [mat_vec map length seq mapM bind]. rewrite HA. reflexivity.
Qed.

End NoSpar.

(** A parent reduced to its leading coefficients. *)
Lemma no_spar_returns_the_leading_coefficients_witness :
  calculate_dependent_shape_coefficients (prim := rigid) (la := exact_linalg)
    [] [] [1] [2] 0 1 1 "forwards"
  = Ok ([1], [2], 1, []).
Proof.
  assert (Hinv : inv (Linalg := exact_linalg) [] = Some []).
  { unfold inv, exact_linalg, cofactor_inv, det. simpl.
    destruct (Req_dec_T 1 0) as [E|_]; [lra|reflexivity]. }
  exact (proj2 (no_spar_returns_the_leading_coefficients
                  (prim := rigid) (la := exact_linalg) [1] [2] 0 1 1 _
                  (rigid_leading [] 1 [] 2 [] 0 1 0 R1_neq_R0) Hinv)).
Defined.

(** ** More on the tracing fit *)

Lemma mapM_ext_in {A B} (f g : A -> outcome B) l :
  (forall a, In a l -> f a = g a) -> mapM f l = mapM g l.
Proof.
  induction l as [|a l IH]; intros H; simpl; auto.
  rewrite (H a) by (left; reflexivity).
  rewrite IH by (intros; apply H; right; assumption). reflexivity.
Qed.

Lemma mapM_fdiv_zero l :
  l <> [] -> mapM (fun a => fdiv a 0) l = Raise ZeroDivisionError.
Proof.
  destruct l as [|a l]; [contradiction|]. intros _. simpl. unfold fdiv.
  destruct (Req_dec_T 0 0) as [_|N]; [reflexivity|contradiction].
Qed.

Lemma mapM_raise_at {A B} (f : A -> outcome B) e l1 a l2 :
  (forall b, In b l1 -> exists v, f b = Ok v) -> f a = Raise e ->
  mapM f (l1 ++ a :: l2) = Raise e.
Proof.
  intros H1 Ha. induction l1 as [|b l1 IH]; simpl.
  - rewrite Ha. reflexivity.
  - destruct (H1 b (or_introl eq_refl)) as (v & ->). cbn [bind].
    rewrite IH by (intros; apply H1; right; assumption). reflexivity.
Qed.

Lemma dot_row_weighted_at (g : nat -> R) V m :
  length V = m -> dot (map g (seq 0 m)) V = weighted g V.
Proof. intros <-. apply dot_row_weighted. Qed.

Section TracingMore.
Context `{la : Linalg}.
Variables (A0 : R) (x y : list R) (N1 N2 chord EndThickness : R).

Local Notation n := (length x).
Local Notation Psi := (map (fun xi => xi / chord) x).

Lemma tracing_returns (T' : list (list R)) :
  chord <> 0 -> length y = length x -> interior Psi ->
  inv (spec_matrix n Psi) = Some T' ->
  calculate_shape_coefficients_tracing A0 x y N1 N2 chord EndThickness
  = Ok (A0 :: mat_vec T'
                (map (fun p => rhs_tracing A0 N1 N2 chord EndThickness n
                                 (fst p) (snd p))
                   (combine x y))).
Proof.
  intros Hc Hy Hin Hinv.
  unfold calculate_shape_coefficients_tracing.
  rewrite (mapM_Ok _ (fun xi => xi / chord))
    by (intros; apply fdiv_Ok; exact Hc).
  cbn [bind].
  rewrite (mapM_Ok _ (fun yi => yi / chord))
    by (intros; apply fdiv_Ok; exact Hc).
  cbn [bind]. rewrite fdiv_Ok by exact Hc. cbn [bind].
  rewrite (mapM_Ok _
    (fun j => (map (fun i => bernstein n (i + 1) (nth j Psi 0)) (seq 0 n),
               rhs_tracing A0 N1 N2 chord EndThickness n
                 (nth j x 0) (nth j y 0)))).
  2:{ intros j Hj. apply in_seq in Hj. apply tracing_row_Ok; auto. lia. }
  cbn [bind]. rewrite !map_map. cbn [fst snd].
  assert (E1 : map (fun j => map (fun i => bernstein n (i + 1) (nth j Psi 0))
                               (seq 0 n)) (seq 0 n) = spec_matrix n Psi).
  { unfold spec_matrix.
    rewrite <- (map_nth_seq
      (fun psi => map (fun i => bernstein n (i + 1) psi) (seq 0 n)) 0 Psi).
    rewrite length_map. reflexivity. }
  rewrite E1.
  rewrite (map_nth_seq2
    (fun xi yi => rhs_tracing A0 N1 N2 chord EndThickness n xi yi) 0 0 x y Hy).
  unfold inv_or_raise. rewrite Hinv. reflexivity.
Qed.

(** X4.  What the fit is for: the curve of the coefficients returned, the
    class function [psi^N1 * (1-psi)^N2] times the Bernstein polynomial of
    the coefficients plus the end-thickness term, passes through every
    target point, [inv] having returned the inverse of the matrix. *)
Theorem tracing_passes_through_the_points
  (T' : list (list R))
  (Hc : chord <> 0) (Hy : length y = length x)
  (Hin : interior (map (fun xi => xi / chord) x))
  (Hinv : inv (spec_matrix (length x) (map (fun xi => xi / chord) x))
          = Some T')
  (Hinverse : inverse_of
                (spec_matrix (length x) (map (fun xi => xi / chord) x)) T') :
  exists A,
    calculate_shape_coefficients_tracing A0 x y N1 N2 chord EndThickness
    = Ok A /\
    forall j, (j < length x)%nat ->
      Rpower (nth j x 0 / chord) N1 * Rpower (1 - nth j x 0 / chord) N2
      * shape_function A (nth j x 0 / chord)
      + nth j x 0 / chord * EndThickness / chord
      = nth j y 0 / chord.
Proof.
  eexists. split; [apply (tracing_returns T'); assumption|].
  intros j Hj.
  destruct Hinverse as (HT & HR & _).
  rewrite spec_matrix_length, length_map in HT, HR.
  set (t := map (fun p => rhs_tracing A0 N1 N2 chord EndThickness n
                            (fst p) (snd p)) (combine x y)) in *.
  assert (Ht : length t = n).
  { unfold t. rewrite length_map, length_combine. lia. }
  set (V := mat_vec T' t) in *.
  assert (HV : length V = n) by (unfold V; rewrite mat_vec_length; exact HT).
  assert (HP : nth_error Psi j = Some (nth j x 0 / chord)).
  { rewrite nth_error_map.
    rewrite (nth_error_nth' x 0) by exact Hj. reflexivity. }
  set (P := nth j x 0 / chord) in *.
  assert (Hrow := f_equal (fun v => nth j v 0) (HR t Ht)). simpl in Hrow.
  rewrite mat_vec_nth, (spec_matrix_row n Psi j P HP) in Hrow.
  fold V in Hrow. rewrite (dot_row_weighted_at _ V n HV) in Hrow.
  assert (Etj : nth j t 0 = rhs_tracing A0 N1 N2 chord EndThickness n
                              (nth j x 0) (nth j y 0)).
  { unfold t.
    rewrite <- (map_nth_seq2
      (fun xi yi => rhs_tracing A0 N1 N2 chord EndThickness n xi yi) 0 0 x y Hy).
    rewrite (nth_indep _ 0
      (rhs_tracing A0 N1 N2 chord EndThickness n (nth 0 x 0) (nth 0 y 0)))
      by (rewrite length_map, length_seq; exact Hj).
    rewrite (map_nth (fun k => rhs_tracing A0 N1 N2 chord EndThickness n
                                 (nth k x 0) (nth k y 0)) (seq 0 n) 0%nat j).
    rewrite seq_nth by exact Hj. reflexivity. }
  rewrite Etj in Hrow. unfold rhs_tracing in Hrow. fold P in Hrow.
  rewrite shape_function_cons. rewrite HV in *.
  set (W := weighted _ V) in *.
  set (C := Rpower P N1 * Rpower (1 - P) N2) in *.
  assert (HC : C <> 0).
  { unfold C. apply Rmult_integral_contrapositive_currified;
      apply Rpower_nonzero. }
  set (Y := nth j y 0 / chord - P * EndThickness / chord) in *.
  assert (E : A0 * (1 - P) ^ n + W = Y / C) by lra.
  rewrite E. unfold Y. field. split; [exact Hc|exact HC].
Qed.

(** X5.  The fit reads one ordinate per abscissa and no more: ordinates
    beyond the number of abscissas change nothing, whatever the other
    arguments; with fewer ordinates than abscissas the call ends with an
    [IndexError], for a nonzero chord and every [x_i/chord] inside (0,1). *)
Theorem tracing_reads_one_ordinate_per_abscissa :
  calculate_shape_coefficients_tracing A0 x y N1 N2 chord EndThickness
  = calculate_shape_coefficients_tracing A0 x (firstn (length x) y)
      N1 N2 chord EndThickness /\
  (chord <> 0 -> (length y < length x)%nat ->
   interior (map (fun xi => xi / chord) x) ->
   calculate_shape_coefficients_tracing A0 x y N1 N2 chord EndThickness
   = Raise IndexError).
Proof.
  split.
  - unfold calculate_shape_coefficients_tracing.
    destruct (Req_dec_T chord 0) as [Hz|Hc].
    + subst chord. destruct x as [|x0 xs].
      * cbn [mapM bind length firstn].
        destruct y as [|y0 ys]; [reflexivity|].
        rewrite mapM_fdiv_zero by discriminate. cbn [bind].
        unfold fdiv. destruct (Req_dec_T 0 0) as [_|N]; [reflexivity|contradiction].
      * rewrite mapM_fdiv_zero by discriminate. reflexivity.
    + rewrite (mapM_Ok _ (fun xi => xi / chord))
        by (intros; apply fdiv_Ok; exact Hc).
      cbn [bind].
      rewrite !(mapM_Ok _ (fun yi => yi / chord))
        by (intros; apply fdiv_Ok; exact Hc).
      cbn [bind]. rewrite fdiv_Ok by exact Hc. cbn [bind].
      rewrite (mapM_ext_in
        (tracing_row A0 N1 N2 n Psi (map (fun yi => yi / chord) y)
           (EndThickness / chord))
        (tracing_row A0 N1 N2 n Psi
           (map (fun yi => yi / chord) (firstn n y)) (EndThickness / chord))).
      * reflexivity.
      * intros j Hj. apply in_seq in Hj. unfold tracing_row.
        destruct (matrix_row n Psi j); cbn [bind]; auto.
        unfold index. rewrite !nth_error_map, nth_error_firstn.
        destruct (j <? n)%nat eqn:E; [reflexivity|].
        apply Nat.ltb_ge in E. lia.
  - intros Hc Hy Hin. unfold calculate_shape_coefficients_tracing.
    rewrite (mapM_Ok _ (fun xi => xi / chord))
      by (intros; apply fdiv_Ok; exact Hc).
    cbn [bind].
    rewrite (mapM_Ok _ (fun yi => yi / chord))
      by (intros; apply fdiv_Ok; exact Hc).
    cbn [bind]. rewrite fdiv_Ok by exact Hc. cbn [bind].
    replace n with (length y + S (n - S (length y)))%nat at 2 by lia.
    rewrite seq_app. cbn [seq Nat.add].
    rewrite (mapM_raise_at _ IndexError); [reflexivity| |].
    + intros j Hj. apply in_seq in Hj.
      assert (HP : nth_error Psi j = Some (nth j x 0 / chord)).
      { rewrite nth_error_map.
        rewrite (nth_error_nth' x 0) by lia. reflexivity. }
      assert (Hpsi : 0 < nth j x 0 / chord < 1).
      { unfold interior in Hin. rewrite Forall_forall in Hin. apply Hin.
        eapply nth_error_In. exact HP. }
      unfold tracing_row.
      rewrite (matrix_row_Ok n Psi j _ HP). cbn [bind].
      rewrite (index_Ok _ j (nth j y 0 / chord)).
      2:{ rewrite nth_error_map.
          rewrite (nth_error_nth' y 0) by lia. reflexivity. }
      rewrite (index_Ok _ _ _ HP). cbn [bind].
      rewrite !fpow_positive by lra. cbn [bind].
      rewrite fdiv_Ok
        by (apply Rmult_integral_contrapositive_currified; apply Rpower_nonzero).
      eexists. reflexivity.
    + assert (HP : nth_error Psi (length y)
                   = Some (nth (length y) x 0 / chord)).
      { rewrite nth_error_map.
        rewrite (nth_error_nth' x 0) by lia. reflexivity. }
      unfold tracing_row.
      rewrite (matrix_row_Ok n Psi _ _ HP). cbn [bind].
      unfold index at 1. rewrite nth_error_map.
      replace (nth_error y (length y)) with (@None R)
        by (symmetry; apply nth_error_None; lia).
      reflexivity.
Qed.

End TracingMore.

(** The call of the module's own demonstration. *)
Lemma tracing_passes_through_the_points_witness :
  exists A,
    calculate_shape_coefficients_tracing (la := exact_linalg)
      (-2) [0.25] [0.7] 1 1 0.5 1 = Ok A /\
    Rpower (0.25 / 0.5) 1 * Rpower (1 - 0.25 / 0.5) 1
    * shape_function A (0.25 / 0.5)
    + 0.25 / 0.5 * 1 / 0.5 = 0.7 / 0.5.
Proof.
  assert (Hin : interior (map (fun xi => xi / 0.5) [0.25])).
  { apply interior_1. lra. }
  destruct (exact_single (0.25 / 0.5)) as (T' & HT & HL); [lra|].
  destruct (tracing_passes_through_the_points (la := exact_linalg)
              (-2) [0.25] [0.7] 1 1 0.5 1 T'
              ltac:(lra) eq_refl Hin HT
              (exact_single_inverse (0.25 / 0.5) T' ltac:(lra) HT))
    as (A & Hrun & H).
  exists A. split; [exact Hrun|]. exact (H 0%nat Nat.lt_0_1).
Defined.

(** Two abscissas, no ordinate. *)
Lemma tracing_reads_one_ordinate_per_abscissa_witness :
  calculate_shape_coefficients_tracing (la := exact_linalg)
    (-2) [0.25; 0.3] [] 1 1 0.5 1 = Raise IndexError.
Proof.
  apply (tracing_reads_one_ordinate_per_abscissa (la := exact_linalg)).
  - lra.
  - simpl. lia.
  - apply interior_2; simpl; lra.
Defined.

(** ** More on the strain evaluator *)

Lemma fold_left_Rplus_acc l : forall a, fold_left Rplus l a = a + sum l.
Proof.
  unfold sum. induction l as [|b l IH]; intros a; simpl; [ring|].
  rewrite (IH (a + b)), (IH (0 + b)). ring.
Qed.

Lemma sum_cons a l : sum (a :: l) = a + sum l.
Proof. unfold sum at 1. simpl. rewrite fold_left_Rplus_acc. ring. Qed.

Lemma mapM_seq_nth {B} (f : nat -> outcome B) (d : B) : forall n start bs,
  mapM f (seq start n) = Ok bs ->
  forall i, (i < n)%nat -> f (start + i)%nat = Ok (nth i bs d).
Proof.
  induction n as [|n IH]; intros start bs H i Hi; [lia|].
  simpl in H. apply bind_Ok in H as (b & Eb & H).
  apply bind_Ok in H as (bs' & Ebs & H). inversion H; subst.
  destruct i as [|i]; simpl.
  - rewrite Nat.add_0_r. exact Eb.
  - replace (start + S i)%nat with (S start + i)%nat by lia.
    apply (IH (S start) bs' Ebs). lia.
Qed.

Lemma strains_weighted : forall S L0 F,
  length S = length F -> length L0 = length F ->
  (forall i, (i < length F)%nat ->
     nth i L0 0 <> 0 /\ nth i S 0 = (nth i F 0 - nth i L0 0) / nth i L0 0) ->
  dot S L0 = sum F - sum L0.
Proof.
  induction S as [|s S IH]; intros [|l L0] [|f F] HS HL H;
    simpl in HS, HL; try discriminate.
  - unfold sum. simpl. ring.
  - rewrite !sum_cons. simpl.
    destruct (H 0%nat) as [Hl Hs]; [simpl; lia|]. simpl in Hl, Hs.
    rewrite (IH L0 F) by
      (try lia; intros i Hi; apply (H (Datatypes.S i)); simpl; lia).
    rewrite Hs. field. exact Hl.
Qed.

Lemma strain_Ok_inv L0 Lf i s :
  strain L0 Lf i = Ok s ->
  exists f i0, nth_error Lf i = Some f /\ nth_error L0 i = Some i0 /\
    i0 <> 0 /\ s = (f - i0) / i0.
Proof.
  unfold strain. intros H.
  apply bind_Ok in H as (f & Ef & H). apply index_inv in Ef.
  apply bind_Ok in H as (i0 & E0 & H). apply index_inv in E0.
  apply bind_Ok in H as (i1 & E1 & H). apply index_inv in E1.
  rewrite E0 in E1. inversion E1; subst i1.
  apply fdiv_inv in H as [Hi ->]. exists f, i0. auto.
Qed.

Section StrainsMore.
Context `{prim : CST_2D}.
Variables (Au_P Al_P : list R) (c_P : R) (Au_C Al_C : list R) (c_C : R)
  (deltaz : R) (psi_spars spar_thicknesses : list R).

Local Notation stations := ([0] ++ psi_spars ++ [c_P]).

Lemma initial_lengths_Ok :
  mapM (initial_length Al_P c_P deltaz stations)
    (seq 0 (length stations - 1))
  = Ok (map (fun i => calculate_arc_length (nth i stations 0)
                        (nth (i + 1) stations 0) Al_P deltaz c_P)
          (seq 0 (length psi_spars + 1))).
Proof.
  assert (Elen : (length stations - 1 = length psi_spars + 1)%nat).
  { rewrite !length_app. simpl. lia. }
  rewrite Elen. apply mapM_Ok. intros i Hi. apply in_seq in Hi.
  unfold initial_length.
  assert (Hidx : forall k, (k <= length psi_spars + 1)%nat ->
            nth_error stations k = Some (nth k stations 0)).
  { intros k Hk. apply nth_error_nth'. rewrite !length_app. simpl. lia. }
  rewrite (index_Ok _ _ _ (Hidx i ltac:(lia))). cbn [bind].
  rewrite (index_Ok _ _ _ (Hidx (i + 1)%nat ltac:(lia))). reflexivity.
Qed.

Lemma psi_flats_Ok (ts : list R) :
  (length psi_spars <= length ts)%nat ->
  exists flats,
    mapM (psi_flat Au_P c_P Au_C c_C deltaz psi_spars ts)
      (seq 0 (length psi_spars)) = Ok flats /\
    length flats = length psi_spars.
Proof.
  intros Hts. eexists. split.
  - apply (mapM_Ok _ (fun j =>
      calculate_psi_goal (nth j psi_spars 0) Au_P Au_C deltaz c_P c_C * c_C
      - nth j ts 0
        * fst (calculate_spar_direction (nth j psi_spars 0) Au_P Au_C
                 deltaz c_C))).
    intros j Hj. apply in_seq in Hj. unfold psi_flat.
    rewrite (index_Ok psi_spars j (nth j psi_spars 0))
      by (apply nth_error_nth'; lia).
    cbn [bind].
    rewrite (index_Ok ts j (nth j ts 0)) by (apply nth_error_nth'; lia).
    reflexivity.
  - rewrite length_map, length_seq. reflexivity.
Qed.

Lemma psi_flats_short :
  (length spar_thicknesses < length psi_spars)%nat ->
  mapM (psi_flat Au_P c_P Au_C c_C deltaz psi_spars spar_thicknesses)
    (seq 0 (length psi_spars)) = Raise IndexError.
Proof.
  intros Hts.
  replace (length psi_spars)
    with (length spar_thicknesses
          + S (length psi_spars - S (length spar_thicknesses)))%nat at 1
    by lia.
  rewrite seq_app. cbn [seq Nat.add].
  apply mapM_raise_at.
  - intros j Hj. apply in_seq in Hj. unfold psi_flat.
    rewrite (index_Ok psi_spars j (nth j psi_spars 0))
      by (apply nth_error_nth'; lia).
    cbn [bind].
    rewrite (index_Ok spar_thicknesses j (nth j spar_thicknesses 0))
      by (apply nth_error_nth'; lia).
    eexists. reflexivity.
  - unfold psi_flat.
    rewrite (index_Ok psi_spars _ (nth (length spar_thicknesses) psi_spars 0))
      by (apply nth_error_nth'; lia).
    cbn [bind]. unfold index.
    replace (nth_error spar_thicknesses (length spar_thicknesses))
      with (@None R) by (symmetry; apply nth_error_None; lia).
    reflexivity.
Qed.

(** What a returned call has computed. *)
Lemma strains_Ok_parts strains av :
  calculate_strains Au_P Al_P c_P Au_C Al_C c_C deltaz psi_spars
    spar_thicknesses = Ok (strains, av) ->
  let initial :=
    map (fun i => calculate_arc_length (nth i stations 0)
                    (nth (i + 1) stations 0) Al_P deltaz c_P)
      (seq 0 (length psi_spars + 1)) in
  exists final,
    length final = (length psi_spars + 1)%nat /\
    length strains = length final /\
    (forall i, (i < length final)%nat ->
       nth i initial 0 <> 0 /\
       nth i strains 0 = (nth i final 0 - nth i initial 0) / nth i initial 0) /\
    c_C <> 0 /\ sum initial <> 0 /\
    av = (sum final - sum initial) / sum initial.
Proof.
  intros Hrun initial. unfold calculate_strains in Hrun.
  apply bind_Ok in Hrun as (flats & Eflats & Hrun).
  rewrite initial_lengths_Ok in Hrun. cbn [bind] in Hrun. fold initial in Hrun.
  apply bind_Ok in Hrun as (final & Efinal & Hrun).
  apply bind_Ok in Hrun as (ss & Ess & Hrun).
  apply bind_Ok in Hrun as (a & Ea & Hrun).
  inversion Hrun; subst ss a. clear Hrun.
  apply fdiv_inv in Ea as [Hsum Eav].
  pose proof (mapM_length _ _ _ Eflats) as Lflats. rewrite length_seq in Lflats.
  pose proof (mapM_length _ _ _ Efinal) as Lfinal.
  rewrite length_seq, !length_app in Lfinal. simpl in Lfinal.
  rewrite Lflats in Lfinal.
  pose proof (mapM_length _ _ _ Ess) as Lss. rewrite length_seq in Lss.
  exists final. split; [lia|]. split; [exact Lss|]. split.
  { intros i Hlt.
    pose proof (mapM_seq_nth _ 0 _ _ _ Ess i Hlt) as Es. simpl in Es.
    apply strain_Ok_inv in Es as (f & i0 & Ef & E0 & Hnz & Es).
    rewrite (nth_error_nth _ _ 0 Ef), (nth_error_nth _ _ 0 E0). auto. }
  split; [|split; [exact Hsum|exact Eav]].
  (* the first final length divides by the child chord *)
  assert (E0 := mapM_seq_nth _ 0 _ 0%nat _ Efinal 0%nat).
  rewrite !length_app in E0. simpl in E0. specialize (E0 ltac:(lia)).
  unfold final_length in E0. cbn [index nth_error bind app] in E0.
  apply bind_Ok in E0 as (a' & Ea' & _). apply fdiv_inv in Ea' as [Hc _].
  exact Hc.
Qed.

(** X6.  Whenever the strain evaluator returns, it returns one strain per
    segment between consecutive stations (one more than there are spars),
    the child chord and all initial segment lengths are nonzero, and the
    average strain is the mean of the segment strains weighted by the
    initial lengths of the segments. *)
Theorem average_strain_is_the_weighted_mean (strains : list R) (av : R)
  (Hrun : calculate_strains Au_P Al_P c_P Au_C Al_C c_C deltaz psi_spars
            spar_thicknesses = Ok (strains, av)) :
  let initial :=
    map (fun i => calculate_arc_length (nth i ([0] ++ psi_spars ++ [c_P]) 0)
                    (nth (i + 1) ([0] ++ psi_spars ++ [c_P]) 0)
                    Al_P deltaz c_P)
      (seq 0 (length psi_spars + 1)) in
  length strains = (length psi_spars + 1)%nat /\
  c_C <> 0 /\
  Forall (fun l => l <> 0) initial /\
  sum initial <> 0 /\
  av = dot strains initial / sum initial.
Proof.
  intros initial.
  destruct (strains_Ok_parts _ _ Hrun)
    as (final & Lfin & Lss & Hi & Hc & Hsum & Eav).
  fold initial in Hi, Hsum, Eav.
  assert (Linit : length initial = (length psi_spars + 1)%nat).
  { unfold initial. rewrite length_map, length_seq. reflexivity. }
  split; [lia|]. split; [exact Hc|]. split.
  - apply Forall_forall. intros l Hl.
    apply (In_nth _ _ 0) in Hl as (i & Hlt & <-).
    apply Hi. lia.
  - split; [exact Hsum|].
    rewrite Eav. f_equal. symmetry.
    apply strains_weighted; [lia|lia|exact Hi].
Qed.

(** X7.  The error behaviour of the strain evaluator.  A thickness list
    shorter than the spar list ends the call with an [IndexError]; given
    enough thicknesses, a child chord of zero ends it with a
    [ZeroDivisionError]; and thicknesses beyond the number of spars are
    never read. *)
Theorem strains_error_behaviour :
  ((length spar_thicknesses < length psi_spars)%nat ->
   calculate_strains Au_P Al_P c_P Au_C Al_C c_C deltaz psi_spars
     spar_thicknesses = Raise IndexError) /\
  ((length psi_spars <= length spar_thicknesses)%nat -> c_C = 0 ->
   calculate_strains Au_P Al_P c_P Au_C Al_C c_C deltaz psi_spars
     spar_thicknesses = Raise ZeroDivisionError) /\
  calculate_strains Au_P Al_P c_P Au_C Al_C c_C deltaz psi_spars
    spar_thicknesses
  = calculate_strains Au_P Al_P c_P Au_C Al_C c_C deltaz psi_spars
      (firstn (length psi_spars) spar_thicknesses).
Proof.
  split; [|split].
  - intros Hts. unfold calculate_strains.
    rewrite psi_flats_short by exact Hts. reflexivity.
  - intros Hts Hc. unfold calculate_strains.
    destruct (psi_flats_Ok spar_thicknesses Hts) as (flats & -> & Lflats).
    cbn [bind]. rewrite initial_lengths_Ok. cbn [bind].
    assert (E : mapM (final_length c_P Al_C c_C deltaz ([0] ++ flats ++ [c_C]))
                  (seq 0 (length ([0] ++ flats ++ [c_C]) - 1))
                = Raise ZeroDivisionError).
    { rewrite !length_app. cbn [length].
      replace (1 + (length flats + 1) - 1)%nat with (S (length flats)) by lia.
      cbn [seq mapM]. unfold final_length.
      cbn [app index nth_error bind]. rewrite Hc. unfold fdiv.
      destruct (Req_dec_T 0 0) as [_|N]; [reflexivity|contradiction]. }
    rewrite E. reflexivity.
  - unfold calculate_strains. f_equal.
    apply mapM_ext_in. intros j Hj. apply in_seq in Hj. unfold psi_flat.
    destruct (index psi_spars j); cbn [bind]; auto.
    unfold index. rewrite nth_error_firstn.
    destruct (j <? length psi_spars)%nat eqn:E; [reflexivity|].
    apply Nat.ltb_ge in E. lia.
Qed.

(** X18.  When the strain evaluator returns: exactly when there are at
    least as many thicknesses as spars, the child chord is not zero, no
    initial segment has length zero and the initial lengths do not add up to
    zero. *)
Theorem strains_return_exactly_when :
  let initial :=
    map (fun i => calculate_arc_length (nth i ([0] ++ psi_spars ++ [c_P]) 0)
                    (nth (i + 1) ([0] ++ psi_spars ++ [c_P]) 0)
                    Al_P deltaz c_P)
      (seq 0 (length psi_spars + 1)) in
  (exists strains av,
     calculate_strains Au_P Al_P c_P Au_C Al_C c_C deltaz psi_spars
       spar_thicknesses = Ok (strains, av)) <->
  ((length psi_spars <= length spar_thicknesses)%nat /\
   c_C <> 0 /\
   Forall (fun l => l <> 0) initial /\
   sum initial <> 0).
Proof.
  intros initial.
  assert (Linit : length initial = (length psi_spars + 1)%nat).
  { unfold initial. rewrite length_map, length_seq. reflexivity. }
  split.
  - intros (strains & av & Hrun).
    destruct (strains_Ok_parts _ _ Hrun)
      as (final & Lfin & _ & Hi & Hc & Hsum & _).
    fold initial in Hi, Hsum.
    split.
    { destruct (le_lt_dec (length psi_spars) (length spar_thicknesses))
        as [G|G]; [exact G|].
      unfold calculate_strains in Hrun.
      rewrite psi_flats_short in Hrun by exact G. discriminate. }
    split; [exact Hc|]. split; [|exact Hsum].
    apply Forall_forall. intros l Hl.
    apply (In_nth _ _ 0) in Hl as (i & Hlt & <-).
    apply Hi. lia.
  - intros (Hts & Hc & Hnz & Hsum).
    unfold calculate_strains.
    destruct (psi_flats_Ok spar_thicknesses Hts) as (flats & -> & Lflats).
    cbn [bind]. rewrite initial_lengths_Ok. cbn [bind]. fold initial.
    set (fl := [0] ++ flats ++ [c_C]).
    assert (Lfl : (length fl - 1 = length psi_spars + 1)%nat).
    { unfold fl. rewrite !length_app. simpl. lia. }
    rewrite Lfl.
    rewrite (mapM_Ok _ (fun i =>
      calculate_arc_length (nth i fl 0 * c_P / c_C)
        (nth (i + 1) fl 0 * c_P / c_C) Al_C deltaz c_C)).
    2:{ intros i Hi. apply in_seq in Hi. unfold final_length.
        rewrite (index_Ok fl i (nth i fl 0)) by (apply nth_error_nth'; lia).
        cbn [bind]. rewrite fdiv_Ok by exact Hc. cbn [bind].
        rewrite (index_Ok fl (i + 1) (nth (i + 1) fl 0))
          by (apply nth_error_nth'; lia).
        cbn [bind]. rewrite fdiv_Ok by exact Hc. reflexivity. }
    cbn [bind]. rewrite length_map, length_seq.
    set (final := map _ (seq 0 (length psi_spars + 1))).
    assert (Lfinal : length final = (length psi_spars + 1)%nat).
    { unfold final. rewrite length_map, length_seq. reflexivity. }
    rewrite (mapM_Ok _ (fun i => (nth i final 0 - nth i initial 0)
                                 / nth i initial 0)).
    2:{ intros i Hi. apply in_seq in Hi. unfold strain.
        rewrite (index_Ok final i (nth i final 0))
          by (apply nth_error_nth'; lia).
        cbn [bind].
        rewrite (index_Ok initial i (nth i initial 0))
          by (apply nth_error_nth'; lia).
        cbn [bind]. apply fdiv_Ok.
        rewrite Forall_forall in Hnz. apply Hnz. apply nth_In. lia. }
    cbn [bind]. rewrite fdiv_Ok by exact Hsum. cbn [bind].
    do 2 eexists. reflexivity.
Qed.

End StrainsMore.

(** A parent of chord 1 stretched to a child of chord 2, one spar at
    mid-chord: both segments double, and so does the average. *)
Lemma stretched_plate_strains :
  calculate_strains (prim := rigid)
    [0; 0] [0; 0] 1 [0; 0] [0; 0] 2 0 [/ 2] [0]
  = Ok ([1; 1], 1).
Proof.
  unfold calculate_strains.
  cbn [length seq mapM psi_flat index nth_error bind].
  simpl calculate_psi_goal. simpl calculate_spar_direction. cbn [fst snd].
  cbn [app length Nat.sub seq mapM initial_length final_length index
       nth_error bind Nat.add].
  simpl calculate_arc_length.
  rewrite !fdiv_Ok by lra. cbn [bind].
  unfold strain. cbn [index nth_error bind length seq mapM].
  rewrite !fdiv_Ok by lra. cbn [bind].
  unfold sum. cbn [fold_left].
  rewrite fdiv_Ok by lra. cbn [bind].
  repeat f_equal; lra.
Qed.

Lemma average_strain_is_the_weighted_mean_witness :
  let initial :=
    map (fun i => calculate_arc_length (CST_2D := rigid)
                    (nth i ([0] ++ [/ 2] ++ [1]) 0)
                    (nth (i + 1) ([0] ++ [/ 2] ++ [1]) 0) [0; 0] 0 1)
      (seq 0 (length [/ 2] + 1)) in
  length [1; 1] = (length [/ 2] + 1)%nat /\
  2 <> 0 /\
  Forall (fun l => l <> 0) initial /\
  sum initial <> 0 /\
  1 = dot [1; 1] initial / sum initial.
Proof.
  exact (average_strain_is_the_weighted_mean (prim := rigid)
           [0; 0] [0; 0] 1 [0; 0] [0; 0] 2 0 [/ 2] [0] [1; 1] 1
           stretched_plate_strains).
Defined.

(** ** The inner function [K] *)

(** X8.  [K(r,n)] is the binomial coefficient for [r <= n], the same for
    [r] and [n - r]; for [r > n] the factorial of a negative number ends the
    call, and no argument makes it divide by zero. *)
Theorem K_is_the_binomial_coefficient (r n : nat) :
  ((r <= n)%nat ->
     K r n = Ok (INR (binomial n r)) /\ K (n - r) n = K r n) /\
  ((n < r)%nat -> K r n = Raise DomainError) /\
  K r n <> Raise ZeroDivisionError.
Proof.
  split; [|split].
  - intros H. split; [apply K_Ok; exact H|].
    unfold K.
    destruct (n <? n - r)%nat eqn:E1; [apply Nat.ltb_lt in E1; lia|].
    destruct (n <? r)%nat eqn:E2; [apply Nat.ltb_lt in E2; lia|].
    replace (n - (n - r))%nat with r by lia.
    rewrite (Nat.mul_comm (fact (n - r))). reflexivity.
  - intros H. unfold K. apply Nat.ltb_lt in H. rewrite H. reflexivity.
  - apply K_not_zero_division.
Qed.

(** ** Edge behaviour of the solver *)

Section SolverEdges.
Context `{prim : CST_2D} `{la : Linalg}.
Variables (Au_C_1_to_n psi_spars Au_P Al_P : list R) (deltaz c_P : R).

(** X9.  Without a parent upper coefficient the solver ends with an
    [IndexError] before anything else happens; without a parent lower
    coefficient, or with a direction other than ['backwards'] and
    ['forwards'], it never returns a result. *)
Theorem solver_needs_its_inputs (fuel : nat) (morphing : string) :
  calculate_dependent_shape_coefficients Au_C_1_to_n psi_spars [] Al_P
    deltaz c_P fuel morphing = Raise IndexError /\
  (forall r,
     calculate_dependent_shape_coefficients Au_C_1_to_n psi_spars Au_P []
       deltaz c_P fuel morphing <> Ok r) /\
  (morphing <> "backwards"%string -> morphing <> "forwards"%string ->
   forall r,
     calculate_dependent_shape_coefficients Au_C_1_to_n psi_spars Au_P Al_P
       deltaz c_P fuel morphing <> Ok r).
Proof.
  split; [reflexivity|]. split.
  - intros r H. unfold calculate_dependent_shape_coefficients in H.
    apply bind_Ok in H as (st & Hst & _).
    unfold leading_coefficients in Hst.
    apply bind_Ok in Hst as (a0 & _ & Hst).
    apply bind_Ok in Hst as (u0 & _ & Hst).
    apply bind_Ok in Hst as (q & _ & Hst).
    apply bind_Ok in Hst as (s & _ & Hst).
    apply bind_Ok in Hst as (l0 & El0 & _). discriminate.
  - intros Hb Hf r H. unfold calculate_dependent_shape_coefficients in H.
    apply bind_Ok in H as (st & _ & H).
    apply String.eqb_neq in Hb, Hf. rewrite Hb, Hf in H. discriminate.
Qed.

End SolverEdges.

(** ** The spar feet of the forwards branch *)

Lemma index_nth l i (a : R) : index l i = Ok a -> a = nth i l 0.
Proof. intros H. apply index_inv in H. symmetry. apply nth_error_nth. exact H. Qed.

Lemma set_item_prefix_inv l1 k v rest l' :
  length l1 = k ->
  set_item (l1 ++ zeros rest) k v = Ok l' ->
  (0 < rest)%nat /\ l' = l1 ++ v :: zeros (rest - 1).
Proof.
  intros L H. pose proof (set_item_Ok_inv _ _ _ _ H) as [Hk _].
  rewrite length_app in Hk. unfold zeros in Hk. rewrite repeat_length in Hk.
  split; [lia|].
  destruct rest as [|rest]; [lia|].
  unfold zeros in H. rewrite repeat_S_app in H.
  rewrite (set_item_at _ _ _ k _ L) in H. inversion H.
  simpl. rewrite Nat.sub_0_r. reflexivity.
Qed.

Section Feet.
Context `{prim : CST_2D} `{la : Linalg}.
Variables (Au_C_1_to_n psi_spars Au_P Al_P : list R) (deltaz c_P : R).

Local Notation n := (order Au_C_1_to_n).
Local Notation fstep := (forwards_step Au_C_1_to_n psi_spars Au_P Al_P deltaz c_P).
Local Notation forw := (forwards Au_C_1_to_n psi_spars Au_P Al_P deltaz c_P).
Local Notation pus A c := (psi_upper_children psi_spars Au_P deltaz c_P A c).
Local Notation xus A c := (xi_upper_children psi_spars Au_P deltaz c_P A c).
Local Notation foot_psi A c := (psi_l psi_spars Au_P Al_P deltaz c_P A c).
Local Notation foot_xi A c := (xi_l psi_spars Au_P Al_P deltaz c_P A c).
Local Notation rhs A c := (rhs_forwards psi_spars Au_P Al_P deltaz c_P A c).

Lemma fstep_feet st c ts pl f j ts' pl' f' :
  fstep st c (pus (st_Au_C st) c) (xus (st_Au_C st) c) (ts, pl, f) j
    = Ok (ts', pl', f') ->
  c <> 0 /\ pl' = pl ++ [foot_psi (st_Au_C st) c j] /\
  0 <= foot_psi (st_Au_C st) c j /\
  2 * sqrt (foot_psi (st_Au_C st) c j) * (foot_psi (st_Au_C st) c j - 1) <> 0 /\
  set_item f j (rhs (st_Au_C st) c n (st_AC_l0 st) j) = Ok f'.
Proof.
  unfold forwards_step. intros H.
  apply bind_Ok in H as (h1 & E1 & H). apply fdiv_inv in E1 as [HcP ->].
  apply bind_Ok in H as (xu & Exu & H). apply index_nth in Exu.
  apply bind_Ok in H as (xl & Exl & H). apply index_nth in Exl.
  apply bind_Ok in H as (p & Ep & H). apply index_nth in Ep.
  apply bind_Ok in H as (pu & Epu & H). apply index_nth in Epu.
  apply bind_Ok in H as (d & Ed & H). apply fdiv_inv in Ed as [Hc ->].
  apply bind_Ok in H as (xu' & Exu' & H). apply index_nth in Exu'.
  apply bind_Ok in H as (x1 & Ex1 & H). apply fdiv_inv in Ex1 as [_ ->].
  apply bind_Ok in H as (h & Eh & H). apply fsqrt_inv in Eh as [H0 ->].
  apply bind_Ok in H as (x2 & Ex2 & H). apply fdiv_inv in Ex2 as [Hd ->].
  apply bind_Ok in H as (f1 & Ef & H).
  inversion H; subst ts' pl' f1. clear H.
  subst xu xl p pu xu'.
  fold (xi_parent psi_spars Au_P Al_P deltaz c_P) in *.
  fold (delta_P psi_spars Au_P Al_P deltaz c_P j) in *.
  fold (foot_psi (st_Au_C st) c j) in *.
  fold (foot_xi (st_Au_C st) c j) in *.
  split; [exact Hc|]. split; [reflexivity|]. split; [exact H0|].
  split; [exact Hd|]. exact Ef.
Qed.

Lemma forwards_loop_feet st c : forall k ts pl f,
  for_each (fstep st c (pus (st_Au_C st) c) (xus (st_Au_C st) c))
    ([], [], zeros n) (seq 0 k) = Ok (ts, pl, f) ->
  (k <= n)%nat /\ ((0 < k)%nat -> c <> 0) /\
  pl = map (foot_psi (st_Au_C st) c) (seq 0 k) /\
  f = map (rhs (st_Au_C st) c n (st_AC_l0 st)) (seq 0 k) ++ zeros (n - k) /\
  forall j, (j < k)%nat ->
    0 <= foot_psi (st_Au_C st) c j /\
    2 * sqrt (foot_psi (st_Au_C st) c j)
      * (foot_psi (st_Au_C st) c j - 1) <> 0.
Proof.
  induction k as [|k IH]; intros ts pl f H.
  - simpl in H. inversion H. rewrite Nat.sub_0_r.
    repeat split; auto; lia.
  - rewrite seq_S, for_each_app in H. simpl Nat.add in H.
    apply bind_Ok in H as ([[ts1 pl1] f1] & E1 & H). cbn [for_each] in H.
    apply bind_Ok in H as ([[ts2 pl2] f2] & H & E2). inversion E2; subst.
    apply IH in E1 as (Hk & _ & -> & -> & Hgood).
    apply fstep_feet in H as (Hc & -> & H0 & Hd & Hset).
    apply set_item_prefix_inv in Hset as [Hrest ->];
      [|rewrite length_map, length_seq; reflexivity].
    split; [lia|]. split; [auto|]. split.
    { rewrite seq_S, map_app. reflexivity. }
    split.
    { rewrite seq_S, map_app. simpl. rewrite <- app_assoc. simpl.
      replace (n - k - 1)%nat with (n - S k)%nat by lia. reflexivity. }
    intros j Hj. destruct (Nat.eq_dec j k) as [->|Hne]; [auto|].
    apply Hgood. lia.
Qed.

Lemma psi_upper_children_Ok A c :
  mapM (fun j => p <- index psi_spars j ;;
                 Ok (calculate_psi_goal p Au_P A deltaz c_P c))
    (seq 0 (length psi_spars)) = Ok (pus A c).
Proof.
  unfold psi_upper_children.
  rewrite <- (map_nth_seq
                (fun p => calculate_psi_goal p Au_P A deltaz c_P c) 0 psi_spars).
  apply mapM_Ok. intros j Hj. apply in_seq in Hj.
  rewrite (index_Ok psi_spars j (nth j psi_spars 0))
    by (apply nth_error_nth'; lia).
  reflexivity.
Qed.

(** What a returned forwards run has computed. *)
Lemma forwards_feet_inv st Au Al c ts :
  forw st = Ok (Au, Al, c, ts) ->
  length psi_spars = n /\ Au = st_Au_C st /\
  c = calculate_c_baseline c_P (st_Au_C st) Au_P deltaz /\ c <> 0 /\
  (forall j, (j < n)%nat ->
     0 <= foot_psi Au c j /\
     2 * sqrt (foot_psi Au c j) * (foot_psi Au c j - 1) <> 0) /\
  exists F',
    inv (spec_matrix n (map (foot_psi Au c) (seq 0 n))) = Some F' /\
    Al = st_AC_l0 st
         :: mat_vec F' (map (rhs Au c n (st_AC_l0 st)) (seq 0 n)).
Proof.
  unfold forwards. intros H.
  rewrite psi_upper_children_Ok in H. cbn [bind] in H.
  apply bind_Ok in H as (g & Eg & H). apply fdiv_inv in Eg as [Hc ->].
  fold (xus (st_Au_C st)
          (calculate_c_baseline c_P (st_Au_C st) Au_P deltaz)) in H.
  apply bind_Ok in H as ([[ts1 pl1] f1] & Eloop & H).
  apply forwards_loop_feet in Eloop as (Hle & _ & -> & -> & Hgood).
  apply bind_Ok in H as (F & EF & H).
  assert (HL : length psi_spars = n).
  { destruct (le_lt_dec n (length psi_spars)) as [G|G]; [lia|].
    rewrite bernstein_matrix_short in EF
      by (rewrite length_map, length_seq; lia).
    discriminate. }
  rewrite HL in *.
  rewrite bernstein_matrix_Ok in EF
    by (rewrite length_map, length_seq; reflexivity).
  inversion EF; subst F. clear EF.
  apply bind_Ok in H as (F' & EI & H). unfold inv_or_raise in EI.
  destruct (inv _) as [F0|] eqn:Hinv; [|discriminate]. inversion EI; subst F0.
  rewrite mapM_index_all in H. cbn [bind] in H. inversion H; subst.
  rewrite Nat.sub_diag, app_nil_r.
  repeat split; auto. 
  - apply Hgood; assumption.
  - apply Hgood; assumption.
  - exists F'. split; [exact Hinv|reflexivity].
Qed.

(** X10.  What the forwards branch is for: in the child that it returns,
    the foot of every spar, reached from the upper surface along the spar
    direction, lies on the lower surface, [inv] having returned the inverse
    of the matrix. *)
Theorem forwards_child_passes_through_the_spar_feet
  (fuel : nat) (Au Al : list R) (c : R) (ts : list R)
  (Hrun : calculate_dependent_shape_coefficients
            Au_C_1_to_n psi_spars Au_P Al_P deltaz c_P fuel "forwards"
          = Ok (Au, Al, c, ts))
  (Hinverse : forall F',
      inv (spec_matrix (order Au_C_1_to_n)
             (map (psi_l psi_spars Au_P Al_P deltaz c_P Au c)
                (seq 0 (order Au_C_1_to_n)))) = Some F' ->
      inverse_of (spec_matrix (order Au_C_1_to_n)
                    (map (psi_l psi_spars Au_P Al_P deltaz c_P Au c)
                       (seq 0 (order Au_C_1_to_n)))) F') :
  length psi_spars = order Au_C_1_to_n /\
  forall j, (j < length psi_spars)%nat ->
    cst_lower Al (deltaz / 2 / c) 1 (psi_l psi_spars Au_P Al_P deltaz c_P Au c j)
    = xi_l psi_spars Au_P Al_P deltaz c_P Au c j.
Proof.
  apply solve_Ok_cases in Hrun as (st & Est & HA & _ & [[E _]|[_ H]]);
    [discriminate|].
  apply forwards_feet_inv in H as (Hn & EAu & Ec & Hc & Hgood & F' & Hinv & EAl).
  split; [exact Hn|]. intros j Hj. rewrite Hn in Hj.
  destruct (Hinverse F' Hinv) as (HF & HR & _).
  rewrite spec_matrix_length, length_map, length_seq in HF, HR.
  set (b := map (rhs Au c n (st_AC_l0 st)) (seq 0 n)) in *.
  set (A := mat_vec F' b) in *.
  assert (HAlen : length A = n).
  { unfold A. rewrite mat_vec_length. exact HF. }
  assert (Hb : mat_vec (spec_matrix n (map (foot_psi Au c) (seq 0 n))) A = b).
  { apply HR. unfold b. rewrite length_map, length_seq. reflexivity. }
  set (psi := foot_psi Au c j) in *.
  assert (Hnth : nth_error (map (foot_psi Au c) (seq 0 n)) j = Some psi).
  { rewrite nth_error_map.
    rewrite (nth_error_nth' _ 0%nat) by (rewrite length_seq; exact Hj).
    rewrite seq_nth by exact Hj. reflexivity. }
  assert (Hrow := f_equal (fun v => nth j v 0) Hb). simpl in Hrow.
  rewrite mat_vec_nth, (spec_matrix_row n _ j psi Hnth) in Hrow.
  rewrite (dot_row_weighted_at _ A n HAlen) in Hrow.
  assert (Hbj : nth j b 0 = rhs Au c n (st_AC_l0 st) j).
  { unfold b.
    rewrite (nth_indep _ 0 (rhs Au c n (st_AC_l0 st) 0%nat))
      by (rewrite length_map, length_seq; exact Hj).
    rewrite (map_nth (rhs Au c n (st_AC_l0 st)) (seq 0 n) 0%nat j).
    rewrite seq_nth by exact Hj. reflexivity. }
  rewrite Hbj in Hrow. unfold rhs_forwards in Hrow. fold psi in Hrow.
  destruct (Hgood j Hj) as [H0 Hd]. fold psi in H0, Hd.
  rewrite EAl. unfold cst_lower, class_function.
  replace (psi / 1) with psi by field.
  rewrite shape_function_cons, HAlen.
  set (W := weighted _ A) in *.
  set (X := foot_xi Au c j) in *.
  assert (E : st_AC_l0 st * (1 - psi) ^ n + W
              = (2 * X + psi * deltaz / c) / (2 * sqrt psi * (psi - 1)))
    by lra.
  rewrite E. field. split; [exact Hc|].
  split.
  - intros Z. apply Hd. rewrite Z. ring.
  - intros Z. apply Hd. rewrite Z. ring.
Qed.

End Feet.

(** The wedge with one spar at mid-chord. *)
Lemma forwards_child_passes_through_the_spar_feet_witness :
  cst_lower [0; 0] (1 / 2 / 1) 1
    (psi_l (prim := rigid) [/ 2] [0; 0] [0; 0] 1 1 [0; 0] 1 0)
  = xi_l (prim := rigid) [/ 2] [0; 0] [0; 0] 1 1 [0; 0] 1 0.
Proof.
  destruct (forwards_child_passes_through_the_spar_feet
              (prim := rigid) (la := exact_linalg)
              [0] [/ 2] [0; 0] [0; 0] 1 1 1 [0; 0] [0; 0] 1 [/ 2]
              wedge_forwards_run) as [_ H].
  - intros F' HF. apply exact_single_inverse; [|exact HF].
    unfold psi_l, psi_upper_children. simpl. lra.
  - exact (H 0%nat Nat.lt_0_1).
Defined.

(** ** The outline returned by [plot_airfoil] *)

Lemma linspace_length a b num : length (linspace a b num) = num.
Proof. unfold linspace. rewrite length_map, length_seq. reflexivity. Qed.

Lemma linspace_nth a b num i :
  (i < num)%nat ->
  nth i (linspace a b num) 0 = a + INR i * ((b - a) / INR (num - 1)).
Proof.
  intros H. unfold linspace.
  rewrite (nth_indep _ 0 ((fun i => a + INR i * ((b - a) / INR (num - 1))) 0%nat))
    by (rewrite length_map, length_seq; exact H).
  rewrite (map_nth (fun i => a + INR i * ((b - a) / INR (num - 1)))).
  rewrite seq_nth by exact H. reflexivity.
Qed.

Lemma linspace_first a b num : (0 < num)%nat -> nth 0 (linspace a b num) 0 = a.
Proof. intros H. rewrite linspace_nth by exact H. simpl. ring. Qed.

Lemma linspace_last a b num :
  (1 < num)%nat -> nth (num - 1) (linspace a b num) 0 = b.
Proof.
  intros H. rewrite linspace_nth by lia. field.
  apply not_0_INR. lia.
Qed.

Lemma outline_length {A} (u l : list A) :
  l <> [] -> length (rev u ++ tl l) = (length u + length l - 1)%nat.
Proof.
  intros H. destruct l as [|a l]; [contradiction|].
  rewrite length_app, length_rev. simpl. lia.
Qed.

Lemma outline_palindrome {A} (l : list A) :
  rev (rev l ++ tl l) = rev l ++ tl l.
Proof.
  destruct l as [|a l]; [reflexivity|].
  simpl. rewrite rev_app_distr, rev_app_distr, rev_involutive. simpl.
  rewrite <- app_assoc. reflexivity.
Qed.

Lemma outline_nth_upper (u l : list R) i :
  (i < length u)%nat ->
  nth i (rev u ++ tl l) 0 = nth (length u - S i) u 0.
Proof.
  intros H. rewrite app_nth1 by (rewrite length_rev; exact H).
  apply rev_nth. exact H.
Qed.

Lemma outline_nth_lower (u l : list R) i :
  (length u <= i)%nat ->
  nth i (rev u ++ tl l) 0 = nth (S (i - length u)) l 0.
Proof.
  intros H. rewrite app_nth2 by (rewrite length_rev; exact H).
  rewrite length_rev. destruct l as [|a l]; simpl.
  - destruct (i - length u)%nat; reflexivity.
  - reflexivity.
Qed.

Section Outline.
Context `{prim : CST_2D} `{la : Linalg}.
Variables (AC psi_spars : list R) (c_L deltaz : R) (Au_L Al_L : list R).

(** X11.  [plot_airfoil] solves in the backwards mode and, when that call
    returns, returns the outline of the child as 1999 points: from the
    trailing edge along the upper surface to the leading edge and back along
    the lower surface, the leading edge once.  The abscissas read the same in
    both directions, start and end at the child chord and pass through 0 in
    the middle; the ordinates are those of [CST] on the 1000 abscissas, [CST]
    returning one ordinate per abscissa.  Without [return_coordinates] the
    call returns nothing, and it never returns when the solver does not. *)
Theorem plot_airfoil_returns_the_child_outline
  (fuel : nat) (Au Al : list R) (c : R) (ts : list R)
  (Hrun : calculate_dependent_shape_coefficients AC psi_spars Au_L Al_L
            deltaz c_L fuel "backwards" = Ok (Au, Al, c, ts))
  (Hcst : forall xs ch dz A B,
      length (surf_u (CST xs ch dz A B)) = length xs /\
      length (surf_l (CST xs ch dz A B)) = length xs) :
  plot_airfoil AC psi_spars c_L deltaz Au_L Al_L fuel false = Ok None /\
  exists xs ys,
    plot_airfoil AC psi_spars c_L deltaz Au_L Al_L fuel true
      = Ok (Some {| coord_x := xs; coord_y := ys |}) /\
    length xs = 1999%nat /\ length ys = 1999%nat /\
    rev xs = xs /\
    nth 0 xs 0 = c /\ nth 999 xs 0 = 0 /\ nth 1998 xs 0 = c /\
    let y := CST (linspace 0 c 1000) c (deltaz / 2, deltaz / 2) Al Au in
    (forall i, (i <= 999)%nat ->
       nth i xs 0 = nth (999 - i) (linspace 0 c 1000) 0 /\
       nth i ys 0 = nth (999 - i) (surf_u y) 0) /\
    (forall i, (999 < i <= 1998)%nat ->
       nth i xs 0 = nth (i - 999) (linspace 0 c 1000) 0 /\
       nth i ys 0 = nth (i - 999) (surf_l y) 0).
Proof.
  assert (Hts : length ts = length psi_spars).
  { apply solve_Ok_cases in Hrun as (st & Est & HA & _ & [[_ H]|[E _]]);
      [|discriminate].
    apply (backwards_Ok_inv _ _ _ _ _ _ _ _ HA) in H
      as (_ & _ & _ & B' & _ & _ & E).
    inversion E. apply length_map. }
  assert (Hloop : exists v,
    mapM (fun i => psi_i <- index psi_spars i ;;
                   t_i <- index ts i ;; Ok (psi_i, t_i))
      (seq 0 (length psi_spars)) = Ok v).
  { eexists.
    apply (mapM_Ok _ (fun i => (nth i psi_spars 0, nth i ts 0))).
    intros i Hi. apply in_seq in Hi.
    rewrite (index_Ok psi_spars i (nth i psi_spars 0))
      by (apply nth_error_nth'; lia).
    cbn [bind].
    rewrite (index_Ok ts i (nth i ts 0)) by (apply nth_error_nth'; lia).
    reflexivity. }
  destruct Hloop as (v & Hloop).
  set (L := linspace 0 c 1000).
  assert (HL : length L = 1000%nat) by apply linspace_length.
  destruct (Hcst L c (deltaz / 2, deltaz / 2) Al Au) as [Hu Hl].
  rewrite HL in Hu, Hl.
  assert (HLne : L <> []) by (intros Z; rewrite Z in HL; discriminate).
  split.
  - unfold plot_airfoil, morphing_direction. rewrite Hrun. cbn [bind].
    rewrite Hloop. reflexivity.
  - exists (rev L ++ tl L).
    exists (rev (surf_u (CST L c (deltaz / 2, deltaz / 2) Al Au))
            ++ tl (surf_l (CST L c (deltaz / 2, deltaz / 2) Al Au))).
    split.
    { unfold plot_airfoil, morphing_direction. rewrite Hrun. cbn [bind].
      rewrite Hloop. reflexivity. }
    split; [rewrite outline_length, HL by exact HLne; reflexivity|].
    split.
    { rewrite outline_length, Hu, Hl; [reflexivity|].
      intros Z. rewrite Z in Hl. discriminate. }
    split; [apply outline_palindrome|].
    split.
    { rewrite outline_nth_upper by (rewrite HL; lia). rewrite HL.
      apply (linspace_last 0 c 1000). lia. }
    split.
    { rewrite outline_nth_upper by (rewrite HL; lia). rewrite HL.
      replace (1000 - 1000)%nat with 0%nat by lia.
      apply (linspace_first 0 c 1000). lia. }
    split.
    { rewrite outline_nth_lower by (rewrite HL; lia). rewrite HL.
      replace (S (1998 - 1000)) with (1000 - 1)%nat by lia.
      apply (linspace_last 0 c 1000). lia. }
    split.
    + intros i Hi. split.
      * rewrite outline_nth_upper by (rewrite HL; lia). rewrite HL.
        f_equal; lia.
      * rewrite outline_nth_upper by (rewrite Hu; lia). rewrite Hu.
        f_equal; lia.
    + intros i Hi. split.
      * rewrite outline_nth_lower by (rewrite HL; lia). rewrite HL.
        f_equal; lia.
      * rewrite outline_nth_lower by (rewrite Hu; lia). rewrite Hu.
        f_equal; lia.
Qed.

(** X12.  [plot_airfoil] never returns when the solver does not: an
    exception of the backwards solve is the exception of the call. *)
Theorem plot_airfoil_fails_with_the_solver
  (fuel : nat) (return_coordinates : bool) :
  (forall e,
     calculate_dependent_shape_coefficients AC psi_spars Au_L Al_L
       deltaz c_L fuel "backwards" = Raise e ->
     plot_airfoil AC psi_spars c_L deltaz Au_L Al_L fuel return_coordinates
       = Raise e) /\
  (forall v,
     plot_airfoil AC psi_spars c_L deltaz Au_L Al_L fuel return_coordinates
       = Ok v ->
     exists Au Al c ts,
       calculate_dependent_shape_coefficients AC psi_spars Au_L Al_L
         deltaz c_L fuel "backwards" = Ok (Au, Al, c, ts) /\
       length ts = length psi_spars /\ length Au = S (length AC)).
Proof.
  split.
  - intros e H. unfold plot_airfoil, morphing_direction. rewrite H.
    reflexivity.
  - intros v H. unfold plot_airfoil, morphing_direction in H.
    apply bind_Ok in H as ([[[Au Al] c] ts] & Hrun & _).
    exists Au, Al, c, ts. split; [exact Hrun|].
    apply solve_Ok_cases in Hrun as (st & Est & HA & _ & [[_ H]|[E _]]);
      [|discriminate].
    apply (backwards_Ok_inv _ _ _ _ _ _ _ _ HA) in H
      as (_ & _ & _ & B' & _ & _ & E).
    inversion E. split; [apply length_map|]. rewrite HA. reflexivity.
Qed.

End Outline.

(** A parent of order 1 with a spar at a quarter of its chord. *)
Lemma plot_airfoil_returns_the_child_outline_witness :
  plot_airfoil (prim := rigid) (la := exact_linalg)
    [1] [/ 4] 1 0 [1; 1] [1; 1] 1 false = Ok None.
Proof.
  destruct (rigid_backwards_single 1 1 [1] 1 [1] 0 1 (/ 4) 0)
    as ([[[Au Al] c] ts] & Hrun); [lra|lra|].
  refine (proj1 (plot_airfoil_returns_the_child_outline
                   (prim := rigid) (la := exact_linalg)
                   [1] [/ 4] 1 0 [1; 1] [1; 1] 1 Au Al c ts Hrun _)).
  intros xs ch dz A B. simpl. rewrite !length_map. split; reflexivity.
Defined.

(** ** What the two modes share *)

Section Modes.
Context `{prim : CST_2D} `{la : Linalg}.
Variables (Au_C_1_to_n psi_spars Au_P Al_P : list R) (deltaz c_P : R).

Local Notation loop := (fixed_point_loop Au_C_1_to_n Au_P deltaz c_P).
Local Notation lead := (leading_coefficients Au_C_1_to_n Au_P Al_P deltaz c_P).

(** The value of the iteration does not depend on the fuel that was left. *)
Lemma loop_fuel_irrelevant : forall fuel1 fuel2 a e v1 v2,
  loop fuel1 a e = Ok v1 -> loop fuel2 a e = Ok v2 -> v1 = v2.
Proof.
  induction fuel1 as [|fuel1 IH]; intros fuel2 a e v1 v2 H1 H2.
  - destruct (Rgt_dec e 1e-9) as [G|G].
    + rewrite loop_starved in H1 by exact G. discriminate.
    + rewrite loop_stop in H1, H2 by exact G. congruence.
  - destruct (Rgt_dec e 1e-9) as [G|G].
    + destruct fuel2 as [|fuel2];
        [rewrite loop_starved in H2 by exact G; discriminate|].
      rewrite loop_continue in H1, H2 by exact G.
      apply bind_Ok in H1 as (a1 & E1 & H1).
      apply bind_Ok in H2 as (a2 & E2 & H2).
      rewrite E1 in E2. inversion E2; subst a2.
      exact (IH _ _ _ _ _ H1 H2).
    + rewrite loop_stop in H1, H2 by exact G. congruence.
Qed.

Lemma leading_fuel_irrelevant fuel1 fuel2 st1 st2 :
  lead fuel1 = Ok st1 -> lead fuel2 = Ok st2 -> st1 = st2.
Proof.
  unfold leading_coefficients. intros H1 H2.
  apply bind_Ok in H1 as (a0 & Ea & H1).
  apply bind_Ok in H2 as (a0' & Ea' & H2).
  rewrite Ea in Ea'. inversion Ea'; subst a0'.
  apply bind_Ok in H1 as (u1 & Eu1 & H1).
  apply bind_Ok in H2 as (u2 & Eu2 & H2).
  pose proof (loop_fuel_irrelevant _ _ _ _ _ _ Eu1 Eu2). subst u2.
  rewrite H1 in H2. inversion H2. reflexivity.
Qed.

(** X13.  The mode changes only the lower coefficients after the leading
    one and the thicknesses: a backwards and a forwards call on the same
    arguments, each with whatever number of turns its iteration was allowed,
    return the same upper coefficients, the free coefficients behind the
    leading one, the same chord, the baseline chord of these coefficients,
    and the same leading lower coefficient. *)
Theorem both_modes_share_the_upper_surface
  (fuel_b fuel_f : nat) (Au Al : list R) (c : R) (ts : list R)
  (Au' Al' : list R) (c' : R) (ts' : list R)
  (Hb : calculate_dependent_shape_coefficients Au_C_1_to_n psi_spars Au_P Al_P
          deltaz c_P fuel_b "backwards" = Ok (Au, Al, c, ts))
  (Hf : calculate_dependent_shape_coefficients Au_C_1_to_n psi_spars Au_P Al_P
          deltaz c_P fuel_f "forwards" = Ok (Au', Al', c', ts')) :
  Au' = Au /\ c' = c /\ nth 0 Al' 0 = nth 0 Al 0 /\
  tl Au = Au_C_1_to_n /\
  c = calculate_c_baseline c_P Au Au_P deltaz.
Proof.
  apply solve_Ok_cases in Hb as (st & Est & HA & _ & [[_ Hb]|[E _]]);
    [|discriminate].
  apply solve_Ok_cases in Hf as (st' & Est' & _ & _ & [[E _]|[_ Hf]]);
    [discriminate|].
  pose proof (leading_fuel_irrelevant _ _ _ _ Est Est'). subst st'.
  pose proof (leading_Ok_inv _ _ _ _ _ _ _ Est)
    as (a0 & l0 & _ & _ & _ & _ & HcC & _).
  apply (backwards_Ok_inv _ _ _ _ _ _ _ _ HA) in Hb
    as (_ & _ & _ & B' & _ & _ & E).
  inversion E; subst Au Al c ts. clear E.
  apply forwards_Ok_inv in Hf as (_ & -> & -> & _ & _ & F & F' & f & _ & _ & ->).
  split; [reflexivity|]. split; [symmetry; exact HcC|].
  split; [reflexivity|]. split; [rewrite HA; reflexivity|exact HcC].
Qed.

End Modes.

(** The wedge with one spar at mid-chord, in both modes. *)
Lemma both_modes_share_the_upper_surface_witness :
  exists Au Al c ts,
    calculate_dependent_shape_coefficients (prim := rigid) (la := exact_linalg)
      [0] [/ 2] [0; 0] [0; 0] 1 1 1 "backwards" = Ok (Au, Al, c, ts) /\
    [0; 0] = Au /\ 1 = c.
Proof.
  destruct (rigid_backwards_single 0 0 [0] 0 [0] 1 1 (/ 2) 0)
    as ([[[Au Al] c] ts] & Hrun); [lra|lra|].
  exists Au, Al, c, ts. split; [exact Hrun|].
  destruct (both_modes_share_the_upper_surface
              (prim := rigid) (la := exact_linalg)
              [0] [/ 2] [0; 0] [0; 0] 1 1 1 1 Au Al c ts
              [0; 0] [0; 0] 1 [/ 2] Hrun wedge_forwards_run)
    as (HA & Hc & _).
  split; [exact HA|exact Hc].
Defined.

(** The flat plate of chord 1 with one spar at mid-chord, unchanged. *)
Lemma strains_vanish_with_unit_chord_witness :
  calculate_strains (prim := rigid) [0; 0] [0; 0] 1 [0; 0] [0; 0] 1 0
    [/ 2] [0]
  = Ok ([0; 0], 0).
Proof.
  apply (strains_vanish_with_unit_chord (prim := rigid) [0; 0] [0; 0] 0
           [/ 2] [0]).
  - intros psi _. reflexivity.
  - intros psi _. reflexivity.
  - simpl. lia.
  - intros i Hi. simpl in Hi.
    destruct i as [|[|i]]; [| |lia]; simpl; lra.
  - unfold sum. simpl. lra.
Defined.

(** ** The rows of the matrix *)

Lemma binomial_positive n r : (r <= n)%nat -> (0 < binomial n r)%nat.
Proof.
  intros H. pose proof (binomial_fact n r H) as E.
  pose proof (fact_neq_0 n). destruct (binomial n r); [simpl in E; lia|lia].
Qed.

Lemma binomial_C n r : (r <= n)%nat -> INR (binomial n r) = C n r.
Proof.
  intros H. unfold C.
  assert (N : INR (fact r) * INR (fact (n - r)) <> 0).
  { apply Rmult_integral_contrapositive_currified; apply INR_fact_neq_0. }
  rewrite <- (binomial_fact n r H), !mult_INR. field.
  split; apply INR_fact_neq_0.
Qed.

Lemma sum_app l1 l2 : sum (l1 ++ l2) = sum l1 + sum l2.
Proof.
  unfold sum. rewrite fold_left_app, fold_left_Rplus_acc. reflexivity.
Qed.

Lemma sum_seq_sum_f_R0 (g : nat -> R) : forall m,
  sum (map g (seq 0 (S m))) = sum_f_R0 g m.
Proof.
  induction m as [|m IH].
  - unfold sum. simpl. ring.
  - rewrite seq_S, map_app, sum_app, IH. simpl. unfold sum. simpl. ring.
Qed.

Lemma bernstein_row_sum n psi :
  sum (map (fun i => bernstein n (i + 1) psi) (seq 0 n)) = 1 - (1 - psi) ^ n.
Proof.
  destruct n as [|m]; [unfold sum; simpl; ring|].
  rewrite sum_seq_sum_f_R0.
  assert (E : (psi + (1 - psi)) ^ S m
              = sum_f_R0 (fun i => bernstein (S m) i psi) (S m)).
  { rewrite Binomial.binomial. apply sum_eq. intros i Hi.
    unfold bernstein. rewrite binomial_C by exact Hi. reflexivity. }
  rewrite decomp_sum in E by lia. simpl pred in E.
  replace (psi + (1 - psi)) with 1 in E by ring. rewrite pow1 in E.
  assert (E0 : bernstein (S m) 0 psi = (1 - psi) ^ S m).
  { unfold bernstein. simpl. ring. }
  rewrite E0 in E.
  rewrite (sum_eq (fun i => bernstein (S m) (i + 1) psi)
             (fun i => bernstein (S m) (S i) psi)).
  - lra.
  - intros i _. rewrite Nat.add_1_r. reflexivity.
Qed.

Lemma bernstein_positive n r psi :
  (r <= n)%nat -> 0 < psi < 1 -> 0 < bernstein n r psi.
Proof.
  intros Hr [H0 H1]. unfold bernstein.
  apply Rmult_lt_0_compat; [apply Rmult_lt_0_compat|].
  - apply lt_0_INR. apply binomial_positive. exact Hr.
  - apply pow_lt. exact H0.
  - apply pow_lt. lra.
Qed.

(** X14.  Every row of the matrix that the solvers assemble holds the
    Bernstein basis of order [n] at its station without the leading term:
    its entries add up to [1 - (1 - psi_j)^n], and they are positive for a
    station strictly inside (0,1). *)
Theorem matrix_rows_complete_the_leading_term
  (n : nat) (psis : list R) (B : list (list R))
  (HB : bernstein_matrix n psis = Ok B) :
  length B = n /\
  forall j, (j < n)%nat ->
    length (nth j B []) = n /\
    sum (nth j B []) = 1 - (1 - nth j psis 0) ^ n /\
    (0 < nth j psis 0 < 1 -> Forall (fun b => 0 < b) (nth j B [])).
Proof.
  split; [eapply bernstein_matrix_length; exact HB|].
  intros j Hj.
  assert (HL : (n <= length psis)%nat).
  { destruct (le_lt_dec n (length psis)) as [G|G]; [exact G|].
    rewrite bernstein_matrix_short in HB by exact G. discriminate. }
  pose proof (mapM_seq_nth _ [] _ _ _ HB j Hj) as Hrow. simpl in Hrow.
  rewrite (matrix_row_Ok n psis j (nth j psis 0)) in Hrow
    by (apply nth_error_nth'; lia).
  inversion Hrow as [E]. clear Hrow.
  split; [rewrite length_map, length_seq; reflexivity|].
  split; [apply bernstein_row_sum|].
  intros Hpsi. apply Forall_forall. intros b Hb.
  apply in_map_iff in Hb as (i & <- & Hi). apply in_seq in Hi.
  apply bernstein_positive; [lia|exact Hpsi].
Qed.

(** One station at mid-chord. *)
Lemma matrix_rows_complete_the_leading_term_witness :
  sum (nth 0 (spec_matrix 1 [/ 2]) []) = 1 - (1 - / 2) ^ 1.
Proof.
  exact (proj1 (proj2 (proj2 (matrix_rows_complete_the_leading_term
                        1 [/ 2] (spec_matrix 1 [/ 2])
                        (bernstein_matrix_Ok 1 [/ 2] eq_refl)) 0%nat
                        Nat.lt_0_1))).
Defined.

(** ** When the forwards branch returns *)

Section ForwardsReturns.
Context `{prim : CST_2D} `{la : Linalg}.
Variables (Au_C_1_to_n psi_spars Au_P Al_P : list R) (deltaz c_P : R).

Local Notation n := (order Au_C_1_to_n).
Local Notation lead := (leading_coefficients Au_C_1_to_n Au_P Al_P deltaz c_P).
Local Notation fstep := (forwards_step Au_C_1_to_n psi_spars Au_P Al_P deltaz c_P).
Local Notation forw := (forwards Au_C_1_to_n psi_spars Au_P Al_P deltaz c_P).
Local Notation thick := (forwards_spar_thickness psi_spars Au_P Al_P deltaz c_P).
Local Notation pus A c := (psi_upper_children psi_spars Au_P deltaz c_P A c).
Local Notation xus A c := (xi_upper_children psi_spars Au_P deltaz c_P A c).
Local Notation foot_psi A c := (psi_l psi_spars Au_P Al_P deltaz c_P A c).
Local Notation foot_xi A c := (xi_l psi_spars Au_P Al_P deltaz c_P A c).
Local Notation rhs A c := (rhs_forwards psi_spars Au_P Al_P deltaz c_P A c).

Lemma foot_divisor psi : 0 < psi < 1 -> 2 * sqrt psi * (psi - 1) <> 0.
Proof.
  intros H. pose proof (interior_divisor psi H) as D.
  intros Z. apply D. lra.
Qed.

Lemma fstep_eval st c ts pl f j :
  c_P <> 0 -> c <> 0 ->
  (j < length psi_spars)%nat ->
  (j < length (surf_u (xi_parent psi_spars Au_P Al_P deltaz c_P)))%nat ->
  (j < length (surf_l (xi_parent psi_spars Au_P Al_P deltaz c_P)))%nat ->
  (j < length (xus (st_Au_C st) c))%nat ->
  0 < foot_psi (st_Au_C st) c j < 1 ->
  fstep st c (pus (st_Au_C st) c) (xus (st_Au_C st) c) (ts, pl, f) j =
  (f' <- set_item f j (rhs (st_Au_C st) c n (st_AC_l0 st) j) ;;
   Ok (ts ++ [thick j], pl ++ [foot_psi (st_Au_C st) c j], f')).
Proof.
  intros HcP Hc Hj Hu Hl Hx Hfoot. unfold forwards_step.
  rewrite fdiv_Ok by exact HcP. cbn [bind].
  fold (xi_parent psi_spars Au_P Al_P deltaz c_P).
  rewrite (index_Ok _ j (nth j (surf_u (xi_parent psi_spars Au_P Al_P deltaz c_P)) 0))
    by (apply nth_error_nth'; exact Hu).
  cbn [bind].
  rewrite (index_Ok _ j (nth j (surf_l (xi_parent psi_spars Au_P Al_P deltaz c_P)) 0))
    by (apply nth_error_nth'; exact Hl).
  cbn [bind].
  rewrite (index_Ok psi_spars j (nth j psi_spars 0))
    by (apply nth_error_nth'; exact Hj).
  cbn [bind].
  rewrite (index_Ok (pus (st_Au_C st) c) j (nth j (pus (st_Au_C st) c) 0))
    by (apply nth_error_nth'; unfold psi_upper_children;
        rewrite length_map; exact Hj).
  cbn [bind]. rewrite fdiv_Ok by exact Hc. cbn [bind].
  rewrite (index_Ok (xus (st_Au_C st) c) j (nth j (xus (st_Au_C st) c) 0))
    by (apply nth_error_nth'; exact Hx).
  cbn [bind].
  fold (delta_P psi_spars Au_P Al_P deltaz c_P j).
  fold (foot_psi (st_Au_C st) c j). fold (foot_xi (st_Au_C st) c j).
  rewrite fdiv_Ok by exact Hc. cbn [bind].
  rewrite fsqrt_Ok by lra. cbn [bind].
  rewrite fdiv_Ok by (apply foot_divisor; exact Hfoot). cbn [bind].
  reflexivity.
Qed.

Lemma forwards_loop_prefix st c : forall k,
  c_P <> 0 -> c <> 0 ->
  (k <= n)%nat -> (k <= length psi_spars)%nat ->
  (k <= length (surf_u (xi_parent psi_spars Au_P Al_P deltaz c_P)))%nat ->
  (k <= length (surf_l (xi_parent psi_spars Au_P Al_P deltaz c_P)))%nat ->
  (k <= length (xus (st_Au_C st) c))%nat ->
  (forall j, (j < k)%nat -> 0 < foot_psi (st_Au_C st) c j < 1) ->
  for_each (fstep st c (pus (st_Au_C st) c) (xus (st_Au_C st) c))
    ([], [], zeros n) (seq 0 k)
  = Ok (map thick (seq 0 k), map (foot_psi (st_Au_C st) c) (seq 0 k),
        map (rhs (st_Au_C st) c n (st_AC_l0 st)) (seq 0 k) ++ zeros (n - k)).
Proof.
  induction k as [|k IH]; intros HcP Hc Hn Hk Hu Hl Hx Hfoot.
  - simpl. rewrite Nat.sub_0_r. reflexivity.
  - rewrite seq_S, for_each_app. simpl Nat.add.
    rewrite IH by (auto; lia). cbn [bind for_each].
    rewrite fstep_eval by (auto; lia).
    replace (n - k)%nat with (S (n - S k)) by lia.
    unfold zeros at 1. rewrite repeat_S_app.
    rewrite (set_item_at _ _ _ k)
      by (rewrite length_map, length_seq; reflexivity).
    cbn [bind]. rewrite !map_app. simpl map.
    rewrite <- app_assoc. reflexivity.
Qed.

(** X15.  When the forwards branch returns, and what: once the leading
    coefficients are there, with as many spars as free coefficients, a
    nonzero parent chord, [CST] returning one ordinate per abscissa, every
    spar foot strictly inside (0,1) and [inv] returning an inverse with as
    many rows, the call returns the leading stage's upper coefficients and
    chord, the solution of the system behind the leading lower coefficient,
    and the parent's thicknesses. *)
Theorem forwards_returns
  (fuel : nat) (st : leading) (F' : list (list R))
  (Hst : leading_coefficients Au_C_1_to_n Au_P Al_P deltaz c_P fuel = Ok st)
  (Hn : length psi_spars = order Au_C_1_to_n)
  (HcP : c_P <> 0)
  (Hcst : forall xs ch dz A B,
      length (surf_u (CST xs ch dz A B)) = length xs /\
      length (surf_l (CST xs ch dz A B)) = length xs)
  (Hfeet : forall j, (j < order Au_C_1_to_n)%nat ->
      0 < psi_l psi_spars Au_P Al_P deltaz c_P (st_Au_C st) (st_c_C st) j < 1)
  (Hinv : inv (spec_matrix (order Au_C_1_to_n)
                 (map (psi_l psi_spars Au_P Al_P deltaz c_P
                         (st_Au_C st) (st_c_C st))
                    (seq 0 (order Au_C_1_to_n)))) = Some F') :
  calculate_dependent_shape_coefficients Au_C_1_to_n psi_spars Au_P Al_P
    deltaz c_P fuel "forwards"
  = Ok (st_Au_C st,
        st_AC_l0 st
        :: mat_vec F'
             (map (rhs_forwards psi_spars Au_P Al_P deltaz c_P
                     (st_Au_C st) (st_c_C st) (order Au_C_1_to_n)
                     (st_AC_l0 st))
                (seq 0 (order Au_C_1_to_n))),
        st_c_C st,
        map (forwards_spar_thickness psi_spars Au_P Al_P deltaz c_P)
          (seq 0 (order Au_C_1_to_n))).
Proof.
  rewrite solve_forwards, Hst. cbn [bind].
  pose proof (leading_Ok_inv _ _ _ _ _ _ _ Hst)
    as (a0 & l0 & _ & _ & _ & _ & HcC & Hc & _).
  unfold forwards. rewrite <- HcC.
  rewrite psi_upper_children_Ok. cbn [bind].
  rewrite fdiv_Ok by exact Hc. cbn [bind].
  fold (xus (st_Au_C st) (st_c_C st)).
  assert (Hx : length (xus (st_Au_C st) (st_c_C st)) = length psi_spars).
  { unfold xi_upper_children.
    rewrite (proj1 (Hcst _ _ _ _ _)). unfold psi_upper_children.
    apply length_map. }
  assert (Hu : length (surf_u (xi_parent psi_spars Au_P Al_P deltaz c_P))
               = length psi_spars)
    by (unfold xi_parent; apply (proj1 (Hcst _ _ _ _ _))).
  assert (Hl : length (surf_l (xi_parent psi_spars Au_P Al_P deltaz c_P))
               = length psi_spars)
    by (unfold xi_parent; apply (proj2 (Hcst _ _ _ _ _))).
  rewrite Hn in *.
  rewrite forwards_loop_prefix by (auto; lia).
  cbn [bind]. rewrite Nat.sub_diag, app_nil_r.
  rewrite bernstein_matrix_Ok
    by (rewrite length_map, length_seq; reflexivity).
  cbn [bind]. unfold inv_or_raise. rewrite Hinv. cbn [bind].
  rewrite mapM_index_all. reflexivity.
Qed.

End ForwardsReturns.

(** The wedge with one spar at mid-chord. *)
Lemma forwards_returns_witness :
  exists Al ts,
    calculate_dependent_shape_coefficients (prim := rigid) (la := exact_linalg)
      [0] [/ 2] [0; 0] [0; 0] 1 1 1 "forwards" = Ok ([0; 0], Al, 1, ts).
Proof.
  assert (Hfoot : psi_l (prim := rigid) [/ 2] [0; 0] [0; 0] 1 1 [0; 0] 1 0
                  = / 2).
  { unfold psi_l, psi_upper_children. simpl. lra. }
  destruct (exact_single (/ 2)) as (F' & HF & _); [lra|].
  do 2 eexists.
  apply (forwards_returns (prim := rigid) (la := exact_linalg)
           [0] [/ 2] [0; 0] [0; 0] 1 1 1
           {| st_AC_u0 := 0; st_Au_C := [0; 0]; st_c_C := 1; st_AC_l0 := 0 |}
           F').
  - apply rigid_leading. lra.
  - reflexivity.
  - lra.
  - intros xs ch dz A B. simpl. rewrite !length_map. split; reflexivity.
  - intros j Hj. unfold order in Hj. simpl in Hj.
    assert (j = 0)%nat by lia. subst j. cbn [st_Au_C st_c_C].
    rewrite Hfoot. lra.
  - cbn [st_Au_C st_c_C]. unfold order. cbn [length seq map].
    rewrite Hfoot. exact HF.
Defined.

(** ** Target points that the fit cannot separate *)

Section TracingSingular.
Context `{la : Linalg}.
Variables (A0 : R) (x y : list R) (N1 N2 chord EndThickness : R).

Local Notation n := (length x).
Local Notation Psi := (map (fun xi => xi / chord) x).

(** The fit up to the inversion. *)
Lemma tracing_system :
  chord <> 0 -> length y = length x -> interior Psi ->
  calculate_shape_coefficients_tracing A0 x y N1 N2 chord EndThickness
  = (T' <- inv_or_raise (spec_matrix n Psi) ;;
     Ok (A0 :: mat_vec T'
                 (map (fun p => rhs_tracing A0 N1 N2 chord EndThickness n
                                  (fst p) (snd p))
                    (combine x y)))).
Proof.
  intros Hc Hy Hin.
  unfold calculate_shape_coefficients_tracing.
  rewrite (mapM_Ok _ (fun xi => xi / chord))
    by (intros; apply fdiv_Ok; exact Hc).
  cbn [bind].
  rewrite (mapM_Ok _ (fun yi => yi / chord))
    by (intros; apply fdiv_Ok; exact Hc).
  cbn [bind]. rewrite fdiv_Ok by exact Hc. cbn [bind].
  rewrite (mapM_Ok _
    (fun j => (map (fun i => bernstein n (i + 1) (nth j Psi 0)) (seq 0 n),
               rhs_tracing A0 N1 N2 chord EndThickness n
                 (nth j x 0) (nth j y 0)))).
  2:{ intros j Hj. apply in_seq in Hj. apply tracing_row_Ok; auto. lia. }
  cbn [bind]. rewrite !map_map. cbn [fst snd].
  assert (E1 : map (fun j => map (fun i => bernstein n (i + 1) (nth j Psi 0))
                               (seq 0 n)) (seq 0 n) = spec_matrix n Psi).
  { unfold spec_matrix.
    rewrite <- (map_nth_seq
      (fun psi => map (fun i => bernstein n (i + 1) psi) (seq 0 n)) 0 Psi).
    rewrite length_map. reflexivity. }
  rewrite E1.
  rewrite (map_nth_seq2
    (fun xi yi => rhs_tracing A0 N1 N2 chord EndThickness n xi yi) 0 0 x y Hy).
  reflexivity.
Qed.

(** X17.  Two target points with the same abscissa cannot be traced: the
    matrix has two equal rows, and the call ends with [LinAlgError] whatever
    the ordinates, [inv] returning only inverses.  Any other failure of the
    inversion is the same [LinAlgError], and nothing is returned without a
    successful inversion. *)
Theorem tracing_reports_repeated_abscissas
  (Hc : chord <> 0) (Hy : length y = length x)
  (Hin : interior (map (fun xi => xi / chord) x)) :
  (forall i j, i <> j -> (i < length x)%nat -> (j < length x)%nat ->
     nth i x 0 = nth j x 0 ->
     (forall T',
        inv (spec_matrix (length x) (map (fun xi => xi / chord) x)) = Some T' ->
        inverse_of (spec_matrix (length x) (map (fun xi => xi / chord) x)) T') ->
     calculate_shape_coefficients_tracing A0 x y N1 N2 chord EndThickness
     = Raise LinAlgError) /\
  (inv (spec_matrix (length x) (map (fun xi => xi / chord) x)) = None ->
   calculate_shape_coefficients_tracing A0 x y N1 N2 chord EndThickness
   = Raise LinAlgError) /\
  (forall A,
     calculate_shape_coefficients_tracing A0 x y N1 N2 chord EndThickness
     = Ok A ->
     exists T',
       inv (spec_matrix (length x) (map (fun xi => xi / chord) x)) = Some T' /\
       length A = S (length T') /\ nth 0 A 0 = A0).
Proof.
  rewrite (tracing_system Hc Hy Hin). unfold inv_or_raise.
  split; [|split].
  - intros i j Hij Hi Hj Hsame Hinverse.
    destruct (inv (spec_matrix n Psi)) as [T'|] eqn:E; [|reflexivity].
    exfalso.
    apply (duplicate_stations_singular n Psi i j (nth i x 0 / chord) Hij).
    + rewrite nth_error_map, (nth_error_nth' x 0) by exact Hi. reflexivity.
    + rewrite nth_error_map, (nth_error_nth' x 0) by exact Hj.
      rewrite Hsame. reflexivity.
    + exists T'. apply Hinverse. reflexivity.
  - intros ->. reflexivity.
  - intros A H.
    destruct (inv (spec_matrix n Psi)) as [T'|] eqn:E; [|discriminate].
    cbn [bind] in H. inversion H. exists T'.
    split; [reflexivity|]. split; [|reflexivity].
    simpl. rewrite mat_vec_length. reflexivity.
Qed.

End TracingSingular.

(** Two target points above the same abscissa. *)
Lemma tracing_reports_repeated_abscissas_witness :
  calculate_shape_coefficients_tracing (la := exact_linalg)
    (-2) [0.25; 0.25] [0.7; 0.6] 1 1 0.5 1 = Raise LinAlgError.
Proof.
  assert (Hin : interior (map (fun xi => xi / 0.5) [0.25; 0.25])).
  { apply interior_2; lra. }
  apply (proj1 (tracing_reports_repeated_abscissas (la := exact_linalg)
                  (-2) [0.25; 0.25] [0.7; 0.6] 1 1 0.5 1
                  ltac:(lra) eq_refl Hin) 0%nat 1%nat).
  - discriminate.
  - simpl. lia.
  - simpl. lia.
  - reflexivity.
  - intros T' E. exfalso.
    change (cofactor_inv (spec_matrix 2 [0.25 / 0.5; 0.25 / 0.5]) = Some T') in E.
    rewrite cofactor_inv_None in E; [discriminate|].
    rewrite det_two_stations. ring.
Defined.
